(** * ember-lifeline: lifecycle-aware tasks ([addon/run-task.ts])

    A shallow embedding of the task registry of ember-lifeline and of the
    part of the Ember run loop it drives, followed by the properties of the
    registry that the specification states.

    The JavaScript code mutates three module-level weak maps keyed by the
    owner object and hands closures to the run loop.  The embedding threads
    one [World] through every call: the object heap, the three weak maps,
    the pending entries of the run loop and a log of the user functions
    that were invoked.  Exceptions do not roll back mutations, so a
    computation returns a result together with the world it left behind. *)

From Stdlib Require Import QArith.
From stdpp Require Import gmap strings list.

Local Open Scope string_scope.
Local Open Scope list_scope.
Local Open Scope nat_scope.

(** ** JavaScript values *)

Abbreviation obj_id := nat.
Abbreviation fn_id := nat.
Abbreviation timer_id := nat.

(** A JavaScript number: a finite double is a rational, the three others
    are not finite. *)
Inductive number :=
| Finite (q : Q)
| NaN
| Infinity (negative : bool).

Inductive value :=
| VUndefined
| VNull
| VBoolean (b : bool)
| VNumber (n : number)
| VString (s : string)
| VFunction (f : fn_id)
| VObject (o : obj_id).

Definition typeof (v : value) : string :=
  match v with
  | VUndefined => "undefined"
  | VNull => "object"
  | VBoolean _ => "boolean"
  | VNumber _ => "number"
  | VString _ => "string"
  | VFunction _ => "function"
  | VObject _ => "object"
  end.

(** [Number.isInteger]: a value of type number that is finite and has no
    fractional part. *)
Definition isInteger (v : value) : bool :=
  match v with
  | VNumber (Finite q) => (Qnum q mod Zpos (Qden q) =? 0)%Z
  | _ => false
  end.

Definition isNegative (v : value) : bool :=
  match v with
  | VNumber (Finite q) => (Qnum q <? 0)%Z
  | VNumber (Infinity true) => true
  | _ => false
  end.

Definition int (z : Z) : value := VNumber (Finite (inject_Z z)).

(** An owner: the [isDestroyed] flag of [IDestroyable] and its other
    properties by name. *)
Record object := {
  isDestroyed : bool;
  props : gmap string value;
}.

Global Instance object_inhabited : Inhabited object :=
  populate {| isDestroyed := false; props := ∅ |}.

(** ** JavaScript [Set] and [Map]

    Both iterate in insertion order, so they are lists: a [Set] without
    repetition, a [Map] with one pair per key. *)
Module JSSet.
Abbreviation t := (list timer_id).

Definition has (x : timer_id) (s : t) : bool := bool_decide (x ∈ s).

Definition add (x : timer_id) (s : t) : t :=
  if has x s then s else s ++ [x].

Definition delete (x : timer_id) (s : t) : t :=
  filter (λ y, y ≠ x) s.

Definition clear (s : t) : t := [].
End JSSet.

Module JSMap.
Abbreviation t V := (list (string * V)).

Section map.
Context {V : Type}.

Fixpoint get (k : string) (m : t V) : option V :=
  match m with
  | [] => None
  | (k', v) :: m' => if decide (k' = k) then Some v else get k m'
  end.

(** [set] on a key that is present overwrites in place. *)
Fixpoint set (k : string) (v : V) (m : t V) : t V :=
  match m with
  | [] => [(k, v)]
  | (k', v') :: m' =>
      if decide (k' = k) then (k, v) :: m' else (k', v') :: set k v m'
  end.

Definition delete (k : string) (m : t V) : t V :=
  filter (λ kv, kv.1 ≠ k) m.

Definition size (m : t V) : nat := length m.
End map.
End JSMap.

(** ** Closures

    The arrow functions the addon creates and hands to the run loop, with
    the variables they close over.  A user function is opaque and known by
    its identity ([fn_id]). *)
Inductive callback :=
  (** [() => { timers.delete(cancelId); task.call(obj); }] of [runTask] *)
| RunTaskCallback (obj : obj_id) (cancelId : timer_id) (task : fn_id)
  (** [taskWrapper] of [scheduleTask] *)
| TaskWrapper (obj : obj_id) (cancelId : timer_id) (task : fn_id)
  (** [debouncedTask] of [debounceTask]; [cid] is the identity of the
      closure object, a fresh one for every arrow function evaluated *)
| DebouncedTask (cid : nat) (obj : obj_id) (name : string).

Global Instance callback_eq_dec : EqDecision callback.
Proof. solve_decision. Defined.

(** [interface PendingDebounce] *)
Record PendingDebounce := {
  debouncedTask : callback;
  cancelId : timer_id;
}.

(** The functions returned by [getTimersDisposable(obj, timers)] and
    [getDebouncesDisposable(debounces)].  [timers] and [debounces] are the
    collections stored for [obj] in the weak maps: an entry of a weak map is
    never replaced or removed, so the collection a closure captured is the
    one the weak map holds for the owner, and the closure records the owner
    only. *)
Inductive disposable :=
| TimersDisposable (obj : obj_id)
| DebouncesDisposable (obj : obj_id).

Global Instance disposable_eq_dec : EqDecision disposable.
Proof. solve_decision. Defined.

Definition disposable_owner (d : disposable) : obj_id :=
  match d with
  | TimersDisposable obj => obj
  | DebouncesDisposable obj => obj
  end.

(** ** The run loop

    An entry of the run loop: what was asked of it and with which
    arguments. *)
Inductive job :=
| Later (method : callback) (wait : value)
| Scheduled (queueName : string) (target : obj_id) (method : callback)
    (args : list value)
| Throttled (target : obj_id) (method : fn_id) (wait : value)
| Debounced (target : obj_id) (method : callback) (args : list value)
    (wait : value).

(** One invocation of a user function: the function, its [this], its
    arguments, and what the two registries held when it was entered. *)
Record invocation := {
  callee : fn_id;
  this : obj_id;
  arguments : list value;
  timers_seen : gmap obj_id JSSet.t;
  debounces_seen : gmap obj_id (JSMap.t PendingDebounce);
}.

Record World := {
  heap : gmap obj_id object;
  registeredTimers : gmap obj_id JSSet.t;
  registeredDebounces : gmap obj_id (JSMap.t PendingDebounce);
  registeredDisposables : gmap obj_id (list disposable);
  nextTimer : timer_id;
  pending : list (timer_id * job);
  nextClosure : nat;
  calls : list invocation;
}.

Definition init : World :=
  {| heap := ∅; registeredTimers := ∅; registeredDebounces := ∅;
     registeredDisposables := ∅; nextTimer := 0; pending := [];
     nextClosure := 0; calls := [] |}.

(** ** Computations that may throw *)

(** What is thrown, under the names of section 7 of the specification.
    The addon throws through [assert]; the message tells which check
    failed:
    - "on destroyed object": [DestroyedOwnerError];
    - "without a string as the first argument" said of a task name, "is
      not a function", and what [getTask] throws: [InvalidTaskError];
    - "without a string as the first argument" said by [scheduleTask] of
      its queue: [InvalidQueueError];
    - "while trying to schedule to the `afterRender` queue":
      [ReservedQueueError];
    - "with incorrect `timeout` argument", "with incorrect `wait`
      argument": [InvalidDelayError].
    [TypeError] is what JavaScript throws on a call of something that is
    not a function. *)
Inductive error :=
| DestroyedOwnerError
| InvalidTaskError
| InvalidQueueError
| ReservedQueueError
| InvalidDelayError
| TypeError.

Inductive result (A : Type) :=
| Ok (a : A)
| Throw (e : error).
Global Arguments Ok {A} a.
Global Arguments Throw {A} e.

Definition M (A : Type) : Type := World → result A * World.

Definition ret {A} (a : A) : M A := λ w, (Ok a, w).

Definition throw {A} (e : error) : M A := λ w, (Throw e, w).

Definition bind {A B} (m : M A) (f : A → M B) : M B :=
  λ w, match m w with
       | (Ok a, w') => f a w'
       | (Throw e, w') => (Throw e, w')
       end.

Notation "x <- c1 ;; c2" := (bind c1 (λ x, c2))
  (at level 100, c1 at next level, right associativity).
Notation "c1 ;; c2" := (bind c1 (λ _, c2))
  (at level 100, right associativity).

Definition gets {A} (f : World → A) : M A := λ w, (Ok (f w), w).

Definition modify (f : World → World) : M unit := λ w, (Ok tt, f w).

(** [assert(message, test)] of [@ember/debug]: throws unless [test] (a
    production build strips the call; the model is the debug build). *)
Definition assert (e : error) (test : bool) : M unit :=
  if test then ret tt else throw e.

Fixpoint forEach {A} (l : list A) (f : A → M unit) : M unit :=
  match l with
  | [] => ret tt
  | x :: l' => f x ;; forEach l' f
  end.

Definition run {A} (m : M A) (w : World) : World := (m w).2.

(** ** The world, field by field *)

Definition with_heap (f : gmap obj_id object → gmap obj_id object)
    (w : World) : World :=
  {| heap := f (heap w); registeredTimers := registeredTimers w;
     registeredDebounces := registeredDebounces w;
     registeredDisposables := registeredDisposables w;
     nextTimer := nextTimer w; pending := pending w;
     nextClosure := nextClosure w; calls := calls w |}.

Definition with_timers (f : gmap obj_id JSSet.t → gmap obj_id JSSet.t)
    (w : World) : World :=
  {| heap := heap w; registeredTimers := f (registeredTimers w);
     registeredDebounces := registeredDebounces w;
     registeredDisposables := registeredDisposables w;
     nextTimer := nextTimer w; pending := pending w;
     nextClosure := nextClosure w; calls := calls w |}.

Definition with_debounces
    (f : gmap obj_id (JSMap.t PendingDebounce) →
         gmap obj_id (JSMap.t PendingDebounce))
    (w : World) : World :=
  {| heap := heap w; registeredTimers := registeredTimers w;
     registeredDebounces := f (registeredDebounces w);
     registeredDisposables := registeredDisposables w;
     nextTimer := nextTimer w; pending := pending w;
     nextClosure := nextClosure w; calls := calls w |}.

Definition with_disposables
    (f : gmap obj_id (list disposable) → gmap obj_id (list disposable))
    (w : World) : World :=
  {| heap := heap w; registeredTimers := registeredTimers w;
     registeredDebounces := registeredDebounces w;
     registeredDisposables := f (registeredDisposables w);
     nextTimer := nextTimer w; pending := pending w;
     nextClosure := nextClosure w; calls := calls w |}.

Definition with_pending
    (f : list (timer_id * job) → list (timer_id * job)) (w : World) : World :=
  {| heap := heap w; registeredTimers := registeredTimers w;
     registeredDebounces := registeredDebounces w;
     registeredDisposables := registeredDisposables w;
     nextTimer := nextTimer w; pending := f (pending w);
     nextClosure := nextClosure w; calls := calls w |}.

Definition with_nextTimer (n : timer_id) (w : World) : World :=
  {| heap := heap w; registeredTimers := registeredTimers w;
     registeredDebounces := registeredDebounces w;
     registeredDisposables := registeredDisposables w;
     nextTimer := n; pending := pending w;
     nextClosure := nextClosure w; calls := calls w |}.

Definition with_nextClosure (n : nat) (w : World) : World :=
  {| heap := heap w; registeredTimers := registeredTimers w;
     registeredDebounces := registeredDebounces w;
     registeredDisposables := registeredDisposables w;
     nextTimer := nextTimer w; pending := pending w;
     nextClosure := n; calls := calls w |}.

Definition with_calls (f : list invocation → list invocation)
    (w : World) : World :=
  {| heap := heap w; registeredTimers := registeredTimers w;
     registeredDebounces := registeredDebounces w;
     registeredDisposables := registeredDisposables w;
     nextTimer := nextTimer w; pending := pending w;
     nextClosure := nextClosure w; calls := f (calls w) |}.

(** [obj.isDestroyed] and [obj[name]] *)
Definition destroyed (obj : obj_id) (w : World) : bool :=
  isDestroyed (heap w !!! obj).

Definition get_prop (obj : obj_id) (name : string) (w : World) : value :=
  default VUndefined (props (heap w !!! obj) !! name).

(** The timer set and the debounce map of an owner; an owner without an
    entry tracks nothing. *)
Definition tracked (obj : obj_id) (w : World) : JSSet.t :=
  default [] (registeredTimers w !! obj).

Definition debounces (obj : obj_id) (w : World) : JSMap.t PendingDebounce :=
  default [] (registeredDebounces w !! obj).

(** A user function is entered: all the model keeps of it is the record of
    the call. *)
Definition call_user (f : fn_id) (this : obj_id) (args : list value)
    : M unit :=
  modify (λ w, with_calls (λ l, l ++
    [ {| callee := f; this := this; arguments := args;
         timers_seen := registeredTimers w;
         debounces_seen := registeredDebounces w |} ]) w).

(** ** The primitive scheduler ([@ember/runloop])

    The run loop is an external collaborator.  Section 1 of the
    specification gives its interface ([scheduleAfterDelay],
    [scheduleInQueue], [throttle], [debounce], [cancel]), sections 4.3 and
    5 its policies.  Every operation but [schedule] on a queue name the
    run loop does not take is total. *)

(** Modelled from the spec: the run loop issues an identifier with every
    entry it takes, a new one each time (section 3, TimerRecord). *)
Definition issue (mk : timer_id → job) : M timer_id :=
  λ w, let id := nextTimer w in
       (Ok id,
        with_nextTimer (S id) (with_pending (λ l, l ++ [(id, mk id)]) w)).

(** Modelled from the spec: [later(fn, wait)], the [scheduleAfterDelay]
    of section 1.  [fn] is an arrow function that mentions the
    variable receiving the result of this very call, hence a function of
    the identifier. *)
Definition later (mk : timer_id → callback) (wait : value) : M timer_id :=
  issue (λ id, Later (mk id) wait).

(** Modelled from the spec: the queue names the run loop takes (the type
    [EmberRunQueues] of the queue names is not among the sources).  The
    specification lists no queue; of a queue name it asks, beyond what
    [scheduleTask] asserts, that it "must be a non-empty name (fails with
    [InvalidQueueError])" (section 4.2).  [scheduleTask] has no such
    check, so the refusal of the empty name is the run loop's. *)
Definition run_loop_takes (queueName : string) : bool :=
  negb (queueName =? "")%string.

(** Modelled from the spec: [schedule(queueName, target, method,
    ...args)], the [scheduleInQueue] of section 1.  It throws on a queue
    name it does not take, and takes the entry otherwise. *)
Definition schedule (queueName : string) (target : obj_id)
    (mk : timer_id → callback) (args : list value) : M timer_id :=
  if run_loop_takes queueName
  then issue (λ id, Scheduled queueName target (mk id) args)
  else throw InvalidQueueError.

(** Modelled from the spec: [cancel(timer)] forgets the entry; there is
    nothing to do when there is none (sections 4.4 and 7). *)
Definition cancel (id : timer_id) : M unit :=
  modify (with_pending (filter (λ e, e.1 ≠ id))).

Fixpoint find_throttled (target : obj_id) (method : fn_id)
    (l : list (timer_id * job)) : option timer_id :=
  match l with
  | [] => None
  | (id, Throttled target' method' _) :: l' =>
      if decide (target' = target ∧ method' = method) then Some id
      else find_throttled target method l'
  | _ :: l' => find_throttled target method l'
  end.

(** Modelled from the spec: [throttle(target, methodName, ...args, wait)],
    leading edge (section 4.3).  The
    method named on the target runs at once with the arguments of the call
    and an entry keeps the window open; while that entry is there, a call
    for the same target and method does nothing and returns the
    identifier of the entry. *)
Definition throttle (target : obj_id) (methodName : string)
    (args : list value) : M timer_id :=
  method <- gets (get_prop target methodName);;
  match method with
  | VFunction f =>
      let wait := default VUndefined (last args) in
      existing <- gets (λ w, find_throttled target f (pending w));;
      match existing with
      | Some id => ret id
      | None =>
          id <- issue (λ _, Throttled target f wait);;
          call_user f target (removelast args);;
          ret id
      end
  | _ => throw TypeError
  end.

Definition same_debounce (target : obj_id) (method : callback)
    (e : timer_id * job) : Prop :=
  match e.2 with
  | Debounced target' method' _ _ => target' = target ∧ method' = method
  | _ => False
  end.

Global Instance same_debounce_dec target method e :
  Decision (same_debounce target method e).
Proof. unfold same_debounce. destruct (e.2); apply _. Defined.

(** Modelled from the spec: [debounce(target, method, ...args, wait)],
    trailing edge (section 4.3).  The entry for the same target and method,
    if there is one, is replaced by a new entry that carries the arguments
    of this call and a new identifier ("cancelId is new, even if the
    debounced function was already present", says [debounceTask]). *)
Definition debounce (target : obj_id) (method : callback)
    (args : list value) : M timer_id :=
  let wait := default VUndefined (last args) in
  modify (with_pending (filter (λ e, ¬ same_debounce target method e)));;
  issue (λ _, Debounced target method (removelast args) wait).

(** ** [addon/utils] *)

(** Modelled from the spec: [utils/get-task] is not among the sources.
    Section 4.2: a task given as a name "must be a callable property of
    [owner], else fails with [InvalidTaskError]"; a task given as a
    callable is itself. *)
Definition getTask (obj : obj_id) (taskOrName : value) : M fn_id :=
  match taskOrName with
  | VFunction f => ret f
  | VString name =>
      task <- gets (get_prop obj name);;
      match task with
      | VFunction f => ret f
      | _ => throw InvalidTaskError
      end
  | _ => throw InvalidTaskError
  end.

(** Modelled from the spec: [utils/disposable] is not among the sources.
    Sections 4.1 and 6: [registerDisposable(obj, dispose)] records a
    cleanup callback for the owner. *)
Definition registerDisposable (obj : obj_id) (dispose : disposable)
    : M unit :=
  modify (with_disposables (λ m,
    <[obj := default [] (m !! obj) ++ [dispose]]> m)).

(** ** [addon/run-task.ts] *)

Definition getTimersDisposable (obj : obj_id) : disposable :=
  TimersDisposable obj.

(** [getTimers(obj)]: the set of the owner, created on first use together
    with its disposable.  The set is reached through the owner afterwards,
    so nothing is returned.  ([_setRegisteredTimers], by which a test swaps
    the whole weak map for a [Map] it can inspect, is left out: the model
    has one map of timers, and it can be inspected.) *)
Definition getTimers (obj : obj_id) : M unit :=
  timers <- gets (λ w, registeredTimers w !! obj);;
  match timers with
  | Some _ => ret tt
  | None =>
      modify (with_timers <[obj := []]>);;
      registerDisposable obj (getTimersDisposable obj)
  end.

Definition timers_add (obj : obj_id) (id : timer_id) : M unit :=
  modify (with_timers (alter (JSSet.add id) obj)).

Definition timers_delete (obj : obj_id) (id : timer_id) : M unit :=
  modify (with_timers (alter (JSSet.delete id) obj)).

Definition timers_clear (obj : obj_id) : M unit :=
  modify (with_timers (alter JSSet.clear obj)).

(** [timeout: number = 0] *)
Definition default_timeout (timeout : value) : value :=
  match timeout with
  | VUndefined => int 0
  | _ => timeout
  end.

Definition runTask (obj : obj_id) (taskOrName : value) (timeout : value)
    : M timer_id :=
  isDestroyed <- gets (destroyed obj);;
  assert DestroyedOwnerError (negb isDestroyed);;
  task <- getTask obj taskOrName;;
  getTimers obj;;
  cancelId <- later (λ cancelId, RunTaskCallback obj cancelId task)
                (default_timeout timeout);;
  timers_add obj cancelId;;
  ret cancelId.

Definition scheduleTask (obj : obj_id) (queueName : value)
    (taskOrName : value) (args : list value) : M timer_id :=
  match queueName with
  | VString queueName =>
      assert ReservedQueueError (negb (queueName =? "afterRender")%string);;
      isDestroyed <- gets (destroyed obj);;
      assert DestroyedOwnerError (negb isDestroyed);;
      task <- getTask obj taskOrName;;
      getTimers obj;;
      cancelId <- schedule queueName obj
                    (λ cancelId, TaskWrapper obj cancelId task) args;;
      timers_add obj cancelId;;
      ret cancelId
  | _ => throw InvalidQueueError
  end.

Definition throttleTask (obj : obj_id) (taskName : value)
    (throttleArgs : list value) : M timer_id :=
  match taskName with
  | VString taskName =>
      method <- gets (get_prop obj taskName);;
      assert InvalidTaskError (typeof method =? "function")%string;;
      isDestroyed <- gets (destroyed obj);;
      assert DestroyedOwnerError (negb isDestroyed);;
      let timeout := default VUndefined (last throttleArgs) in
      assert InvalidDelayError (isInteger timeout);;
      getTimers obj;;
      cancelId <- throttle obj taskName throttleArgs;;
      timers_add obj cancelId;;
      ret cancelId
  | _ => throw InvalidTaskError
  end.

(** The two overloads of [cancelTask]. *)
Inductive cancelTask_arguments :=
| Legacy (cancelId : timer_id)
| For (obj : obj_id) (cancelId : timer_id).

(** In the one-argument form, [deprecate] is called with [true] for its
    test and so reports nothing. *)
Definition cancelTask (arguments : cancelTask_arguments) : M unit :=
  match arguments with
  | Legacy cancelId => cancel cancelId
  | For obj cancelId =>
      getTimers obj;;
      timers_delete obj cancelId;;
      cancel cancelId
  end.

(** ** [addon/run-task.ts], the debounce module *)

Definition getDebouncesDisposable (obj : obj_id) : disposable :=
  DebouncesDisposable obj.

Definition new_closure (mk : nat → callback) : M callback :=
  λ w, (Ok (mk (nextClosure w)), with_nextClosure (S (nextClosure w)) w).

Definition debounceTask (obj : obj_id) (name : value)
    (debounceArgs : list value) : M unit :=
  match name with
  | VString name =>
      method <- gets (get_prop obj name);;
      assert InvalidTaskError (typeof method =? "function")%string;;
      isDestroyed <- gets (destroyed obj);;
      assert DestroyedOwnerError (negb isDestroyed);;
      let wait := default VUndefined (last debounceArgs) in
      assert InvalidDelayError (isInteger wait);;
      pendingDebounces <- gets (λ w, registeredDebounces w !! obj);;
      match pendingDebounces with
      | Some _ => ret tt
      | None =>
          modify (with_debounces <[obj := []]>);;
          registerDisposable obj (getDebouncesDisposable obj)
      end;;
      pendingDebounces <- gets (debounces obj);;
      debouncedTask <-
        match JSMap.get name pendingDebounces with
        | None => new_closure (λ cid, DebouncedTask cid obj name)
        | Some p => ret (debouncedTask p)
        end;;
      cancelId <- debounce obj debouncedTask debounceArgs;;
      modify (with_debounces (alter
        (JSMap.set name {| debouncedTask := debouncedTask;
                           cancelId := cancelId |}) obj))
  | _ => throw InvalidTaskError
  end.

Definition cancelDebounce (obj : obj_id) (name : string) : M unit :=
  pendingDebounces <- gets (λ w, registeredDebounces w !! obj);;
  match pendingDebounces with
  | None => ret tt
  | Some pendingDebounces =>
      match JSMap.get name pendingDebounces with
      | None => ret tt
      | Some p =>
          modify (with_debounces (alter (JSMap.delete name) obj));;
          cancel (cancelId p)
      end
  end.

(** ** Running the closures *)

(** The bodies of the two disposables.  [Set.prototype.forEach] walks the
    live set; each callback removes the element being visited and no
    other, so the walk visits the elements the set had at the start. *)
Definition dispose (d : disposable) : M unit :=
  match d with
  | TimersDisposable obj =>
      timers <- gets (tracked obj);;
      forEach timers (λ cancelId, cancelTask (For obj cancelId));;
      timers_clear obj
  | DebouncesDisposable obj =>
      debounces <- gets (debounces obj);;
      if JSMap.size debounces =? 0 then ret tt
      else forEach debounces (λ p, cancel (cancelId p.2))
  end.

(** Modelled from the spec: [runDisposables(obj)] of [utils/disposable],
    the destruction hook of section 6: runs the callbacks recorded for the
    owner, once. *)
Definition runDisposables (obj : obj_id) : M unit :=
  disposables <- gets (λ w, registeredDisposables w !! obj);;
  match disposables with
  | None => ret tt
  | Some disposables =>
      modify (with_disposables (delete obj));;
      forEach disposables dispose
  end.

(** The three arrow functions.  None of them uses the [this] it is called
    with. *)
Definition invoke (cb : callback) (args : list value) : M unit :=
  match cb with
  | RunTaskCallback obj cancelId task =>
      timers_delete obj cancelId;;
      call_user task obj []
  | TaskWrapper obj cancelId task =>
      timers_delete obj cancelId;;
      call_user task obj args
  | DebouncedTask _ obj name =>
      modify (with_debounces (alter (JSMap.delete name) obj));;
      method <- gets (get_prop obj name);;
      match method with
      | VFunction f => call_user f obj args
      | _ => throw TypeError
      end
  end.

Fixpoint find_timer (id : timer_id) (l : list (timer_id * job))
    : option job :=
  match l with
  | [] => None
  | (id', j) :: l' => if decide (id' = id) then Some j else find_timer id l'
  end.

(** The run loop reaches an entry: the entry leaves the run loop and its
    method runs.  The window of a throttle closes without a call. *)
Definition fire (id : timer_id) : M unit :=
  entry <- gets (λ w, find_timer id (pending w));;
  match entry with
  | None => ret tt
  | Some j =>
      cancel id;;
      match j with
      | Later method _ => invoke method []
      | Scheduled _ _ method args => invoke method args
      | Throttled _ _ _ => ret tt
      | Debounced _ method args _ => invoke method args
      end
  end.

(** ** What the host and the run loop can do to a world *)

Definition set_prop (obj : obj_id) (name : string) (v : value) : M unit :=
  modify (with_heap (λ h,
    <[obj := {| isDestroyed := isDestroyed (h !!! obj);
                props := <[name := v]> (props (h !!! obj)) |}]> h)).

Definition mark_destroyed (obj : obj_id) : M unit :=
  modify (with_heap (λ h,
    <[obj := {| isDestroyed := true; props := props (h !!! obj) |}]> h)).

Inductive action :=
| RunTask (obj : obj_id) (taskOrName timeout : value)
| ScheduleTask (obj : obj_id) (queueName taskOrName : value)
    (args : list value)
| ThrottleTask (obj : obj_id) (taskName : value) (throttleArgs : list value)
| DebounceTask (obj : obj_id) (name : value) (debounceArgs : list value)
| CancelTask (arguments : cancelTask_arguments)
| CancelDebounce (obj : obj_id) (name : string)
| RunDisposables (obj : obj_id)
| Fire (id : timer_id)
| SetProp (obj : obj_id) (name : string) (v : value)
| Destroy (obj : obj_id).

(** The world an action leaves, whether it returned or threw. *)
Definition exec (a : action) (w : World) : World :=
  match a with
  | RunTask obj taskOrName timeout => run (runTask obj taskOrName timeout) w
  | ScheduleTask obj queueName taskOrName args =>
      run (scheduleTask obj queueName taskOrName args) w
  | ThrottleTask obj taskName throttleArgs =>
      run (throttleTask obj taskName throttleArgs) w
  | DebounceTask obj name debounceArgs =>
      run (debounceTask obj name debounceArgs) w
  | CancelTask arguments => run (cancelTask arguments) w
  | CancelDebounce obj name => run (cancelDebounce obj name) w
  | RunDisposables obj => run (runDisposables obj) w
  | Fire id => run (fire id) w
  | SetProp obj name v => run (set_prop obj name v) w
  | Destroy obj => run (mark_destroyed obj) w
  end.

Definition exec_all (l : list action) (w : World) : World :=
  foldl (λ w a, exec a w) w l.

(** ** Well-formed worlds *)

(** An entry of the run loop made by the addon: the closure it holds
    names the identifier of the entry itself. *)
Definition job_ok (id : timer_id) (j : job) : Prop :=
  match j with
  | Later (RunTaskCallback _ c _) _ => c = id
  | Scheduled _ target (TaskWrapper obj c _) _ => c = id ∧ target = obj
  | Throttled _ _ _ => True
  | Debounced target (DebouncedTask _ obj _) _ _ => target = obj
  | _ => False
  end.

(** A pending debounce of the run loop is the one the debounce map of its
    owner records under its name. *)
Definition debounce_recorded (w : World) (id : timer_id) (j : job) : Prop :=
  match j with
  | Debounced _ (DebouncedTask cid obj name) _ _ =>
      JSMap.get name (debounces obj w) =
        Some {| debouncedTask := DebouncedTask cid obj name; cancelId := id |}
  | _ => True
  end.

Record wf (w : World) : Prop := {
  wf_fresh : Forall (λ e, e.1 < nextTimer w) (pending w);
  wf_nodup : NoDup (pending w).*1;
  wf_jobs : Forall (λ e, job_ok e.1 e.2) (pending w);
  wf_recorded : Forall (λ e, debounce_recorded w e.1 e.2) (pending w);
  wf_disposables : ∀ obj ds,
    registeredDisposables w !! obj = Some ds →
    Forall (λ d, disposable_owner d = obj) ds;
  wf_sets : ∀ obj s, registeredTimers w !! obj = Some s → NoDup s;
  wf_maps : ∀ obj m, registeredDebounces w !! obj = Some m → NoDup m.*1;
  wf_closures : ∀ obj m,
    registeredDebounces w !! obj = Some m →
    Forall (λ kv, ∃ cid, debouncedTask kv.2 = DebouncedTask cid obj kv.1) m;
}.

(** ** Vocabulary of the statements *)

(** A computation keeps an invariant, whether it returns or throws. *)
Definition preserves {A} (I : World → Prop) (m : M A) : Prop :=
  ∀ w, I w → I (run m w).

(** Always returns, never throws. *)
Definition total {A} (m : M A) : Prop := ∀ w, ∃ a, (m w).1 = Ok a.

(** The closure [debounceTask] hands to the run loop: the one of the
    pending entry, or a new one. *)
Definition debounce_closure (obj : obj_id) (name : string) (w : World)
    : callback :=
  match JSMap.get name (debounces obj w) with
  | Some p => debouncedTask p
  | None => DebouncedTask (nextClosure w) obj name
  end.

(** The world after the first lines of [debounceTask], which create the
    debounce map of the owner when it has none. *)
Definition ensure_debounces (obj : obj_id) (w : World) : World :=
  match registeredDebounces w !! obj with
  | Some _ => w
  | None =>
      run (registerDisposable obj (getDebouncesDisposable obj))
        (with_debounces <[obj := []]> w)
  end.

(** The world a call of [debounceTask] that passes its assertions leaves. *)
Definition debounced (obj : obj_id) (name : string) (args : list value)
    (w : World) : World :=
  let c := debounce_closure obj name w in
  let id := nextTimer w in
  let w1 := ensure_debounces obj w in
  let w2 := match JSMap.get name (debounces obj w) with
            | Some _ => w1
            | None => with_nextClosure (S (nextClosure w)) w1
            end in
  with_debounces
    (alter (JSMap.set name {| debouncedTask := c; cancelId := id |}) obj)
    (with_nextTimer (S id)
       (with_pending
          (λ l, filter (λ e, ¬ same_debounce obj c e) l ++
                [(id, Debounced obj c (removelast args)
                        (default VUndefined (last args)))]) w2)).

(** The checks the four entry points make, read off their assertions and
    [getTask]: a task that resolves, a queue name that is a string and not
    [afterRender], a trailing wait that is an integer, an owner that is not
    destroyed.  They are the checks of the code: a negative integer passes
    [Number.isInteger], and [runTask] checks no delay at all. *)
Definition is_function (v : value) : bool :=
  match v with VFunction _ => true | _ => false end.

Definition task_resolves (obj : obj_id) (taskOrName : value) (w : World)
    : bool :=
  match taskOrName with
  | VFunction _ => true
  | VString name => is_function (get_prop obj name w)
  | _ => false
  end.

Definition names_method (obj : obj_id) (name : value) (w : World) : bool :=
  match name with
  | VString name => is_function (get_prop obj name w)
  | _ => false
  end.

Definition queue_accepted (queueName : value) : bool :=
  match queueName with
  | VString q => negb (q =? "afterRender")%string
  | _ => false
  end.

Definition wait_of (args : list value) : value :=
  default VUndefined (last args).

Definition passes_runTask (obj : obj_id) (taskOrName : value) (w : World)
    : bool :=
  negb (destroyed obj w) && task_resolves obj taskOrName w.

Definition passes_scheduleTask (obj : obj_id) (queueName taskOrName : value)
    (w : World) : bool :=
  queue_accepted queueName && negb (destroyed obj w) &&
  task_resolves obj taskOrName w.

Definition passes_named (obj : obj_id) (name : value) (args : list value)
    (w : World) : bool :=
  names_method obj name w && negb (destroyed obj w) &&
  isInteger (wait_of args).

(** The world after [getTimers(obj)], an entry [j] taken by the run loop
    and [timers.add] of its identifier: what [runTask] and [scheduleTask]
    leave when they return. *)
Definition track (obj : obj_id) (j : job) (w : World) : World :=
  run (timers_add obj (nextTimer w))
    (run (issue (λ _, j)) (run (getTimers obj) w)).

(** An invariant of the run loop alone: a property of the next identifier
    and of the pending entries. *)
Definition on_run_loop (R : timer_id → list (timer_id * job) → Prop)
    (w : World) : Prop :=
  R (nextTimer w) (pending w).

(** Since the moment the next identifier was [n0] and the entries [l0],
    entries have only left the run loop or come with an identifier from
    [n0] on. *)
Definition grown_from (n0 : timer_id) (l0 : list (timer_id * job))
    (n : timer_id) (l : list (timer_id * job)) : Prop :=
  n0 ≤ n ∧ ∀ e, e ∈ l → e ∈ l0 ∨ n0 ≤ e.1.

(** The entries [runTask] and [scheduleTask] make for [task] on [obj]. *)
Definition self_cleaning (obj : obj_id) (task : fn_id) (args : list value)
    (id : timer_id) (j : job) : Prop :=
  (∃ wait, j = Later (RunTaskCallback obj id task) wait ∧ args = []) ∨
  (∃ q, j = Scheduled q obj (TaskWrapper obj id task) args).

(** The record of the call a self-cleaning entry makes when it fires in
    [w]. *)
Definition cleaned_call (obj : obj_id) (task : fn_id) (args : list value)
    (id : timer_id) (w : World) : invocation :=
  {| callee := task; this := obj; arguments := args;
     timers_seen := alter (JSSet.delete id) obj (registeredTimers w);
     debounces_seen := registeredDebounces w |}.

(** Reassignments of properties by the host. *)
Definition reassign (changes : list (obj_id * string * value))
    : list action :=
  map (λ c, SetProp c.1.1 c.1.2 c.2) changes.

(** Entry [id] fires in [w] the way section 4.2 tells: it returns, leaves
    the run loop, and calls [task] on [obj] with [args] exactly once, at a
    moment when [id] is already out of the set tracked for [obj]. *)
Definition fires_cleanly (obj : obj_id) (task : fn_id) (args : list value)
    (id : timer_id) (w : World) : Prop :=
  fire id w = (Ok tt, run (fire id) w) ∧
  (id ∉ tracked obj (run (fire id) w)) ∧
  (id ∉ (pending (run (fire id) w)).*1) ∧
  ∃ inv, calls (run (fire id) w) = calls w ++ [inv] ∧
         callee inv = task ∧ this inv = obj ∧ arguments inv = args ∧
         (id ∉ default [] (timers_seen inv !! obj)).

(** The identifier a call of [cancelTask] is about. *)
Definition cancelled_id (arguments : cancelTask_arguments) : timer_id :=
  match arguments with
  | Legacy cancelId => cancelId
  | For _ cancelId => cancelId
  end.

(** [id] is in the set tracked for [obj]. *)
Definition is_tracked (obj : obj_id) (id : timer_id) (w : World) : Prop :=
  id ∈ tracked obj w.

(** [id] is tracked for [obj], was issued, and stands for no entry of the
    run loop but the window of a throttle: what holds of the identifier
    [throttleTask] returns. *)
Definition throttle_tracked (obj : obj_id) (id : timer_id) (w : World)
    : Prop :=
  is_tracked obj id w ∧ id < nextTimer w ∧
  ∀ j, (id, j) ∈ pending w →
       ∃ target method wait, j = Throttled target method wait.

(** An entry of the run loop that stands for the debounce of [name] on
    [obj]. *)
Definition debounce_of (obj : obj_id) (name : string) (e : timer_id * job)
    : Prop :=
  match e.2 with
  | Debounced _ (DebouncedTask _ obj' name') _ _ => obj' = obj ∧ name' = name
  | _ => False
  end.

Global Instance debounce_of_dec obj name e : Decision (debounce_of obj name e).
Proof.
  unfold debounce_of. destruct (e.2) as [| | |? [] ? ?]; apply _.
Defined.

(** A burst: [debounceTask(obj, name, ...args)] once for each list of
    arguments, back to back. *)
Definition burst (obj : obj_id) (name : string) (argss : list (list value))
    : list action :=
  map (DebounceTask obj (VString name)) argss.

(** What the debounce map of the owner holds under [name] after each call
    of a burst. *)
Fixpoint burst_entries (obj : obj_id) (name : string)
    (argss : list (list value)) (w : World) : list (option PendingDebounce) :=
  match argss with
  | [] => []
  | args :: argss' =>
      let w' := exec (DebounceTask obj (VString name) args) w in
      JSMap.get name (debounces obj w') :: burst_entries obj name argss' w'
  end.

(** Every identifier a timer set or a debounce map holds was issued by
    the run loop. *)
Definition issued (w : World) : Prop :=
  (∀ obj s, registeredTimers w !! obj = Some s →
            Forall (λ id, id < nextTimer w) s) ∧
  (∀ obj m, registeredDebounces w !! obj = Some m →
            Forall (λ kv, cancelId kv.2 < nextTimer w) m).

(** [runTask] or [scheduleTask] returned [id] and left [w1]. *)
Definition scheduled (obj : obj_id) (id : timer_id) (w w1 : World) : Prop :=
  (∃ taskOrName timeout, runTask obj taskOrName timeout w = (Ok id, w1)) ∨
  (∃ queueName taskOrName args,
     scheduleTask obj queueName taskOrName args w = (Ok id, w1)).

(** An action that is neither [cancelTask(obj, id)] nor the run of the
    disposables of [obj]. *)
Definition spares (obj : obj_id) (id : timer_id) (a : action) : Prop :=
  a ≠ CancelTask (For obj id) ∧ a ≠ RunDisposables obj.

(** The actions that call a user function: [throttleTask], on the
    leading edge, and the firing of a timer. *)
Definition may_call (a : action) : bool :=
  match a with
  | ThrottleTask _ _ _ | Fire _ => true
  | _ => false
  end.

(** The disposables recorded for an owner. *)
Definition disposables (obj : obj_id) (w : World) : list disposable :=
  default [] (registeredDisposables w !! obj).

(** An owner is armed when each of its two collections that exists has
    its disposable recorded. *)
Definition armed (obj : obj_id) (w : World) : Prop :=
  (is_Some (registeredTimers w !! obj) →
   TimersDisposable obj ∈ disposables obj w) ∧
  (is_Some (registeredDebounces w !! obj) →
   DebouncesDisposable obj ∈ disposables obj w).

(** The owner whose set an entry of the run loop cleans when it fires:
    the closures of [runTask] and [scheduleTask] delete their identifier
    from the set of their owner, the others touch no set. *)
Definition cleans (j : job) : option obj_id :=
  match j with
  | Later (RunTaskCallback obj _ _) _ => Some obj
  | Scheduled _ _ (TaskWrapper obj _ _) _ => Some obj
  | _ => None
  end.

(** A tidy world: every identifier of a timer set stands for a pending
    entry that will clean that very set, and no timer of a debounce map is
    such an entry. *)
Definition tidy (w : World) : Prop :=
  (∀ obj id, id ∈ tracked obj w →
             ∃ j, (id, j) ∈ pending w ∧ cleans j = Some obj) ∧
  (∀ obj m, registeredDebounces w !! obj = Some m →
            Forall (λ kv, ∀ j, (cancelId kv.2, j) ∈ pending w →
                               cleans j = None) m).

(** The uses of the addon that keep a world tidy: no [throttleTask], and
    [cancelTask] only for an identifier its owner holds or one that is not
    pending. *)
Definition careful (a : action) (w : World) : bool :=
  match a with
  | ThrottleTask _ _ _ => false
  | CancelTask (Legacy id) => bool_decide (id ∉ (pending w).*1)
  | CancelTask (For obj id) =>
      JSSet.has id (tracked obj w) || bool_decide (id ∉ (pending w).*1)
  | _ => true
  end.

Fixpoint careful_all (acts : list action) (w : World) : bool :=
  match acts with
  | [] => true
  | a :: acts => careful a w && careful_all acts (exec a w)
  end.

(** The owner a call is made for, when it names one; the one-argument
    [cancelTask] and the firing of a timer name none. *)
Definition acts_on (a : action) : option obj_id :=
  match a with
  | RunTask obj _ _ | ScheduleTask obj _ _ _ | ThrottleTask obj _ _
  | DebounceTask obj _ _ | CancelTask (For obj _) | CancelDebounce obj _
  | RunDisposables obj | SetProp obj _ _ | Destroy obj => Some obj
  | CancelTask (Legacy _) | Fire _ => None
  end.

(** What the addon and the host keep for an owner. *)
Definition kept_for (obj : obj_id) (w : World)
    : option JSSet.t * option (JSMap.t PendingDebounce) *
      option (list disposable) * option object :=
  (registeredTimers w !! obj, registeredDebounces w !! obj,
   registeredDisposables w !! obj, heap w !! obj).

(** Each disposable is recorded at most once, and only for a collection
    that exists. *)
Definition registered_once (w : World) : Prop :=
  ∀ obj,
    NoDup (disposables obj w) ∧
    (TimersDisposable obj ∈ disposables obj w →
     is_Some (registeredTimers w !! obj)) ∧
    (DebouncesDisposable obj ∈ disposables obj w →
     is_Some (registeredDebounces w !! obj)).

(** Between [w] and [w'] no timer was registered: the run loop, the
    contents of every timer set and the debounce maps are what they were,
    and no user function was called. *)
Definition nothing_registered (w w' : World) : Prop :=
  pending w' = pending w ∧ nextTimer w' = nextTimer w ∧
  registeredDebounces w' = registeredDebounces w ∧
  (∀ obj, tracked obj w' = tracked obj w) ∧
  calls w' = calls w ∧ heap w' = heap w.

(** ** Sample worlds *)

(** One owner, object 0, with two methods. *)
Definition sample : World :=
  with_heap <[0 := {| isDestroyed := false;
                      props := {[ "doStuff" := VFunction 7;
                                  "other" := VFunction 8 ]} |}]> init.

(** The same owner after its destruction. *)
Definition sample_destroyed : World := run (mark_destroyed 0) sample.

(** * Properties *)

(** ** The collections *)

Module JSSetFacts.
Import JSSet.

Lemma elem_of_add x y s : y ∈ add x s ↔ y = x ∨ y ∈ s.
Proof.
  unfold add, has. case_bool_decide.
  - split; [auto | intros [->|]; auto].
  - rewrite elem_of_app, list_elem_of_singleton. tauto.
Qed.

Lemma elem_of_delete x y s : y ∈ delete x s ↔ y ≠ x ∧ y ∈ s.
Proof. unfold delete. by rewrite list_elem_of_filter. Qed.

Lemma NoDup_add x s : NoDup s → NoDup (add x s).
Proof.
  unfold add, has. intros Hs. case_bool_decide; [done|].
  apply NoDup_app. split_and!; [done| |apply NoDup_singleton].
  intros y Hy ->%list_elem_of_singleton. done.
Qed.

Lemma NoDup_delete x s : NoDup s → NoDup (delete x s).
Proof. apply NoDup_filter. Qed.

Lemma delete_not_elem x s : x ∉ s → delete x s = s.
Proof.
  unfold delete. induction s as [|y s IH]; [done|].
  intros Hx. apply not_elem_of_cons in Hx as [Hne Hx].
  rewrite filter_cons_True by congruence. by rewrite IH.
Qed.

End JSSetFacts.

Module JSMapFacts.
Import JSMap.
Section facts.
Context {V : Type}.
Implicit Types (m : JSMap.t V) (k : string) (v : V).

Lemma get_set_eq k v m : get k (set k v m) = Some v.
Proof.
  induction m as [|[k' v'] m IH]; simpl.
  - by rewrite decide_True.
  - destruct (decide (k' = k)); simpl.
    + by rewrite decide_True.
    + by rewrite decide_False.
Qed.

Lemma get_set_ne k k' v m : k ≠ k' → get k' (set k v m) = get k' m.
Proof.
  intros Hne. induction m as [|[k0 v0] m IH]; simpl.
  - by rewrite decide_False.
  - destruct (decide (k0 = k)) as [->|]; simpl.
    + by rewrite !decide_False.
    + destruct (decide (k0 = k')); done.
Qed.

Lemma get_delete_eq k m : get k (delete k m) = None.
Proof.
  unfold delete. induction m as [|[k' v'] m IH]; [done|].
  destruct (decide (k' = k)) as [->|].
  - by rewrite filter_cons_False by (simpl; auto).
  - rewrite filter_cons_True by done. simpl. by rewrite decide_False.
Qed.

Lemma get_delete_ne k k' m : k ≠ k' → get k' (delete k m) = get k' m.
Proof.
  intros Hne. unfold delete. induction m as [|[k0 v0] m IH]; [done|].
  destruct (decide (k0 = k)) as [->|].
  - rewrite filter_cons_False by (simpl; auto). simpl.
    by rewrite decide_False.
  - rewrite filter_cons_True by done. simpl. by rewrite IH.
Qed.

Lemma get_Some_elem k v m : get k m = Some v → (k, v) ∈ m.
Proof.
  induction m as [|[k' v'] m IH]; simpl; [done|].
  destruct (decide (k' = k)) as [->|].
  - intros [= ->]. left.
  - intros. right. auto.
Qed.

Lemma keys_set k v m : k ∈ m.*1 → (set k v m).*1 = m.*1.
Proof.
  induction m as [|[k' v'] m IH]; csimpl.
  - by intros ?%elem_of_nil.
  - destruct (decide (k' = k)) as [->|]; csimpl; [done|].
    intros [?|?]%elem_of_cons; [congruence|]. by rewrite IH.
Qed.

Lemma keys_set_fresh k v m : k ∉ m.*1 → (set k v m).*1 = m.*1 ++ [k].
Proof.
  induction m as [|[k' v'] m IH]; csimpl; [done|].
  intros [? ?]%not_elem_of_cons.
  rewrite decide_False by done. csimpl. by rewrite IH.
Qed.

Lemma NoDup_keys_set k v m : NoDup m.*1 → NoDup (set k v m).*1.
Proof.
  intros Hm. destruct (decide (k ∈ m.*1)).
  - by rewrite keys_set.
  - rewrite keys_set_fresh by done. apply NoDup_app. split_and!; [done| |].
    + by intros x Hx ->%list_elem_of_singleton.
    + apply NoDup_singleton.
Qed.

Lemma NoDup_keys_delete k m : NoDup m.*1 → NoDup (delete k m).*1.
Proof.
  unfold delete. induction m as [|[k' v'] m IH]; [done|].
  csimpl. intros [Hk Hm]%NoDup_cons.
  destruct (decide (k' = k)) as [->|].
  - rewrite filter_cons_False by (simpl; auto). auto.
  - rewrite filter_cons_True by done. csimpl. apply NoDup_cons. split; [|auto].
    intros (kv & Hkv & Hin)%list_elem_of_fmap.
    apply list_elem_of_filter in Hin as [_ Hin].
    apply Hk, list_elem_of_fmap. eauto.
Qed.

Lemma Forall_set (P : string * V → Prop) k v m :
  Forall P m → P (k, v) → Forall P (set k v m).
Proof.
  intros Hm Hv. induction Hm as [|[k' v'] m' Hkv Hm IH]; simpl.
  - by repeat constructor.
  - destruct (decide (k' = k)); by constructor.
Qed.

Lemma Forall_delete (P : string * V → Prop) k m :
  Forall P m → Forall P (delete k m).
Proof.
  rewrite !Forall_forall. intros HP e [_ He]%list_elem_of_filter. auto.
Qed.

End facts.
End JSMapFacts.

(** ** Entries of the run loop *)

Section timers.
Implicit Types (l : list (timer_id * job)) (id : timer_id) (j : job).

Lemma find_timer_Some id j l : find_timer id l = Some j → (id, j) ∈ l.
Proof.
  induction l as [|[id' j'] l IH]; simpl; [done|].
  destruct (decide (id' = id)) as [->|].
  - intros [= ->]. left.
  - intros. right. auto.
Qed.

Lemma find_timer_None id l : find_timer id l = None ↔ id ∉ l.*1.
Proof.
  induction l as [|[id' j'] l IH]; csimpl.
  - split; [intros _; apply not_elem_of_nil | done].
  - rewrite not_elem_of_cons. destruct (decide (id' = id)) as [->|].
    + split; [done | intros [[] _]; done].
    + rewrite IH. split; [by intros ?; split | by intros [_ ?]].
Qed.

Lemma find_timer_app_fresh id j l :
  id ∉ l.*1 → find_timer id (l ++ [(id, j)]) = Some j.
Proof.
  induction l as [|[id' j'] l IH]; csimpl.
  - intros _. by rewrite decide_True.
  - intros [? ?]%not_elem_of_cons. rewrite decide_False by done. auto.
Qed.

Lemma find_timer_elem id j l :
  NoDup l.*1 → (id, j) ∈ l → find_timer id l = Some j.
Proof.
  induction l as [|[id' j'] l IH]; csimpl; [by intros _ ?%elem_of_nil|].
  intros [Hid Hl]%NoDup_cons [Heq|Hin]%elem_of_cons.
  - injection Heq as -> ->. by rewrite decide_True.
  - rewrite decide_False; [auto|]. intros ->. apply Hid.
    apply list_elem_of_fmap. by exists (id, j).
Qed.

Lemma keys_filter_subseteq (P : timer_id * job → Prop)
    `{∀ e, Decision (P e)} id l :
  id ∈ (filter P l).*1 → id ∈ l.*1.
Proof.
  intros (e & -> & [_ He]%list_elem_of_filter)%list_elem_of_fmap.
  apply list_elem_of_fmap. eauto.
Qed.

Lemma NoDup_keys_filter (P : timer_id * job → Prop)
    `{∀ e, Decision (P e)} l :
  NoDup l.*1 → NoDup (filter P l).*1.
Proof.
  induction l as [|e l IH]; [done|]. csimpl. intros [He Hl]%NoDup_cons.
  destruct (decide (P e)).
  - rewrite filter_cons_True by done. csimpl. apply NoDup_cons.
    split; [|auto]. intros Hin. by apply keys_filter_subseteq in Hin.
  - rewrite filter_cons_False by done. auto.
Qed.

Lemma Forall_filter_weaken (Q P : timer_id * job → Prop)
    `{∀ e, Decision (P e)} l :
  Forall Q l → Forall Q (filter P l).
Proof.
  rewrite !Forall_forall. intros HQ e [_ He]%list_elem_of_filter. auto.
Qed.

Lemma cancelled_not_pending id l : id ∉ (filter (λ e, e.1 ≠ id) l).*1.
Proof.
  intros (e & -> & [He _]%list_elem_of_filter)%list_elem_of_fmap. done.
Qed.

Lemma filter_not_pending id l : id ∉ l.*1 → filter (λ e, e.1 ≠ id) l = l.
Proof.
  induction l as [|e l IH]; [done|]. csimpl. intros [? ?]%not_elem_of_cons.
  rewrite filter_cons_True by done. by rewrite IH.
Qed.

End timers.

(** ** Reasoning about computations *)

Section preserves.
Context (I : World → Prop).

Lemma preserves_ret {A} (a : A) : preserves I (ret a).
Proof. by intros w. Qed.

Lemma preserves_throw {A} e : preserves I (@throw A e).
Proof. by intros w. Qed.

Lemma preserves_gets {A} (f : World → A) : preserves I (gets f).
Proof. by intros w. Qed.

Lemma preserves_assert e b : preserves I (assert e b).
Proof. destruct b; [apply preserves_ret | apply preserves_throw]. Qed.

Lemma preserves_modify f : (∀ w, I w → I (f w)) → preserves I (modify f).
Proof. intros Hf w. apply Hf. Qed.

Lemma preserves_bind {A B} (m : M A) (f : A → M B) :
  preserves I m → (∀ a, preserves I (f a)) → preserves I (bind m f).
Proof.
  intros Hm Hf w Hw. specialize (Hm w Hw). unfold run, bind in *.
  destruct (m w) as [[a|e] w']; simpl in *; [by apply Hf | done].
Qed.

Lemma preserves_forEach {A} (l : list A) (f : A → M unit) :
  (∀ x, x ∈ l → preserves I (f x)) → preserves I (forEach l f).
Proof.
  induction l as [|x l IH]; intros Hf; simpl.
  - apply preserves_ret.
  - apply preserves_bind; [apply Hf; left|].
    intros _. apply IH. intros y Hy. apply Hf. by right.
Qed.

End preserves.

Lemma total_run {A} (m : M A) w : total m → ∃ a, m w = (Ok a, run m w).
Proof.
  intros Hm. destruct (Hm w) as [a Ha]. exists a. unfold run.
  by destruct (m w); simplify_eq/=.
Qed.

Lemma total_unit (m : M unit) w : total m → m w = (Ok tt, run m w).
Proof. intros [[] ?]%(total_run m w). done. Qed.

Lemma total_ret {A} (a : A) : total (ret a).
Proof. intros w. by exists a. Qed.

Lemma total_gets {A} (f : World → A) : total (gets f).
Proof. intros w. by eexists. Qed.

Lemma total_modify f : total (modify f).
Proof. intros w. by eexists. Qed.

Lemma total_bind {A B} (m : M A) (f : A → M B) :
  total m → (∀ a, total (f a)) → total (bind m f).
Proof.
  intros Hm Hf w. unfold bind. destruct (Hm w) as [a Ha].
  destruct (m w) as [[a'|e] w']; simplify_eq/=. apply Hf.
Qed.

Lemma total_forEach {A} (l : list A) (f : A → M unit) :
  (∀ x, total (f x)) → total (forEach l f).
Proof.
  intros Hf. induction l as [|x l IH]; simpl.
  - apply total_ret.
  - by apply total_bind.
Qed.

(** ** Well-formedness is kept *)

Lemma wf_init : wf init.
Proof.
  split; simpl; try done; try apply NoDup_nil_2;
    by intros ?? ?%lookup_empty_Some.
Qed.

Lemma wf_with_heap f w : wf w → wf (with_heap f w).
Proof. by intros []. Qed.

Lemma wf_with_calls f w : wf w → wf (with_calls f w).
Proof. by intros []. Qed.

Lemma wf_filter (P : timer_id * job → Prop) `{∀ e, Decision (P e)} w :
  wf w → wf (with_pending (filter P) w).
Proof.
  intros []. split; simpl; try done.
  - by apply Forall_filter_weaken.
  - by apply NoDup_keys_filter.
  - by apply Forall_filter_weaken.
  - by apply (Forall_filter_weaken (λ e, debounce_recorded w e.1 e.2)).
Qed.

Lemma wf_issue (mk : timer_id → job) w :
  job_ok (nextTimer w) (mk (nextTimer w)) →
  debounce_recorded w (nextTimer w) (mk (nextTimer w)) →
  wf w → wf (run (issue mk) w).
Proof.
  intros Hok Hrec [Hfresh Hnodup Hjobs Hrecorded Hdisp Hsets Hmaps Hclos].
  split; simpl; try done.
  - apply Forall_app. split.
    + eapply Forall_impl; [exact Hfresh|]. simpl. intros e He. lia.
    + repeat constructor.
  - rewrite fmap_app. apply NoDup_app. split_and!; [done| |apply NoDup_singleton].
    intros id Hid ->%list_elem_of_singleton.
    apply list_elem_of_fmap in Hid as (e & He & Hin).
    rewrite Forall_forall in Hfresh. apply Hfresh in Hin. simpl in *. lia.
  - apply Forall_app. split; [done|]. by repeat constructor.
  - apply Forall_app. split; [done|]. by repeat constructor.
Qed.

Lemma wf_with_timers f w :
  (∀ m, (∀ obj s, m !! obj = Some s → NoDup s) →
        ∀ obj s, f m !! obj = Some s → NoDup s) →
  wf w → wf (with_timers f w).
Proof. intros Hf []. split; simpl; try done. by apply Hf. Qed.

Lemma wf_alter_timers (g : JSSet.t → JSSet.t) obj w :
  (∀ s, NoDup s → NoDup (g s)) → wf w → wf (with_timers (alter g obj) w).
Proof.
  intros Hg. apply wf_with_timers. intros m Hm obj' s.
  rewrite lookup_alter. case_decide as Heq; [subst obj'|apply Hm].
  destruct (m !! obj) as [s'|] eqn:Hs'; [|done].
  intros [= <-]. eauto.
Qed.

Lemma wf_registerDisposable obj d :
  disposable_owner d = obj → preserves wf (registerDisposable obj d).
Proof.
  intros Hd w [Hfresh Hnodup Hjobs Hrecorded Hdisp Hsets Hmaps Hclos].
  split; simpl; try done.
  intros obj' ds. rewrite lookup_insert. case_decide as Heq; [subst obj'|by auto].
  intros [= <-]. apply Forall_app. split; [|by repeat constructor].
  destruct (registeredDisposables w !! obj) eqn:Hlook; simpl; [eauto|done].
Qed.

Lemma wf_getTimers obj : preserves wf (getTimers obj).
Proof.
  unfold getTimers. apply preserves_bind; [apply preserves_gets|].
  intros [s|]; [apply preserves_ret|].
  apply preserves_bind; [|intros _; by apply wf_registerDisposable].
  apply preserves_modify. intros w. apply wf_with_timers.
  intros m Hm obj' s. rewrite lookup_insert. case_decide; [|apply Hm].
  intros [= <-]. apply NoDup_nil_2.
Qed.

Lemma wf_timers_add obj id : preserves wf (timers_add obj id).
Proof. intros w. apply wf_alter_timers, JSSetFacts.NoDup_add. Qed.

Lemma wf_timers_delete obj id : preserves wf (timers_delete obj id).
Proof. intros w. apply wf_alter_timers, JSSetFacts.NoDup_delete. Qed.

Lemma wf_timers_clear obj : preserves wf (timers_clear obj).
Proof. intros w. apply wf_alter_timers. intros. apply NoDup_nil_2. Qed.

Lemma wf_cancel id : preserves wf (cancel id).
Proof. intros w. apply (wf_filter (λ e, e.1 ≠ id)). Qed.

Lemma wf_call_user f this args : preserves wf (call_user f this args).
Proof. intros w. apply wf_with_calls. Qed.

Lemma wf_later obj task wait :
  preserves wf (later (λ cancelId, RunTaskCallback obj cancelId task) wait).
Proof. intros w. by apply wf_issue. Qed.

Lemma wf_schedule queueName obj task args :
  preserves wf (schedule queueName obj
    (λ cancelId, TaskWrapper obj cancelId task) args).
Proof.
  unfold schedule. destruct (run_loop_takes queueName); [|apply preserves_throw].
  intros w. by apply wf_issue.
Qed.

Lemma wf_throttle target methodName args :
  preserves wf (throttle target methodName args).
Proof.
  unfold throttle. apply preserves_bind; [apply preserves_gets|].
  intros []; try apply preserves_throw.
  apply preserves_bind; [apply preserves_gets|].
  intros [id|]; [apply preserves_ret|].
  apply preserves_bind; [intros w; by apply wf_issue|]. intros id.
  apply preserves_bind; [apply wf_call_user|]. intros _. apply preserves_ret.
Qed.

Lemma wf_getTask obj taskOrName : preserves wf (getTask obj taskOrName).
Proof.
  destruct taskOrName; simpl; try apply preserves_throw; try apply preserves_ret.
  apply preserves_bind; [apply preserves_gets|].
  intros []; try apply preserves_throw; apply preserves_ret.
Qed.

Lemma wf_runTask obj taskOrName timeout :
  preserves wf (runTask obj taskOrName timeout).
Proof.
  unfold runTask.
  repeat (first
    [ apply preserves_gets | apply preserves_assert | apply preserves_ret
    | apply wf_getTask | apply wf_getTimers | apply wf_later
    | apply wf_timers_add | apply preserves_bind | intros ? ]).
Qed.

Lemma wf_scheduleTask obj queueName taskOrName args :
  preserves wf (scheduleTask obj queueName taskOrName args).
Proof.
  destruct queueName; simpl; try apply preserves_throw.
  repeat (first
    [ apply preserves_gets | apply preserves_assert | apply preserves_ret
    | apply wf_getTask | apply wf_getTimers | apply wf_schedule
    | apply wf_timers_add | apply preserves_bind | intros ? ]).
Qed.

Lemma wf_throttleTask obj taskName throttleArgs :
  preserves wf (throttleTask obj taskName throttleArgs).
Proof.
  destruct taskName; simpl; try apply preserves_throw.
  repeat (first
    [ apply preserves_gets | apply preserves_assert | apply preserves_ret
    | apply wf_getTimers | apply wf_throttle
    | apply wf_timers_add | apply preserves_bind | intros ? ]).
Qed.

Lemma wf_cancelTask arguments : preserves wf (cancelTask arguments).
Proof.
  destruct arguments; simpl; [apply wf_cancel|].
  repeat (first
    [ apply wf_getTimers | apply wf_timers_delete | apply wf_cancel
    | apply preserves_bind | intros ? ]).
Qed.

Lemma wf_dispose d : preserves wf (dispose d).
Proof.
  destruct d; simpl.
  - apply preserves_bind; [apply preserves_gets|]. intros timers.
    apply preserves_bind; [|intros _; apply wf_timers_clear].
    apply preserves_forEach. intros cancelId _.
    apply (wf_cancelTask (For obj cancelId)).
  - apply preserves_bind; [apply preserves_gets|]. intros ds.
    destruct (_ =? _); [apply preserves_ret|].
    apply preserves_forEach. intros p _. apply wf_cancel.
Qed.

Lemma wf_runDisposables obj : preserves wf (runDisposables obj).
Proof.
  unfold runDisposables. apply preserves_bind; [apply preserves_gets|].
  intros [ds|]; [|apply preserves_ret].
  apply preserves_bind;
    [|intros _; apply preserves_forEach; intros d _; apply wf_dispose].
  apply preserves_modify.
  intros w [Hfresh Hnodup Hjobs Hrecorded Hdisp Hsets Hmaps Hclos].
  split; simpl; try done.
  intros obj' ds'. rewrite lookup_delete. case_decide; [done|by auto].
Qed.

(** ** Running a computation step by step *)

Section steps.
Context {A B : Type}.
Implicit Types (w : World) (k : A → M B).

Lemma bind_ret (a : A) k w : bind (ret a) k w = k a w.
Proof. done. Qed.

Lemma bind_throw e k w : bind (throw e) k w = (Throw e, w).
Proof. done. Qed.

Lemma bind_gets (f : World → A) k w : bind (gets f) k w = k (f w) w.
Proof. done. Qed.

Lemma bind_modify f (k : unit → M B) w : bind (modify f) k w = k tt (f w).
Proof. done. Qed.

Lemma bind_assert e (b : bool) (k : unit → M B) w :
  bind (assert e b) k w = if b then k tt w else (Throw e, w).
Proof. by destruct b. Qed.

Lemma bind_bind {C} (m : M C) (f : C → M A) k w :
  bind (bind m f) k w = bind m (λ c, bind (f c) k) w.
Proof. unfold bind. by destruct (m w) as [[c|e] w']. Qed.

Lemma bind_issue mk (k : timer_id → M B) w :
  bind (issue mk) k w =
  k (nextTimer w)
    (with_nextTimer (S (nextTimer w))
       (with_pending (λ l, l ++ [(nextTimer w, mk (nextTimer w))]) w)).
Proof. done. Qed.

Lemma bind_new_closure mk (k : callback → M B) w :
  bind (new_closure mk) k w =
  k (mk (nextClosure w)) (with_nextClosure (S (nextClosure w)) w).
Proof. done. Qed.

Lemma bind_total (m : M unit) (k : unit → M B) w :
  total m → bind m k w = k tt (run m w).
Proof. intros Hm. unfold bind. by rewrite (total_unit m w Hm). Qed.

End steps.

Lemma run_modify f w : run (modify f) w = f w.
Proof. done. Qed.

Lemma run_issue mk w :
  run (issue mk) w =
  with_nextTimer (S (nextTimer w))
    (with_pending (λ l, l ++ [(nextTimer w, mk (nextTimer w))]) w).
Proof. done. Qed.

Lemma typeof_function v :
  (typeof v =? "function")%string =
  match v with VFunction _ => true | _ => false end.
Proof. by destruct v. Qed.

Ltac step :=
  repeat (first
    [ rewrite bind_bind | rewrite bind_gets | rewrite bind_modify
    | rewrite bind_ret | rewrite bind_assert | rewrite bind_throw ];
    cbv beta).

(** ** [debounceTask] *)

Lemma debounceTask_ok w obj name args f :
  get_prop obj name w = VFunction f →
  destroyed obj w = false →
  isInteger (default VUndefined (last args)) = true →
  debounceTask obj (VString name) args w = (Ok tt, debounced obj name args w).
Proof.
  intros Hf Hd Hi. unfold debounceTask. step.
  rewrite typeof_function, Hf, Hd. cbn [negb]. cbv zeta. rewrite Hi.
  unfold debounced, debounce_closure, ensure_debounces, debounces, debounce.
  cbv zeta.
  destruct (registeredDebounces w !! obj) as [m|] eqn:Hm.
  - step. unfold debounces. rewrite Hm. cbn [default from_option id].
    destruct (JSMap.get name m) as [p|] eqn:Hg.
    + step. rewrite bind_issue. step. done.
    + rewrite bind_new_closure. step. rewrite bind_issue. step. done.
  - step. rewrite (bind_total (registerDisposable _ _)) by apply total_modify.
    step. unfold debounces, registerDisposable. rewrite run_modify.
    cbn [registeredDebounces with_debounces with_disposables snd].
    rewrite lookup_insert_eq. cbn [default from_option id JSMap.get].
    rewrite bind_new_closure. step. rewrite bind_issue. step. done.
Qed.

Lemma debounce_closure_shape obj name w :
  wf w → ∃ cid, debounce_closure obj name w = DebouncedTask cid obj name.
Proof.
  intros Hw. unfold debounce_closure, debounces.
  destruct (registeredDebounces w !! obj) as [m|] eqn:Hm; simpl; [|by eauto].
  destruct (JSMap.get name m) as [p|] eqn:Hp; [|by eauto].
  apply JSMapFacts.get_Some_elem in Hp.
  pose proof (wf_closures w Hw obj m Hm) as Hc.
  rewrite Forall_forall in Hc. apply (Hc _ Hp).
Qed.

Lemma debounced_lookup obj name args w obj' :
  registeredDebounces (debounced obj name args w) !! obj' =
  if decide (obj = obj') then
    Some (JSMap.set name
            {| debouncedTask := debounce_closure obj name w;
               cancelId := nextTimer w |} (debounces obj w))
  else registeredDebounces w !! obj'.
Proof.
  unfold debounced, ensure_debounces, debounces. cbv zeta.
  destruct (registeredDebounces w !! obj) as [m|] eqn:Hm;
    cbn [default from_option id].
  - destruct (JSMap.get name m); cbn; rewrite lookup_alter;
      case_decide; subst; by rewrite ?Hm.
  - cbn. rewrite lookup_alter. case_decide; subst.
    + by rewrite lookup_insert_eq.
    + by rewrite lookup_insert_ne.
Qed.

Lemma debounced_pending obj name args w :
  pending (debounced obj name args w) =
  filter (λ e, ¬ same_debounce obj (debounce_closure obj name w) e) (pending w)
  ++ [(nextTimer w, Debounced obj (debounce_closure obj name w)
                      (removelast args) (default VUndefined (last args)))].
Proof.
  unfold debounced, ensure_debounces. cbv zeta.
  by destruct (registeredDebounces w !! obj), (JSMap.get name _).
Qed.

Lemma debounced_nextTimer obj name args w :
  nextTimer (debounced obj name args w) = S (nextTimer w).
Proof.
  unfold debounced, ensure_debounces. cbv zeta.
  by destruct (registeredDebounces w !! obj), (JSMap.get name _).
Qed.

Lemma debounced_timers obj name args w :
  registeredTimers (debounced obj name args w) = registeredTimers w.
Proof.
  unfold debounced, ensure_debounces. cbv zeta.
  by destruct (registeredDebounces w !! obj), (JSMap.get name _).
Qed.

Lemma debounced_disposables obj name args w :
  registeredDisposables (debounced obj name args w) =
  registeredDisposables (ensure_debounces obj w).
Proof.
  unfold debounced. cbv zeta. by destruct (JSMap.get name _).
Qed.

Lemma wf_ensure_debounces obj w : wf w → wf (ensure_debounces obj w).
Proof.
  intros Hw. unfold ensure_debounces.
  destruct (registeredDebounces w !! obj) as [m|] eqn:Hm; [done|].
  apply wf_registerDisposable; [done|].
  destruct Hw as [Hfresh Hnodup Hjobs Hrecorded Hdisp Hsets Hmaps Hclos].
  split; simpl; try done.
  - eapply Forall_impl; [exact Hrecorded|]. intros [id j]. simpl.
    unfold debounce_recorded, debounces. destruct j as [| | |t [] args wait]; try done.
    simpl. rewrite lookup_insert. case_decide; [subst; by rewrite Hm|done].
  - intros obj' m. rewrite lookup_insert. case_decide; [|by eauto].
    intros [= <-]. apply NoDup_nil_2.
  - intros obj' m. rewrite lookup_insert. case_decide; [|by eauto].
    by intros [= <-].
Qed.

Lemma wf_debounced obj name args w : wf w → wf (debounced obj name args w).
Proof.
  intros Hw. destruct (debounce_closure_shape obj name w Hw) as [cid Hc].
  pose proof (wf_ensure_debounces obj w Hw) as Hw1.
  destruct Hw as [Hfresh Hnodup Hjobs Hrecorded Hdisp Hsets Hmaps Hclos].
  split.
  - rewrite debounced_pending, debounced_nextTimer. apply Forall_app. split.
    + apply Forall_filter_weaken. eapply Forall_impl; [exact Hfresh|].
      simpl. intros e He. lia.
    + repeat constructor.
  - rewrite debounced_pending, fmap_app. apply NoDup_app.
    split_and!; [by apply NoDup_keys_filter| |apply NoDup_singleton].
    intros id Hid%keys_filter_subseteq ->%list_elem_of_singleton.
    apply list_elem_of_fmap in Hid as (e & He & Hin).
    rewrite Forall_forall in Hfresh. apply Hfresh in Hin. simpl in *. lia.
  - rewrite debounced_pending. apply Forall_app. split.
    + by apply Forall_filter_weaken.
    + repeat constructor. simpl. by rewrite Hc.
  - rewrite debounced_pending. apply Forall_app. split.
    + rewrite Forall_forall in Hrecorded, Hjobs. apply Forall_forall.
      intros [id j] [Hns Hin]%list_elem_of_filter.
      specialize (Hrecorded _ Hin). specialize (Hjobs _ Hin).
      simpl in *. unfold debounce_recorded, debounces in *.
      destruct j as [| | |target [| |cid' obj' name'] args' wait']; try done.
      rewrite debounced_lookup. simpl in Hjobs. subst target.
      case_decide as Hobj; [subst obj'|done]. simpl.
      destruct (decide (name = name')) as [<-|].
      * exfalso. apply Hns. unfold same_debounce. simpl. split; [done|].
        unfold debounce_closure, debounces. by rewrite Hrecorded.
      * by rewrite JSMapFacts.get_set_ne.
    + repeat constructor. simpl. rewrite Hc. unfold debounces.
      rewrite debounced_lookup, decide_True by done. simpl.
      by rewrite JSMapFacts.get_set_eq, Hc.
  - rewrite debounced_disposables. apply Hw1.
  - rewrite debounced_timers. done.
  - intros obj' m. rewrite debounced_lookup. case_decide; [|by eauto].
    intros [= <-]. apply JSMapFacts.NoDup_keys_set. unfold debounces.
    destruct (registeredDebounces w !! obj) eqn:Hm; simpl; [eauto|apply NoDup_nil_2].
  - intros obj' m. rewrite debounced_lookup. case_decide; [subst obj'|by eauto].
    intros [= <-]. apply JSMapFacts.Forall_set; [|simpl; eauto].
    unfold debounces.
    destruct (registeredDebounces w !! obj) eqn:Hm; simpl; [eauto|done].
Qed.

Lemma debounceTask_cases obj name args w :
  (∃ e, debounceTask obj name args w = (Throw e, w)) ∨
  (∃ n f, name = VString n ∧ get_prop obj n w = VFunction f ∧
          destroyed obj w = false ∧
          isInteger (default VUndefined (last args)) = true ∧
          debounceTask obj name args w = (Ok tt, debounced obj n args w)).
Proof.
  destruct name as [| | | |n| |]; try (left; by eexists).
  destruct (get_prop obj n w) as [| | | | |f|] eqn:Hf;
    try (left; eexists; unfold debounceTask; step;
         by rewrite typeof_function, Hf).
  destruct (destroyed obj w) eqn:Hd.
  { left. eexists. unfold debounceTask. step.
    by rewrite typeof_function, Hf, Hd. }
  destruct (isInteger (default VUndefined (last args))) eqn:Hi.
  - right. exists n, f. split_and!; try done. by eapply debounceTask_ok.
  - left. eexists. unfold debounceTask. step.
    rewrite typeof_function, Hf, Hd. cbn [negb]. cbv zeta. by rewrite Hi.
Qed.

Lemma wf_debounceTask obj name args : preserves wf (debounceTask obj name args).
Proof.
  intros w Hw. unfold run.
  destruct (debounceTask_cases obj name args w)
    as [[e ->]|(n & f & -> & _ & _ & _ & ->)]; [done|].
  by apply wf_debounced.
Qed.

(** ** [cancelDebounce] and [fire] *)

Lemma debounces_alter f obj obj' w :
  debounces obj' (with_debounces (alter f obj) w) =
  if decide (obj = obj') then
    match registeredDebounces w !! obj with
    | Some m => f m
    | None => []
    end
  else debounces obj' w.
Proof.
  unfold debounces. simpl. rewrite lookup_alter.
  case_decide; [subst|done]. by destruct (registeredDebounces w !! obj').
Qed.

(** Removing the record of a debounce is sound once no entry of the run
    loop stands for it. *)
Lemma wf_forget_debounce obj name w :
  wf w →
  Forall (λ e, ∀ cid args wait,
            e.2 ≠ Debounced obj (DebouncedTask cid obj name) args wait)
         (pending w) →
  wf (with_debounces (alter (JSMap.delete name) obj) w).
Proof.
  intros [Hfresh Hnodup Hjobs Hrecorded Hdisp Hsets Hmaps Hclos] Hnone.
  split; simpl; try done.
  - rewrite Forall_forall in *. intros [id j] Hin.
    specialize (Hrecorded _ Hin). specialize (Hnone _ Hin).
    specialize (Hjobs _ Hin). simpl in *. unfold debounce_recorded in *.
    destruct j as [| | |target [| |cid obj' name'] args wait]; try done.
    simpl in Hjobs. subst target.
    rewrite debounces_alter. case_decide as Hobj; [subst obj'|done].
    destruct (decide (name = name')) as [<-|]; [by destruct (Hnone cid args wait)|].
    unfold debounces in Hrecorded.
    destruct (registeredDebounces w !! obj) as [m|]; simpl in *; [|done].
    by rewrite JSMapFacts.get_delete_ne.
  - intros obj' m. rewrite lookup_alter. case_decide; [subst obj'|by eauto].
    destruct (registeredDebounces w !! obj) as [m'|] eqn:Hm; [|done].
    intros [= <-]. apply JSMapFacts.NoDup_keys_delete. eauto.
  - intros obj' m. rewrite lookup_alter. case_decide; [subst obj'|by eauto].
    destruct (registeredDebounces w !! obj) as [m'|] eqn:Hm; [|done].
    intros [= <-]. apply JSMapFacts.Forall_delete. eauto.
Qed.

(** In a well-formed world the entry of the run loop for a recorded
    debounce is the one the record names. *)
Lemma recorded_entry w obj name p id cid args wait :
  wf w →
  JSMap.get name (debounces obj w) = Some p →
  (id, Debounced obj (DebouncedTask cid obj name) args wait) ∈ pending w →
  id = cancelId p.
Proof.
  intros Hw Hp Hin. pose proof (wf_recorded w Hw) as Hrec.
  rewrite Forall_forall in Hrec. specialize (Hrec _ Hin). simpl in Hrec.
  rewrite Hp in Hrec. by injection Hrec as ->.
Qed.

Lemma cancelDebounce_total obj name : total (cancelDebounce obj name).
Proof.
  unfold cancelDebounce. apply total_bind; [apply total_gets|].
  intros [m|]; [|apply total_ret].
  destruct (JSMap.get name m); [|apply total_ret].
  apply total_bind; [apply total_modify|]. intros _. apply total_modify.
Qed.

Lemma wf_cancelDebounce obj name : preserves wf (cancelDebounce obj name).
Proof.
  intros w Hw. unfold run, cancelDebounce. step.
  destruct (registeredDebounces w !! obj) as [m|] eqn:Hm; [|done].
  destruct (JSMap.get name m) as [p|] eqn:Hp; [|done].
  step. unfold cancel. simpl.
  apply (wf_forget_debounce obj name
           (with_pending (filter (λ e, e.1 ≠ cancelId p)) w)).
  - by apply (wf_filter (λ e, e.1 ≠ cancelId p)).
  - apply Forall_forall. intros [id j] [Hne Hin]%list_elem_of_filter.
    intros cid args wait. simpl in *. intros ->. apply Hne.
    eapply recorded_entry; [done| |done].
    unfold debounces. by rewrite Hm.
Qed.

Lemma wf_invoke_plain cb args :
  (∀ cid obj name, cb ≠ DebouncedTask cid obj name) →
  preserves wf (invoke cb args).
Proof.
  destruct cb; simpl; intros Hcb; [| |by destruct (Hcb cid obj name)];
    (apply preserves_bind; [apply wf_timers_delete|]);
    intros _; apply wf_call_user.
Qed.

Lemma wf_fire id : preserves wf (fire id).
Proof.
  intros w Hw. unfold run, fire. step.
  destruct (find_timer id (pending w)) as [j|] eqn:Hj; [|done].
  apply find_timer_Some in Hj.
  pose proof (wf_filter (λ e, e.1 ≠ id) w Hw) as Hw1.
  unfold cancel at 1. step.
  set (w1 := with_pending (filter (λ e, e.1 ≠ id)) w) in *.
  assert (∀ cid obj name args,
    (∃ target wait,
      (id, Debounced target (DebouncedTask cid obj name) args wait) ∈ pending w) →
    wf (invoke (DebouncedTask cid obj name) args w1).2) as Hdeb.
  { intros cid obj name args (target & wait & Hin).
    pose proof (wf_jobs w Hw) as Hjobs. rewrite Forall_forall in Hjobs.
    pose proof (Hjobs _ Hin) as Hok. simpl in Hok. subst target.
    assert (wf (with_debounces (alter (JSMap.delete name) obj) w1)) as Hw2.
    { apply wf_forget_debounce; [done|].
      apply Forall_forall. intros [id' j'] [Hne Hin']%list_elem_of_filter.
      intros cid' args' wait'. simpl in *. intros ->. apply Hne.
      pose proof (wf_recorded w Hw) as Hrec. rewrite Forall_forall in Hrec.
      pose proof (Hrec _ Hin) as H1. pose proof (Hrec _ Hin') as H2.
      simpl in H1, H2. rewrite H1 in H2. by injection H2. }
    simpl. step. destruct (get_prop obj name _); try done.
    by apply wf_call_user. }
  destruct j as [cb wait|q target cb args|target f wait|target cb args wait];
    [| |done|].
  - pose proof (wf_jobs w Hw) as Hjobs. rewrite Forall_forall in Hjobs.
    specialize (Hjobs _ Hj). simpl in Hjobs.
    destruct cb; try done.
    by apply (wf_invoke_plain (RunTaskCallback _ _ _) [] ltac:(done) w1).
  - pose proof (wf_jobs w Hw) as Hjobs. rewrite Forall_forall in Hjobs.
    specialize (Hjobs _ Hj). simpl in Hjobs.
    destruct cb; try done.
    by apply (wf_invoke_plain (TaskWrapper _ _ _) args ltac:(done) w1).
  - pose proof (wf_jobs w Hw) as Hjobs. rewrite Forall_forall in Hjobs.
    specialize (Hjobs _ Hj). simpl in Hjobs.
    destruct cb; try done. apply Hdeb. eauto.
Qed.

Lemma wf_exec a w : wf w → wf (exec a w).
Proof.
  destruct a; simpl.
  - apply wf_runTask.
  - apply wf_scheduleTask.
  - apply wf_throttleTask.
  - apply wf_debounceTask.
  - apply wf_cancelTask.
  - apply wf_cancelDebounce.
  - apply wf_runDisposables.
  - apply wf_fire.
  - apply wf_with_heap.
  - apply wf_with_heap.
Qed.

Lemma wf_exec_all l w : wf w → wf (exec_all l w).
Proof.
  revert w. induction l as [|a l IH]; intros w Hw; simpl; [done|].
  apply IH. by apply wf_exec.
Qed.

(** ** The entry points: when they throw and what they leave *)

Lemma getTimers_total obj : total (getTimers obj).
Proof.
  unfold getTimers. apply total_bind; [apply total_gets|].
  intros [s|]; [apply total_ret|].
  apply total_bind; [apply total_modify|]. intros _. apply total_modify.
Qed.

Lemma getTimers_nextTimer obj w :
  nextTimer (run (getTimers obj) w) = nextTimer w.
Proof.
  unfold run, getTimers. step. by destruct (registeredTimers w !! obj).
Qed.

Lemma getTimers_pending obj w : pending (run (getTimers obj) w) = pending w.
Proof.
  unfold run, getTimers. step. by destruct (registeredTimers w !! obj).
Qed.

Lemma getTimers_calls obj w : calls (run (getTimers obj) w) = calls w.
Proof.
  unfold run, getTimers. step. by destruct (registeredTimers w !! obj).
Qed.

Lemma getTimers_heap obj w : heap (run (getTimers obj) w) = heap w.
Proof.
  unfold run, getTimers. step. by destruct (registeredTimers w !! obj).
Qed.

Lemma getTimers_debounces obj w :
  registeredDebounces (run (getTimers obj) w) = registeredDebounces w.
Proof.
  unfold run, getTimers. step. by destruct (registeredTimers w !! obj).
Qed.

Lemma getTimers_lookup obj obj' w :
  registeredTimers (run (getTimers obj) w) !! obj' =
  if decide (obj = obj') then Some (tracked obj w)
  else registeredTimers w !! obj'.
Proof.
  unfold run, getTimers, tracked. step.
  destruct (registeredTimers w !! obj) as [s|] eqn:Hs; simpl.
  - case_decide; [subst|done]. by rewrite Hs.
  - by rewrite lookup_insert.
Qed.

Lemma getTimers_tracked obj obj' w :
  tracked obj' (run (getTimers obj) w) = tracked obj' w.
Proof.
  unfold tracked at 1. rewrite getTimers_lookup. by case_decide; subst.
Qed.

Lemma getTimers_registered obj w :
  is_Some (registeredTimers w !! obj) → run (getTimers obj) w = w.
Proof. intros [s Hs]. unfold run, getTimers. step. by rewrite Hs. Qed.

Lemma getTask_cases obj taskOrName w :
  (task_resolves obj taskOrName w = false ∧
   getTask obj taskOrName w = (Throw InvalidTaskError, w)) ∨
  (task_resolves obj taskOrName w = true ∧
   ∃ f, getTask obj taskOrName w = (Ok f, w) ∧
        (taskOrName = VFunction f ∨
         ∃ name, taskOrName = VString name ∧
                 get_prop obj name w = VFunction f)).
Proof.
  destruct taskOrName as [| | | |name|f|]; simpl; try (by left).
  - unfold getTask. step. destruct (get_prop obj name w) eqn:Hp; simpl;
      try (by left). right. split; [done|]. eauto 6.
  - right. split; [done|]. eauto.
Qed.

Lemma runTask_cases obj taskOrName timeout w :
  if passes_runTask obj taskOrName w
  then ∃ f, getTask obj taskOrName w = (Ok f, w) ∧
         runTask obj taskOrName timeout w =
         (Ok (nextTimer w),
          track obj (Later (RunTaskCallback obj (nextTimer w) f)
                       (default_timeout timeout)) w)
  else ∃ e, runTask obj taskOrName timeout w = (Throw e, w).
Proof.
  unfold passes_runTask, runTask. step.
  destruct (destroyed obj w); simpl; [by eexists|].
  destruct (getTask_cases obj taskOrName w) as [[-> Ht]|[-> (f & Ht & _)]].
  - eexists. unfold bind at 1. by rewrite Ht.
  - exists f. split; [done|]. unfold bind at 1. rewrite Ht.
    rewrite (bind_total (getTimers obj)) by apply getTimers_total.
    unfold later. rewrite bind_issue, !getTimers_nextTimer.
    unfold track, timers_add. step.
    by rewrite run_modify, run_issue, !getTimers_nextTimer.
Qed.

Lemma scheduleTask_cases obj queueName taskOrName args w :
  if passes_scheduleTask obj queueName taskOrName w
  then ∃ q f, queueName = VString q ∧
         getTask obj taskOrName w = (Ok f, w) ∧
         scheduleTask obj queueName taskOrName args w =
         if run_loop_takes q
         then (Ok (nextTimer w),
               track obj
                 (Scheduled q obj (TaskWrapper obj (nextTimer w) f) args) w)
         else (Throw InvalidQueueError, run (getTimers obj) w)
  else ∃ e, scheduleTask obj queueName taskOrName args w = (Throw e, w).
Proof.
  unfold passes_scheduleTask, scheduleTask.
  destruct queueName as [| | | |q| |]; simpl; try by eexists.
  step. destruct (q =? "afterRender")%string; simpl; [by eexists|].
  destruct (destroyed obj w); simpl; [by eexists|].
  destruct (getTask_cases obj taskOrName w) as [[-> Ht]|[-> (f & Ht & _)]].
  - eexists. unfold bind at 1. by rewrite Ht.
  - exists q, f. split_and!; [done..|]. unfold bind at 1. rewrite Ht.
    rewrite (bind_total (getTimers obj)) by apply getTimers_total.
    unfold schedule. destruct (run_loop_takes q); [|done].
    rewrite bind_issue, !getTimers_nextTimer.
    unfold track, timers_add. step.
    by rewrite run_modify, run_issue, !getTimers_nextTimer.
Qed.

(** When [scheduleTask] returns, the run loop took the queue name. *)
Lemma scheduleTask_returns obj queueName taskOrName args w id w1 :
  scheduleTask obj queueName taskOrName args w = (Ok id, w1) →
  ∃ q f, queueName = VString q ∧
         getTask obj taskOrName w = (Ok f, w) ∧
         id = nextTimer w ∧
         w1 = track obj
                (Scheduled q obj (TaskWrapper obj (nextTimer w) f) args) w.
Proof.
  intros Hrun.
  pose proof (scheduleTask_cases obj queueName taskOrName args w) as Hc.
  destruct (passes_scheduleTask obj queueName taskOrName w);
    [|destruct Hc as [e He]; congruence].
  destruct Hc as (q & f & -> & Ht & Hr). rewrite Hr in Hrun.
  destruct (run_loop_takes q); [|done].
  injection Hrun as <- <-. by exists q, f.
Qed.

Lemma throttle_total_on target methodName args f w :
  get_prop target methodName w = VFunction f →
  ∃ id, throttle target methodName args w =
          (Ok id, run (throttle target methodName args) w).
Proof.
  intros Hf. unfold run, throttle. step. rewrite Hf. cbv zeta. step.
  destruct (find_throttled target f (pending w)); [by eexists|].
  rewrite bind_issue. unfold call_user. step. by eexists.
Qed.

Lemma getTimers_get_prop obj obj' name w :
  get_prop obj' name (run (getTimers obj) w) = get_prop obj' name w.
Proof. unfold get_prop. by rewrite getTimers_heap. Qed.

Lemma throttleTask_cases obj taskName throttleArgs w :
  if passes_named obj taskName throttleArgs w
  then ∃ name id,
         taskName = VString name ∧
         throttle obj name throttleArgs (run (getTimers obj) w) =
           (Ok id, run (throttle obj name throttleArgs)
                     (run (getTimers obj) w)) ∧
         throttleTask obj taskName throttleArgs w =
         (Ok id, run (timers_add obj id)
                   (run (throttle obj name throttleArgs)
                      (run (getTimers obj) w)))
  else ∃ e, throttleTask obj taskName throttleArgs w = (Throw e, w).
Proof.
  unfold passes_named, throttleTask, wait_of.
  destruct taskName as [| | | |name| |]; simpl; try by eexists.
  step. rewrite typeof_function.
  destruct (get_prop obj name w) as [| | | | |f|] eqn:Hf; simpl; try by eexists.
  destruct (destroyed obj w); simpl; [by eexists|].
  destruct (isInteger _); simpl; [|by eexists].
  rewrite (bind_total (getTimers obj)) by apply getTimers_total.
  destruct (throttle_total_on obj name throttleArgs f (run (getTimers obj) w))
    as [id Hid]; [by rewrite getTimers_get_prop|].
  exists name, id. split_and!; [done..|].
  unfold bind at 1. rewrite Hid. by step.
Qed.

Lemma debounceTask_valid obj name args w :
  if passes_named obj name args w
  then ∃ n, name = VString n ∧
         debounceTask obj name args w = (Ok tt, debounced obj n args w)
  else ∃ e, debounceTask obj name args w = (Throw e, w).
Proof.
  destruct (debounceTask_cases obj name args w)
    as [[e He]|(n & f & -> & Hf & Hd & Hi & Hr)].
  - destruct (passes_named obj name args w) eqn:Hv; [|by eauto].
    unfold passes_named, wait_of in Hv.
    destruct name as [| | | |n| |]; simpl in Hv; try done.
    destruct (get_prop obj n w) as [| | | | |f|] eqn:Hf; simpl in Hv; try done.
    destruct (destroyed obj w) eqn:Hd; simpl in Hv; try done.
    by rewrite (debounceTask_ok w obj n args f Hf Hd Hv) in He.
  - unfold passes_named, wait_of, names_method. rewrite Hf, Hd, Hi. simpl.
    by exists n.
Qed.

(** ** Validation (C3, C4, C5, C9) *)

Lemma nothing_registered_getTimers obj w :
  nothing_registered w (run (getTimers obj) w).
Proof.
  unfold nothing_registered.
  rewrite getTimers_pending, getTimers_nextTimer, getTimers_debounces,
    getTimers_calls, getTimers_heap.
  split_and!; try done. intros o. apply getTimers_tracked.
Qed.

(** C9, as the code has it.  Each of the four entry points throws exactly
    when one of its checks fails (a task that does not resolve, a queue
    name that is not a string or is [afterRender], a trailing wait that is
    not an integer, a destroyed owner) and then leaves the world as it
    found it; and [scheduleTask] throws when the run loop refuses the queue
    name, after [getTimers]: then no timer is registered either and every
    set and map holds what it held, the owner having got its empty set if
    it had none.  In every other case the call returns. *)
Theorem validation_before_registration obj w :
  (∀ taskOrName timeout,
     if passes_runTask obj taskOrName w
     then ∃ id w', runTask obj taskOrName timeout w = (Ok id, w')
     else ∃ e, runTask obj taskOrName timeout w = (Throw e, w)) ∧
  (∀ queueName taskOrName args,
     if passes_scheduleTask obj queueName taskOrName w
     then ∃ q, queueName = VString q ∧
          if run_loop_takes q
          then ∃ id w',
                 scheduleTask obj queueName taskOrName args w = (Ok id, w')
          else scheduleTask obj queueName taskOrName args w =
                 (Throw InvalidQueueError, run (getTimers obj) w) ∧
               nothing_registered w (run (getTimers obj) w)
     else ∃ e, scheduleTask obj queueName taskOrName args w = (Throw e, w)) ∧
  (∀ taskName throttleArgs,
     if passes_named obj taskName throttleArgs w
     then ∃ id w', throttleTask obj taskName throttleArgs w = (Ok id, w')
     else ∃ e, throttleTask obj taskName throttleArgs w = (Throw e, w)) ∧
  (∀ name debounceArgs,
     if passes_named obj name debounceArgs w
     then ∃ w', debounceTask obj name debounceArgs w = (Ok tt, w')
     else ∃ e, debounceTask obj name debounceArgs w = (Throw e, w)).
Proof.
  split_and!.
  - intros t timeout. pose proof (runTask_cases obj t timeout w) as H.
    destruct (passes_runTask obj t w); [|done].
    destruct H as (f & _ & ->). eauto.
  - intros q t args. pose proof (scheduleTask_cases obj q t args w) as H.
    destruct (passes_scheduleTask obj q t w); [|done].
    destruct H as (q' & f & -> & _ & ->). exists q'. split; [done|].
    destruct (run_loop_takes q'); [by eauto|].
    split; [done|apply nothing_registered_getTimers].
  - intros n args. pose proof (throttleTask_cases obj n args w) as H.
    destruct (passes_named obj n args w); [|done].
    destruct H as (n' & id & _ & _ & ->). eauto.
  - intros n args. pose proof (debounceTask_valid obj n args w) as H.
    destruct (passes_named obj n args w); [|done].
    destruct H as (n' & _ & ->). eauto.
Qed.

(** C9 as stated fails: a negative wait is a bad wait, and so is a delay
    that is no number; [throttleTask], [debounceTask] and [runTask] take
    them, raise nothing, and register a timer. *)
Lemma unchecked_wait_registers :
  let w1 := run (throttleTask 0 (VString "doStuff") [int (-5)]) sample in
  let w2 := run (debounceTask 0 (VString "doStuff") [int (-5)]) sample in
  let w3 := run (runTask 0 (VString "doStuff") (VString "soon")) sample in
  isNegative (int (-5)) = true ∧
  throttleTask 0 (VString "doStuff") [int (-5)] sample = (Ok 0, w1) ∧
  tracked 0 w1 = [0] ∧ (pending w1).*1 = [0] ∧
  debounceTask 0 (VString "doStuff") [int (-5)] sample = (Ok tt, w2) ∧
  (debounces 0 w2).*1 = ["doStuff"] ∧ (pending w2).*1 = [0] ∧
  runTask 0 (VString "doStuff") (VString "soon") sample = (Ok 0, w3) ∧
  tracked 0 w3 = [0] ∧ (pending w3).*1 = [0].
Proof. cbv zeta. split_and!; vm_compute; reflexivity. Qed.

Lemma runTask_destroyed obj taskOrName timeout w :
  destroyed obj w = true →
  runTask obj taskOrName timeout w = (Throw DestroyedOwnerError, w).
Proof. intros Hd. unfold runTask. step. by rewrite Hd. Qed.

Lemma scheduleTask_destroyed obj queueName taskOrName args w :
  destroyed obj w = true →
  ∃ e, scheduleTask obj queueName taskOrName args w = (Throw e, w) ∧
       (queue_accepted queueName = true → e = DestroyedOwnerError).
Proof.
  intros Hd. unfold scheduleTask, queue_accepted.
  destruct queueName as [| | | |q| |]; try by eexists.
  step. destruct (q =? "afterRender")%string; simpl; [by eexists|].
  rewrite Hd. by eexists.
Qed.

Lemma throttleTask_destroyed obj taskName throttleArgs w :
  destroyed obj w = true →
  ∃ e, throttleTask obj taskName throttleArgs w = (Throw e, w) ∧
       (names_method obj taskName w = true → e = DestroyedOwnerError).
Proof.
  intros Hd. unfold throttleTask, names_method.
  destruct taskName as [| | | |name| |]; try by eexists.
  step. rewrite typeof_function.
  destruct (get_prop obj name w); simpl; try by eexists.
  rewrite Hd. by eexists.
Qed.

Lemma debounceTask_destroyed obj name debounceArgs w :
  destroyed obj w = true →
  ∃ e, debounceTask obj name debounceArgs w = (Throw e, w) ∧
       (names_method obj name w = true → e = DestroyedOwnerError).
Proof.
  intros Hd. unfold debounceTask, names_method.
  destruct name as [| | | |name| |]; try by eexists.
  step. rewrite typeof_function.
  destruct (get_prop obj name w); simpl; try by eexists.
  rewrite Hd. by eexists.
Qed.

(** C5: on a destroyed owner each of [runTask], [scheduleTask],
    [throttleTask] and [debounceTask] throws to its caller and leaves the
    world untouched, so no timer is registered for the owner.  The error is
    the one for a destroyed owner unless an earlier check (the queue, the
    method name) has already failed. *)
Theorem destroyed_owner_throws obj w :
  destroyed obj w = true →
  (∀ taskOrName timeout,
     runTask obj taskOrName timeout w = (Throw DestroyedOwnerError, w)) ∧
  (∀ queueName taskOrName args,
     ∃ e, scheduleTask obj queueName taskOrName args w = (Throw e, w) ∧
          (queue_accepted queueName = true → e = DestroyedOwnerError)) ∧
  (∀ taskName throttleArgs,
     ∃ e, throttleTask obj taskName throttleArgs w = (Throw e, w) ∧
          (names_method obj taskName w = true → e = DestroyedOwnerError)) ∧
  (∀ name debounceArgs,
     ∃ e, debounceTask obj name debounceArgs w = (Throw e, w) ∧
          (names_method obj name w = true → e = DestroyedOwnerError)).
Proof.
  intros Hd. split_and!; intros.
  - by apply runTask_destroyed.
  - by apply scheduleTask_destroyed.
  - by apply throttleTask_destroyed.
  - by apply debounceTask_destroyed.
Qed.

Lemma destroyed_owner_throws_witness :
  destroyed 0 sample_destroyed = true ∧
  runTask 0 (VString "doStuff") VUndefined sample_destroyed =
    (Throw DestroyedOwnerError, sample_destroyed) ∧
  ∃ e, debounceTask 0 (VString "doStuff") [int 5] sample_destroyed =
         (Throw e, sample_destroyed) ∧
       (names_method 0 (VString "doStuff") sample_destroyed = true →
        e = DestroyedOwnerError).
Proof.
  assert (destroyed 0 sample_destroyed = true) as Hd by reflexivity.
  destruct (destroyed_owner_throws 0 sample_destroyed Hd) as (H1 & _ & _ & H4).
  split_and!; [exact Hd | apply H1 | apply H4].
Defined.

(** C3, as the code has it: [throttleTask] and [debounceTask] throw,
    before anything is registered, whenever the trailing argument is not an
    integer, and the error is the one for an invalid delay when the checks
    that come first (the method name, the owner) pass.  The sign of an
    integer is not looked at: with a live owner and a method name, an
    integer wait, negative or not, lets the call return. *)
Theorem non_integer_wait_throws obj name args w :
  (isInteger (wait_of args) = false →
   (∃ e, throttleTask obj name args w = (Throw e, w) ∧
         (names_method obj name w = true → destroyed obj w = false →
          e = InvalidDelayError)) ∧
   (∃ e, debounceTask obj name args w = (Throw e, w) ∧
         (names_method obj name w = true → destroyed obj w = false →
          e = InvalidDelayError))) ∧
  (isInteger (wait_of args) = true →
   names_method obj name w = true → destroyed obj w = false →
   (∃ id w', throttleTask obj name args w = (Ok id, w')) ∧
   (∃ w', debounceTask obj name args w = (Ok tt, w'))).
Proof.
  split.
  - intros Hi. unfold wait_of in Hi. split.
    + unfold throttleTask, names_method.
      destruct name as [| | | |n| |]; try by eexists.
      step. rewrite typeof_function.
      destruct (get_prop obj n w); simpl; try by eexists.
      destruct (destroyed obj w); simpl; [by eexists|].
      rewrite Hi. by eexists.
    + unfold debounceTask, names_method.
      destruct name as [| | | |n| |]; try by eexists.
      step. rewrite typeof_function.
      destruct (get_prop obj n w); simpl; try by eexists.
      destruct (destroyed obj w); simpl; [by eexists|].
      rewrite Hi. by eexists.
  - intros Hi Hn Hd.
    pose proof (throttleTask_cases obj name args w) as Ht.
    pose proof (debounceTask_valid obj name args w) as Hdeb.
    unfold passes_named in *. rewrite Hn, Hd, Hi in *. simpl in Ht, Hdeb.
    destruct Ht as (n & id & _ & _ & ->).
    destruct Hdeb as (n' & _ & ->). eauto.
Qed.

Lemma non_integer_wait_throws_witness :
  isInteger (wait_of [VString "bad"]) = false ∧
  (∃ e, throttleTask 0 (VString "doStuff") [VString "bad"] sample =
          (Throw e, sample) ∧
        (names_method 0 (VString "doStuff") sample = true →
         destroyed 0 sample = false → e = InvalidDelayError)) ∧
  isInteger (wait_of [int (-5)]) = true ∧
  ∃ w', debounceTask 0 (VString "doStuff") [int (-5)] sample = (Ok tt, w').
Proof.
  destruct (non_integer_wait_throws 0 (VString "doStuff") [VString "bad"] sample)
    as [H1 _].
  destruct (non_integer_wait_throws 0 (VString "doStuff") [int (-5)] sample)
    as [_ H2].
  split_and!.
  - reflexivity.
  - apply H1. reflexivity.
  - reflexivity.
  - apply H2; reflexivity.
Defined.

(** C3 as stated fails: a wait of [-5] is a negative integer, hence not a
    non-negative integer, and neither [throttleTask] nor [debounceTask]
    throws. *)
Lemma negative_wait_accepted :
  isNegative (int (-5)) = true ∧
  (throttleTask 0 (VString "doStuff") [int (-5)] sample).1 = Ok 0 ∧
  (debounceTask 0 (VString "doStuff") [int (-5)] sample).1 = Ok tt.
Proof. split_and!; reflexivity. Qed.



(** ** What every operation does to the run loop

    The addon and the host reach the run loop in two ways only: entries
    leave it, and an entry comes in under the next identifier.  A property
    of the run loop that survives both survives every action. *)

Section run_loop_invariant.
Context (R : timer_id → list (timer_id * job) → Prop).
Context (R_filter : ∀ (P : timer_id * job → Prop) `{∀ e, Decision (P e)} n l,
           R n l → R n (filter P l)).
Context (R_issue : ∀ n l j, R n l → R (S n) (l ++ [(n, j)])).

Local Abbreviation on_run_loop := (on_run_loop R).

Ltac frame :=
  repeat first
    [ apply preserves_ret | apply preserves_throw | apply preserves_gets
    | apply preserves_assert | apply preserves_bind
    | apply preserves_forEach; intros ? _
    | apply preserves_modify; intros ? ?; assumption
    | apply preserves_modify; intros ? ?; by apply R_filter
    | match goal with |- ∀ _, _ => intros ? end
    | match goal with |- preserves _ (match ?x with _ => _ end) => destruct x end
    | match goal with |- preserves _ (if ?x then _ else _) => destruct x end ].

Lemma on_run_loop_issue mk : preserves on_run_loop (issue mk).
Proof. intros w. apply R_issue. Qed.

Lemma on_run_loop_cancel id : preserves on_run_loop (cancel id).
Proof. intros w. by apply R_filter. Qed.

Lemma on_run_loop_getTimers obj : preserves on_run_loop (getTimers obj).
Proof. unfold getTimers, registerDisposable.  frame. Qed.


Lemma on_run_loop_call_user f this args :
  preserves on_run_loop (call_user f this args).
Proof. unfold call_user. frame. Qed.

Lemma on_run_loop_runTask obj t timeout :
  preserves on_run_loop (runTask obj t timeout).
Proof.
  unfold runTask, getTask, later, timers_add.
  frame; first [apply on_run_loop_getTimers | apply on_run_loop_issue].
Qed.

Lemma on_run_loop_scheduleTask obj q t args :
  preserves on_run_loop (scheduleTask obj q t args).
Proof.
  unfold scheduleTask, getTask, schedule, timers_add.
  frame; first [apply on_run_loop_getTimers | apply on_run_loop_issue].
Qed.

Lemma on_run_loop_throttleTask obj n args :
  preserves on_run_loop (throttleTask obj n args).
Proof.
  unfold throttleTask, throttle, timers_add. cbv zeta.
  frame; first [apply on_run_loop_getTimers | apply on_run_loop_issue
               | apply on_run_loop_call_user].
Qed.

Lemma on_run_loop_debounceTask obj n args :
  preserves on_run_loop (debounceTask obj n args).
Proof.
  unfold debounceTask, debounce, registerDisposable, new_closure. cbv zeta.
  frame; first [apply on_run_loop_issue | by intros ? ?].
Qed.

Lemma on_run_loop_cancelTask a : preserves on_run_loop (cancelTask a).
Proof.
  unfold cancelTask, timers_delete.
  frame; first [apply on_run_loop_getTimers | apply on_run_loop_cancel].
Qed.

Lemma on_run_loop_cancelDebounce obj n :
  preserves on_run_loop (cancelDebounce obj n).
Proof. unfold cancelDebounce. frame; apply on_run_loop_cancel. Qed.

Lemma on_run_loop_dispose d : preserves on_run_loop (dispose d).
Proof.
  unfold dispose, timers_clear.
  frame; first [apply on_run_loop_cancelTask | apply on_run_loop_cancel].
Qed.

Lemma on_run_loop_runDisposables obj :
  preserves on_run_loop (runDisposables obj).
Proof. unfold runDisposables. frame; apply on_run_loop_dispose. Qed.

Lemma on_run_loop_fire id : preserves on_run_loop (fire id).
Proof.
  unfold fire, invoke, timers_delete.
  frame; first [apply on_run_loop_cancel | apply on_run_loop_call_user].
Qed.

Lemma on_run_loop_exec a w : on_run_loop w → on_run_loop (exec a w).
Proof.
  destruct a; simpl.
  - apply on_run_loop_runTask.
  - apply on_run_loop_scheduleTask.
  - apply on_run_loop_throttleTask.
  - apply on_run_loop_debounceTask.
  - apply on_run_loop_cancelTask.
  - apply on_run_loop_cancelDebounce.
  - apply on_run_loop_runDisposables.
  - apply on_run_loop_fire.
  - done.
  - done.
Qed.

End run_loop_invariant.

Lemma exec_all_on_run_loop R
    (R_filter : ∀ (P : timer_id * job → Prop) `{∀ e, Decision (P e)} n l,
       R n l → R n (filter P l))
    (R_issue : ∀ n l j, R n l → R (S n) (l ++ [(n, j)])) acts w :
  on_run_loop R w → on_run_loop R (exec_all acts w).
Proof.
  revert w. induction acts as [|a acts IH]; intros w Hw; simpl; [done|].
  apply IH. by apply on_run_loop_exec.
Qed.

Lemma exec_all_grown acts w :
  on_run_loop (grown_from (nextTimer w) (pending w)) (exec_all acts w).
Proof.
  apply exec_all_on_run_loop.
  - intros P ? n l [Hn Hl]. split; [done|].
    intros e [_ He]%list_elem_of_filter. auto.
  - intros n l j [Hn Hl]. split; [lia|].
    intros e [He| ->%list_elem_of_singleton]%elem_of_app; [auto|].
    right. simpl. lia.
  - split; [done|]. auto.
Qed.

(** An entry that is still pending after any actions is the entry it was. *)
Lemma pending_entry_stable acts w id j :
  wf w → (id, j) ∈ pending w → id ∈ (pending (exec_all acts w)).*1 →
  find_timer id (pending (exec_all acts w)) = Some j.
Proof.
  intros Hw Hin (e & -> & He)%list_elem_of_fmap.
  pose proof (wf_exec_all acts w Hw) as Hw'.
  destruct (exec_all_grown acts w) as [_ Hold].
  destruct e as [id j']. apply find_timer_elem; [apply Hw'|].
  destruct (Hold _ He) as [Hin'|Hge].
  - simpl in *. pose proof (wf_nodup w Hw) as Hnd.
    apply (find_timer_elem _ _ _ Hnd) in Hin, Hin'.
    rewrite Hin in Hin'. by injection Hin' as ->.
  - pose proof (wf_fresh w Hw) as Hfresh. rewrite Forall_forall in Hfresh.
    apply Hfresh in Hin. simpl in *. lia.
Qed.

(** ** [runTask] and [scheduleTask]: what is registered and what fires *)

Lemma track_pending obj j w :
  pending (track obj j w) = pending w ++ [(nextTimer w, j)].
Proof.
  unfold track, timers_add. rewrite run_modify, run_issue. simpl.
  by rewrite getTimers_pending, getTimers_nextTimer.
Qed.

Lemma track_calls obj j w : calls (track obj j w) = calls w.
Proof.
  unfold track, timers_add. rewrite run_modify, run_issue. simpl.
  by rewrite getTimers_calls.
Qed.

Lemma track_lookup obj j w :
  registeredTimers (track obj j w) !! obj =
  Some (JSSet.add (nextTimer w) (tracked obj w)).
Proof.
  unfold track, timers_add. rewrite run_modify, run_issue.
  cbn [registeredTimers with_timers with_nextTimer with_pending].
  rewrite lookup_alter, decide_True by done.
  by rewrite getTimers_lookup, decide_True.
Qed.

Lemma track_tracked obj j w :
  tracked obj (track obj j w) = JSSet.add (nextTimer w) (tracked obj w).
Proof. unfold tracked at 1. by rewrite track_lookup. Qed.

Lemma track_find obj j w :
  wf w → find_timer (nextTimer w) (pending (track obj j w)) = Some j.
Proof.
  intros Hw. rewrite track_pending. apply find_timer_app_fresh.
  intros (e & He & Hin)%list_elem_of_fmap.
  pose proof (wf_fresh w Hw) as Hfresh. rewrite Forall_forall in Hfresh.
  apply Hfresh in Hin. lia.
Qed.

(** A self-cleaning entry fires: it leaves the run loop, removes its
    identifier from the set of its owner, and only then calls the task. *)
Lemma fire_self_cleaning w id j obj task args :
  find_timer id (pending w) = Some j →
  self_cleaning obj task args id j →
  fire id w =
  (Ok tt,
   with_calls (λ l, l ++ [cleaned_call obj task args id w])
     (with_timers (alter (JSSet.delete id) obj)
        (with_pending (filter (λ e, e.1 ≠ id)) w))).
Proof.
  intros Hj Hself. unfold fire. step. rewrite Hj. unfold cancel. step.
  destruct Hself as [(wait & -> & ->)|(q & ->)]; done.
Qed.

Lemma not_elem_of_alter_delete id obj (m : gmap obj_id JSSet.t) :
  id ∉ default [] (alter (JSSet.delete id) obj m !! obj).
Proof.
  rewrite lookup_alter, decide_True by done.
  destruct (m !! obj) as [s|]; simpl; [|apply not_elem_of_nil].
  rewrite JSSetFacts.elem_of_delete. by intros [? _].
Qed.

Lemma self_cleaning_fires w id j obj task args :
  find_timer id (pending w) = Some j →
  self_cleaning obj task args id j →
  fires_cleanly obj task args id w.
Proof.
  intros Hj Hself. unfold fires_cleanly, run.
  rewrite (fire_self_cleaning w id j obj task args Hj Hself).
  split_and!; [done| | |].
  - apply not_elem_of_alter_delete.
  - apply cancelled_not_pending.
  - eexists. split_and!; [done..|]. apply not_elem_of_alter_delete.
Qed.

(** From registration to firing, whatever happens in between. *)
Lemma registered_then_fired w obj task args j acts :
  wf w →
  self_cleaning obj task args (nextTimer w) j →
  nextTimer w ∈ (pending (exec_all acts (track obj j w))).*1 →
  fires_cleanly obj task args (nextTimer w) (exec_all acts (track obj j w)).
Proof.
  intros Hw Hself Hpending.
  assert (wf (track obj j w)) as Hw1.
  { unfold track. apply wf_timers_add, wf_issue; [..|by apply wf_getTimers];
      rewrite getTimers_nextTimer;
      by destruct Hself as [(wait & -> & _)|(q & ->)]. }
  eapply self_cleaning_fires; [|done].
  apply pending_entry_stable; [done| |done].
  rewrite track_pending. apply elem_of_app. right. left.
Qed.

Lemma exec_all_reassign changes w :
  pending (exec_all (reassign changes) w) = pending w ∧
  calls (exec_all (reassign changes) w) = calls w ∧
  registeredTimers (exec_all (reassign changes) w) = registeredTimers w.
Proof.
  revert w. induction changes as [|c changes IH]; intros w; [done|].
  change (exec_all (reassign (c :: changes)) w)
    with (exec_all (reassign changes) (exec (SetProp c.1.1 c.1.2 c.2) w)).
  by destruct (IH (exec (SetProp c.1.1 c.1.2 c.2) w)) as (-> & -> & ->).
Qed.



(** C1, as the code has it: [runTask] and [scheduleTask] resolve a task
    given by name when they are called, through [getTask], and the closure
    they hand to the run loop keeps the function found then.  However the
    properties of any object are reassigned before the timer fires, the
    function called is the one the name denoted at registration. *)
Theorem named_task_bound_at_registration obj name w :
  wf w →
  (∀ timeout id w1,
     runTask obj (VString name) timeout w = (Ok id, w1) →
     ∃ f, get_prop obj name w = VFunction f ∧
       ∀ changes, ∃ inv,
         calls (run (fire id) (exec_all (reassign changes) w1)) =
           calls w ++ [inv] ∧
         callee inv = f ∧ this inv = obj ∧ arguments inv = []) ∧
  (∀ queueName args id w1,
     scheduleTask obj queueName (VString name) args w = (Ok id, w1) →
     ∃ f, get_prop obj name w = VFunction f ∧
       ∀ changes, ∃ inv,
         calls (run (fire id) (exec_all (reassign changes) w1)) =
           calls w ++ [inv] ∧
         callee inv = f ∧ this inv = obj ∧ arguments inv = args).
Proof.
  intros Hw.
  assert (∀ f, getTask obj (VString name) w = (Ok f, w) →
               get_prop obj name w = VFunction f) as Hname.
  { intros f. unfold getTask. step.
    destruct (get_prop obj name w); try done. by intros [= ->]. }
  assert (∀ task args j changes,
    self_cleaning obj task args (nextTimer w) j →
    ∃ inv,
      calls (run (fire (nextTimer w))
               (exec_all (reassign changes) (track obj j w))) =
        calls w ++ [inv] ∧
      callee inv = task ∧ this inv = obj ∧ arguments inv = args) as Hfire.
  { intros task args j changes Hself.
    destruct (exec_all_reassign changes (track obj j w)) as (Hp & Hc & _).
    destruct (registered_then_fired w obj task args j (reassign changes) Hw Hself)
      as (_ & _ & _ & inv & Hcalls & ? & ? & ? & _).
    - rewrite Hp, track_pending, fmap_app. apply elem_of_app. right. left.
    - exists inv. by rewrite Hcalls, Hc, track_calls. }
  split.
  - intros timeout id w1 Hrun.
    pose proof (runTask_cases obj (VString name) timeout w) as Hc.
    destruct (passes_runTask obj _ w); [|destruct Hc as [e He]; congruence].
    destruct Hc as (task & Ht & Hr). rewrite Hr in Hrun.
    injection Hrun as <- <-. exists task. split; [by apply Hname|].
    intros changes. apply Hfire. left. eauto.
  - intros q args id w1 Hrun.
    destruct (scheduleTask_returns obj q (VString name) args w id w1 Hrun)
      as (q' & task & -> & Ht & -> & ->).
    exists task. split; [by apply Hname|].
    intros changes. apply Hfire. right. eauto.
Qed.

Lemma named_task_bound_at_registration_witness :
  wf sample ∧
  let w1 := run (runTask 0 (VString "doStuff") VUndefined) sample in
  ∃ inv,
    calls (run (fire 0) (exec_all (reassign [(0, "doStuff", VFunction 9)]) w1))
      = calls sample ++ [inv] ∧
    callee inv = 7 ∧ this inv = 0 ∧ arguments inv = [].
Proof.
  assert (wf sample) as Hw by (apply wf_with_heap, wf_init).
  destruct (named_task_bound_at_registration 0 "doStuff" sample Hw) as [H1 _].
  destruct (H1 VUndefined 0
              (run (runTask 0 (VString "doStuff") VUndefined) sample)
              eq_refl) as (f & Hf & Hfire).
  assert (f = 7) as -> by (vm_compute in Hf; congruence).
  split; [exact Hw | exact (Hfire [(0, "doStuff", VFunction 9)])].
Defined.

(** C1 as stated fails: [doStuff] is function 7 when [runTask] is called
    and is reassigned to function 9 before the timer fires; the function
    called is 7, not 9.  The same holds for [scheduleTask]. *)
Lemma reassigned_task_not_called :
  let w1 := run (runTask 0 (VString "doStuff") VUndefined) sample in
  let w2 := exec (SetProp 0 "doStuff" (VFunction 9)) w1 in
  let s1 := run (scheduleTask 0 (VString "actions") (VString "doStuff") [])
              sample in
  let s2 := exec (SetProp 0 "doStuff" (VFunction 9)) s1 in
  get_prop 0 "doStuff" w2 = VFunction 9 ∧
  map callee (calls (run (fire 0) w2)) = [7] ∧
  get_prop 0 "doStuff" s2 = VFunction 9 ∧
  map callee (calls (run (fire 0) s2)) = [7].
Proof. split_and!; reflexivity. Qed.

(** ** Cancellation (C8) *)

Lemma cancelTask_total arguments : total (cancelTask arguments).
Proof.
  destruct arguments; simpl; [apply total_modify|].
  apply total_bind; [apply getTimers_total|]. intros _.
  apply total_bind; [apply total_modify|]. intros _. apply total_modify.
Qed.

Lemma cancelTask_For obj id w :
  run (cancelTask (For obj id)) w =
  with_pending (filter (λ e, e.1 ≠ id))
    (with_timers (alter (JSSet.delete id) obj) (run (getTimers obj) w)).
Proof.
  unfold run at 1. simpl.
  rewrite (bind_total (getTimers obj)) by apply getTimers_total.
  unfold timers_delete, cancel. by step.
Qed.

Lemma cancelTask_pending arguments w :
  pending (run (cancelTask arguments) w) =
  filter (λ e, e.1 ≠ cancelled_id arguments) (pending w).
Proof.
  destruct arguments as [id|obj id]; [done|].
  rewrite cancelTask_For. simpl. by rewrite getTimers_pending.
Qed.

Lemma cancelTask_tracked obj id obj' w :
  tracked obj' (run (cancelTask (For obj id)) w) =
  if decide (obj = obj') then JSSet.delete id (tracked obj w)
  else tracked obj' w.
Proof.
  rewrite cancelTask_For. unfold tracked at 1. simpl.
  rewrite lookup_alter, !getTimers_lookup.
  destruct (decide (obj = obj')) as [<-|Hne]; [|done].
  by rewrite decide_True.
Qed.

Lemma alter_id_on {A} (f : A → A) obj (m : gmap obj_id A) :
  (∀ x, m !! obj = Some x → f x = x) → alter f obj m = m.
Proof.
  intros Hf. apply map_eq. intros i. rewrite lookup_alter.
  case_decide; [subst|done].
  destruct (m !! i) as [x|] eqn:Hx; simpl; [|done]. by rewrite Hf.
Qed.

Lemma with_timers_same f w :
  f (registeredTimers w) = registeredTimers w → with_timers f w = w.
Proof. destruct w. unfold with_timers. simpl. by intros ->. Qed.

Lemma with_pending_same f w :
  f (pending w) = pending w → with_pending f w = w.
Proof. destruct w. unfold with_pending. simpl. by intros ->. Qed.

Lemma cancelTask_unknown obj id w :
  id ∉ (pending w).*1 → id ∉ tracked obj w →
  is_Some (registeredTimers w !! obj) →
  run (cancelTask (For obj id)) w = w.
Proof.
  intros Hp Ht Hreg. rewrite cancelTask_For, getTimers_registered by done.
  rewrite with_pending_same; [|by apply filter_not_pending].
  apply with_timers_same, alter_id_on. intros s Hs.
  apply JSSetFacts.delete_not_elem. unfold tracked in Ht. by rewrite Hs in Ht.
Qed.

Lemma cancelTask_Legacy_unknown id w :
  id ∉ (pending w).*1 → run (cancelTask (Legacy id)) w = w.
Proof.
  intros Hp. unfold run. simpl.
  apply with_pending_same. by apply filter_not_pending.
Qed.

Lemma cancelTask_idempotent arguments w :
  run (cancelTask arguments) (run (cancelTask arguments) w) =
  run (cancelTask arguments) w.
Proof.
  destruct arguments as [id|obj id].
  - apply cancelTask_Legacy_unknown. apply cancelled_not_pending.
  - apply cancelTask_unknown.
    + rewrite cancelTask_pending. apply cancelled_not_pending.
    + rewrite cancelTask_tracked, decide_True by done.
      rewrite JSSetFacts.elem_of_delete. by intros [? _].
    + rewrite cancelTask_For. simpl.
      rewrite lookup_alter, getTimers_lookup, !decide_True by done. by eexists.
Qed.

Lemma cancelDebounce_absent obj name w :
  JSMap.get name (debounces obj w) = None →
  cancelDebounce obj name w = (Ok tt, w).
Proof.
  unfold debounces, cancelDebounce. step.
  destruct (registeredDebounces w !! obj) as [m|]; simpl; [|done].
  by intros ->.
Qed.

(** Cancelling a timer of [runTask] or [scheduleTask] that has fired
    changes nothing. *)
Lemma cancel_after_fire w obj task args j :
  wf w → self_cleaning obj task args (nextTimer w) j →
  let fired := run (fire (nextTimer w)) (track obj j w) in
  cancelTask (For obj (nextTimer w)) fired = (Ok tt, fired).
Proof.
  intros Hw Hself fired.
  destruct (registered_then_fired w obj task args j [] Hw Hself)
    as (Hf & Htr & Hp & _).
  { unfold exec_all. cbn [foldl].
    rewrite track_pending, fmap_app. apply elem_of_app. right. left. }
  unfold exec_all in Hf, Htr, Hp. cbn [foldl] in Hf, Htr, Hp. subst fired.
  rewrite (total_unit _ _ (cancelTask_total _)). f_equal.
  apply cancelTask_unknown; [done..|].
  unfold run. rewrite (fire_self_cleaning _ _ j obj task args
    (track_find obj j w Hw) Hself).
  cbn [registeredTimers with_calls with_timers with_pending snd].
  rewrite lookup_alter, decide_True, track_lookup by done. by eexists.
Qed.

(** With a set for the owner, [cancelTask(obj, id)] does not reach
    [registerDisposable]: it deletes, cancels and returns. *)
Lemma cancelTask_registered obj id w :
  is_Some (registeredTimers w !! obj) →
  cancelTask (For obj id) w = (Ok tt, run (cancelTask (For obj id)) w).
Proof.
  intros [s Hs]. unfold run, cancelTask, getTimers, timers_delete, cancel.
  step. rewrite Hs. by step.
Qed.

Lemma cancelTask_creates obj id w :
  registeredTimers w !! obj = None →
  let w' := run (cancelTask (For obj id)) w in
  registeredTimers w' !! obj = Some [] ∧
  disposables obj w' = disposables obj w ++ [getTimersDisposable obj] ∧
  (id ∉ (pending w).*1 → w' = run (getTimers obj) w).
Proof.
  intros Hnone w'. subst w'. rewrite cancelTask_For. split_and!.
  - cbn [registeredTimers with_pending with_timers].
    rewrite lookup_alter, decide_True, getTimers_lookup, decide_True by done.
    unfold tracked. by rewrite Hnone.
  - unfold disposables, run, getTimers, registerDisposable. step.
    rewrite Hnone. step.
    cbn [modify snd registeredDisposables with_pending with_timers
         with_disposables].
    by rewrite lookup_insert_eq.
  - intros Hp. rewrite with_pending_same;
      [|cbn [pending with_timers]; rewrite getTimers_pending;
        by apply filter_not_pending].
    apply with_timers_same, alter_id_on. intros s.
    rewrite getTimers_lookup, decide_True by done. unfold tracked.
    rewrite Hnone. by intros [= <-].
Qed.

(** C8, as the code has it.  The one-argument [cancelTask], and
    [cancelTask(obj, id)] for an owner that has a timer set, never throw;
    cancelling twice is cancelling once.  When the identifier is not
    pending in the run loop (it is unknown to it, has fired or was
    cancelled) nothing is cancelled and nothing runs, and in the sets only
    that identifier can go.  For an owner that has a set, and an
    identifier that is not in it, the call leaves the world exactly as it
    found it: so it is after a timer of [runTask] or [scheduleTask] fired,
    and after a first [cancelTask(obj, id)].  For an owner that has no set
    the call is not without effect: [getTimers] creates the empty set and
    registers its disposable.
    [cancelDebounce] never throws and leaves the world exactly as found
    when the owner has no debounce map or no pending entry of that name. *)
Theorem cancellation_is_safe w :
  (∀ id, cancelTask (Legacy id) w = (Ok tt, run (cancelTask (Legacy id)) w)) ∧
  (∀ obj id,
     is_Some (registeredTimers w !! obj) →
     cancelTask (For obj id) w = (Ok tt, run (cancelTask (For obj id)) w)) ∧
  (∀ arguments, run (cancelTask arguments) (run (cancelTask arguments) w) =
                  run (cancelTask arguments) w) ∧
  (∀ arguments,
     cancelled_id arguments ∉ (pending w).*1 →
     let w' := run (cancelTask arguments) w in
     pending w' = pending w ∧ nextTimer w' = nextTimer w ∧
     calls w' = calls w ∧ heap w' = heap w ∧
     registeredDebounces w' = registeredDebounces w ∧
     ∀ obj id, id ≠ cancelled_id arguments →
               id ∈ tracked obj w' ↔ id ∈ tracked obj w) ∧
  (∀ id, id ∉ (pending w).*1 → run (cancelTask (Legacy id)) w = w) ∧
  (∀ obj id,
     id ∉ (pending w).*1 → id ∉ tracked obj w →
     is_Some (registeredTimers w !! obj) →
     cancelTask (For obj id) w = (Ok tt, w)) ∧
  (∀ obj id,
     registeredTimers w !! obj = None →
     let w' := run (cancelTask (For obj id)) w in
     registeredTimers w' !! obj = Some [] ∧
     disposables obj w' = disposables obj w ++ [getTimersDisposable obj] ∧
     (id ∉ (pending w).*1 → w' = run (getTimers obj) w)) ∧
  (∀ obj taskOrName timeout id w1,
     wf w → runTask obj taskOrName timeout w = (Ok id, w1) →
     let fired := run (fire id) w1 in
     cancelTask (For obj id) fired = (Ok tt, fired)) ∧
  (∀ obj queueName taskOrName args id w1,
     wf w → scheduleTask obj queueName taskOrName args w = (Ok id, w1) →
     let fired := run (fire id) w1 in
     cancelTask (For obj id) fired = (Ok tt, fired)) ∧
  (∀ obj id,
     let cancelled := run (cancelTask (For obj id)) w in
     cancelTask (For obj id) cancelled = (Ok tt, cancelled)) ∧
  (∀ obj name, cancelDebounce obj name w =
                 (Ok tt, run (cancelDebounce obj name) w)) ∧
  (∀ obj name, registeredDebounces w !! obj = None →
               cancelDebounce obj name w = (Ok tt, w)) ∧
  (∀ obj name, JSMap.get name (debounces obj w) = None →
               cancelDebounce obj name w = (Ok tt, w)).
Proof.
  split_and!.
  - done.
  - intros obj id. apply cancelTask_registered.
  - intros a. apply cancelTask_idempotent.
  - intros a Hp w'. subst w'. rewrite cancelTask_pending.
    split; [by apply filter_not_pending|].
    destruct a as [id|obj id]; [done|].
    rewrite cancelTask_For. simpl.
    rewrite getTimers_nextTimer, getTimers_calls, getTimers_heap,
      getTimers_debounces. split_and!; try done.
    intros obj' id' Hne. rewrite <- cancelTask_For, cancelTask_tracked.
    case_decide; [subst|done]. rewrite JSSetFacts.elem_of_delete. tauto.
  - intros id. apply cancelTask_Legacy_unknown.
  - intros obj id Hp Ht Hreg. rewrite cancelTask_registered by done.
    f_equal. by apply cancelTask_unknown.
  - intros obj id. apply cancelTask_creates.
  - intros obj t timeout id w1 Hw Hrun fired.
    pose proof (runTask_cases obj t timeout w) as Hc.
    destruct (passes_runTask obj t w); [|destruct Hc as [e He]; congruence].
    destruct Hc as (task & Ht & Hr). rewrite Hr in Hrun.
    injection Hrun as <- <-.
    apply (cancel_after_fire w obj task []); [done|]. left. eauto.
  - intros obj q t args id w1 Hw Hrun fired.
    destruct (scheduleTask_returns obj q t args w id w1 Hrun)
      as (q' & task & -> & Ht & -> & ->).
    apply (cancel_after_fire w obj task args); [done|]. right. eauto.
  - intros obj id cancelled. rewrite cancelTask_registered.
    + f_equal. apply cancelTask_idempotent.
    + unfold cancelled. rewrite cancelTask_For. simpl.
      rewrite lookup_alter, getTimers_lookup, !decide_True by done.
      by eexists.
  - intros obj name. apply total_unit, cancelDebounce_total.
  - intros obj name Hnone. apply cancelDebounce_absent.
    unfold debounces. by rewrite Hnone.
  - intros obj name. apply cancelDebounce_absent.
Qed.

Lemma cancellation_is_safe_witness :
  let w1 := run (runTask 0 (VString "doStuff") VUndefined) sample in
  let fired := run (fire 0) w1 in
  wf sample ∧
  (42 ∉ (pending w1).*1) ∧ (42 ∉ tracked 0 w1) ∧
  is_Some (registeredTimers w1 !! 0) ∧
  cancelTask (For 0 42) w1 = (Ok tt, w1) ∧
  cancelTask (For 0 0) fired = (Ok tt, fired) ∧
  registeredTimers sample !! 0 = None ∧
  registeredTimers (run (cancelTask (For 0 42)) sample) !! 0 = Some [] ∧
  registeredDebounces sample !! 0 = None ∧
  cancelDebounce 0 "doStuff" sample = (Ok tt, sample).
Proof.
  intros w1 fired.
  assert (wf sample) as Hw by (apply wf_with_heap, wf_init).
  assert (42 ∉ (pending w1).*1) as Hp
    by (apply (bool_decide_unpack _); vm_compute; exact I).
  assert (42 ∉ tracked 0 w1) as Ht
    by (apply (bool_decide_unpack _); vm_compute; exact I).
  assert (is_Some (registeredTimers w1 !! 0)) as Hs by (by eexists).
  destruct (cancellation_is_safe w1) as (_ & _ & _ & _ & _ & H6 & _).
  destruct (cancellation_is_safe sample)
    as (_ & _ & _ & _ & _ & _ & H7 & H8 & _ & _ & _ & H12 & _).
  split_and!; [exact Hw | exact Hp | exact Ht | exact Hs
              | exact (H6 0 42 Hp Ht Hs)
              | exact (H8 0 (VString "doStuff") VUndefined 0 _ Hw eq_refl)
              | reflexivity
              | exact (proj1 (H7 0 42 eq_refl))
              | reflexivity
              | exact (H12 0 "doStuff" eq_refl)].
Defined.

(** C8 as stated fails: for an owner that has scheduled nothing yet,
    [cancelTask(obj, id)] with an unknown identifier is not a no-op.  The
    owner leaves the call with a timer set, empty, and with the disposable
    of that set registered. *)
Lemma cancelTask_not_noop :
  (42 ∉ (pending sample).*1) ∧
  registeredTimers sample !! 0 = None ∧
  disposables 0 sample = [] ∧
  cancelTask (For 0 42) sample ≠ (Ok tt, sample) ∧
  registeredTimers (run (cancelTask (For 0 42)) sample) !! 0 = Some [] ∧
  disposables 0 (run (cancelTask (For 0 42)) sample) = [TimersDisposable 0].
Proof.
  split_and!; [apply not_elem_of_nil|reflexivity|reflexivity| |
               reflexivity|reflexivity].
  intros Heq. apply (f_equal (λ r, registeredTimers r.2 !! 0)) in Heq.
  vm_compute in Heq. discriminate.
Qed.

(** ** [throttleTask] (C10) *)

Section is_tracked.
Context (obj : obj_id) (id : timer_id).

Local Abbreviation kept := (preserves (is_tracked obj id)).

Lemma kept_getTimers o : kept (getTimers o).
Proof. intros w. unfold is_tracked. by rewrite getTimers_tracked. Qed.

Lemma kept_timers_add o i : kept (timers_add o i).
Proof.
  intros w. unfold is_tracked, tracked, timers_add. rewrite run_modify. simpl.
  rewrite lookup_alter. case_decide; [subst|done].
  destruct (registeredTimers w !! obj); simpl; [|done].
  intros ?. apply JSSetFacts.elem_of_add. by right.
Qed.

Lemma kept_timers_delete o i :
  o ≠ obj ∨ i ≠ id → kept (timers_delete o i).
Proof.
  intros Hne w. unfold is_tracked, tracked, timers_delete.
  rewrite run_modify. simpl.
  rewrite lookup_alter. case_decide; [subst|done].
  destruct (registeredTimers w !! obj); simpl; [|done].
  intros ?. apply JSSetFacts.elem_of_delete. split; [|done].
  intros ->. by destruct Hne.
Qed.

Lemma kept_timers_clear o : o ≠ obj → kept (timers_clear o).
Proof.
  intros Hne w. unfold is_tracked, tracked, timers_clear.
  rewrite run_modify. simpl. by rewrite lookup_alter, decide_False.
Qed.

Ltac kept :=
  repeat first
    [ apply kept_getTimers | apply kept_timers_add
    | apply preserves_ret | apply preserves_throw | apply preserves_gets
    | apply preserves_assert | apply preserves_bind
    | apply preserves_forEach; intros ? _
    | apply preserves_modify; intros ? ?; assumption
    | (intros ? ?; assumption)
    | match goal with |- ∀ _, _ => intros ? end
    | match goal with
      |- preserves _ (match ?x with _ => _ end) => destruct x
      end
    | match goal with |- preserves _ (if ?x then _ else _) => destruct x end ].

Lemma kept_runTask o t timeout : kept (runTask o t timeout).
Proof. unfold runTask, getTask, later, issue. kept. Qed.

Lemma kept_scheduleTask o q t args : kept (scheduleTask o q t args).
Proof. unfold scheduleTask, getTask, schedule, issue. kept. Qed.

Lemma kept_throttleTask o n args : kept (throttleTask o n args).
Proof.
  unfold throttleTask, throttle, issue, call_user. cbv zeta. kept.
Qed.

Lemma kept_debounceTask o n args : kept (debounceTask o n args).
Proof.
  unfold debounceTask, debounce, issue, registerDisposable, new_closure.
  cbv zeta. kept.
Qed.

Lemma kept_cancelDebounce o n : kept (cancelDebounce o n).
Proof. unfold cancelDebounce, cancel. kept. Qed.

Lemma kept_cancelTask a : a ≠ For obj id → kept (cancelTask a).
Proof.
  destruct a as [i|o i]; intros Hne; simpl.
  - unfold cancel. kept.
  - apply preserves_bind; [apply kept_getTimers|]. intros _.
    apply preserves_bind; [|intros _; unfold cancel; kept].
    apply kept_timers_delete.
    destruct (decide (o = obj)) as [->|]; [|by left].
    right. by intros ->.
Qed.

Lemma kept_dispose d : disposable_owner d ≠ obj → kept (dispose d).
Proof.
  destruct d as [o|o]; simpl; intros Hne.
  - apply preserves_bind; [apply preserves_gets|]. intros timers.
    apply preserves_bind; [|intros _; by apply kept_timers_clear].
    apply preserves_forEach. intros i _.
    apply (kept_cancelTask (For o i)). congruence.
  - unfold cancel. kept.
Qed.

Lemma kept_runDisposables o w :
  wf w → o ≠ obj → is_tracked obj id w →
  is_tracked obj id (run (runDisposables o) w).
Proof.
  intros Hw Hne Hin. unfold run, runDisposables. step.
  destruct (registeredDisposables w !! o) as [ds|] eqn:Hds; [|done]. step.
  apply (preserves_forEach (is_tracked obj id)); [|done].
  intros d Hd. apply kept_dispose.
  pose proof (wf_disposables w Hw o ds Hds) as Hown.
  rewrite Forall_forall in Hown. by rewrite (Hown d Hd).
Qed.

Lemma kept_fire i w :
  wf w → throttle_tracked obj id w → is_tracked obj id (run (fire i) w).
Proof.
  intros Hw (Hin & _ & Hshape). unfold run, fire. step.
  destruct (find_timer i (pending w)) as [j|] eqn:Hj; [|done].
  apply find_timer_Some in Hj. unfold cancel. step.
  pose proof (wf_jobs w Hw) as Hjobs. rewrite Forall_forall in Hjobs.
  pose proof (Hjobs _ Hj) as Hok. simpl in Hok.
  assert (∀ o, o ≠ obj ∨ i ≠ id ∨
               ∃ target method wait, j = Throttled target method wait) as Hne.
  { intros o. destruct (decide (i = id)) as [->|]; [|by auto].
    right. right. by apply Hshape. }
  destruct j as [cb wait|q target cb args|target f wait|target cb args wait];
    [| |done|]; destruct cb as [o c t|o c t|cid o n]; simpl in Hok; try done.
  - subst c.
    apply (preserves_bind (is_tracked obj id)); [| |done].
    + apply kept_timers_delete.
      destruct (Hne o) as [?|[?|(? & ? & ? & ?)]]; by auto.
    + intros _. unfold call_user. kept.
  - destruct Hok as [-> _].
    apply (preserves_bind (is_tracked obj id)); [| |done].
    + apply kept_timers_delete.
      destruct (Hne o) as [?|[?|(? & ? & ? & ?)]]; by auto.
    + intros _. unfold call_user. kept.
  - simpl. step. destruct (get_prop o n _); done.
Qed.

Lemma kept_exec a w :
  wf w → throttle_tracked obj id w →
  a ≠ CancelTask (For obj id) → a ≠ RunDisposables obj →
  is_tracked obj id (exec a w).
Proof.
  intros Hw Hthr Hc Hd. pose proof Hthr as (Hin & _).
  destruct a; simpl.
  - by apply kept_runTask.
  - by apply kept_scheduleTask.
  - by apply kept_throttleTask.
  - by apply kept_debounceTask.
  - apply kept_cancelTask; [congruence|done].
  - by apply kept_cancelDebounce.
  - apply kept_runDisposables; [done|congruence|done].
  - by apply kept_fire.
  - done.
  - done.
Qed.

End is_tracked.

Lemma throttle_tracked_exec obj id a w :
  wf w → throttle_tracked obj id w →
  a ≠ CancelTask (For obj id) → a ≠ RunDisposables obj →
  throttle_tracked obj id (exec a w).
Proof.
  intros Hw Hthr Hc Hd. split; [by apply kept_exec|].
  destruct Hthr as (_ & Hlt & Hshape).
  destruct (exec_all_grown [a] w) as [Hle Hold]. simpl in Hle, Hold.
  split; [lia|]. intros j Hj.
  destruct (Hold _ Hj) as [?|?]; [by apply Hshape|simpl in *; lia].
Qed.

Lemma throttle_tracked_exec_all obj id acts w :
  wf w → throttle_tracked obj id w →
  Forall (λ a, a ≠ CancelTask (For obj id) ∧ a ≠ RunDisposables obj) acts →
  throttle_tracked obj id (exec_all acts w).
Proof.
  revert w. induction acts as [|a acts IH]; intros w Hw Hthr Hacts; [done|].
  apply Forall_cons in Hacts as [[Hc Hd] Hacts]. simpl.
  apply IH; [by apply wf_exec|by apply throttle_tracked_exec|done].
Qed.

Lemma find_throttled_Some target method l id :
  find_throttled target method l = Some id →
  ∃ wait, (id, Throttled target method wait) ∈ l.
Proof.
  induction l as [|[id' j] l IH]; cbn [find_throttled]; [done|].
  destruct j as [| |target' method' wait|];
    try (intros [wt ?]%IH; exists wt; by right).
  case_decide as Heq.
  - destruct Heq as [-> ->]. intros [= ->]. exists wait. left.
  - intros [wt ?]%IH. exists wt. by right.
Qed.

Lemma throttle_result target methodName args id w w' :
  wf w → throttle target methodName args w = (Ok id, w') →
  registeredTimers w' = registeredTimers w ∧
  ∃ method wait, (id, Throttled target method wait) ∈ pending w'.
Proof.
  intros Hw. unfold throttle. step.
  destruct (get_prop target methodName w) as [| | | | |f|]; try done.
  cbv zeta. step.
  destruct (find_throttled target f (pending w)) as [id'|] eqn:Hfind.
  - intros [= -> <-]. split; [done|].
    apply find_throttled_Some in Hfind as [wait ?]. eauto.
  - rewrite bind_issue. unfold call_user. step. intros [= <- <-].
    split; [done|]. simpl. eexists _, _. apply elem_of_app. right. left.
Qed.

Lemma throttleTask_tracked obj taskName throttleArgs id w w1 :
  wf w → throttleTask obj taskName throttleArgs w = (Ok id, w1) →
  wf w1 ∧ throttle_tracked obj id w1.
Proof.
  intros Hw Hrun.
  assert (wf w1) as Hw1.
  { pose proof (wf_throttleTask obj taskName throttleArgs w Hw) as H.
    unfold run in H. by rewrite Hrun in H. }
  split; [done|].
  pose proof (throttleTask_cases obj taskName throttleArgs w) as Hc.
  destruct (passes_named obj taskName throttleArgs w);
    [|destruct Hc as [e He]; congruence].
  destruct Hc as (name & id' & -> & Hthr & Hr). rewrite Hr in Hrun.
  injection Hrun as -> <-.
  apply throttle_result in Hthr as (Htimers & method & wait & Hin);
    [|by apply wf_getTimers].
  set (w' := run (throttle obj name throttleArgs) (run (getTimers obj) w))
    in *.
  assert (pending (run (timers_add obj id) w') = pending w') as Hp by done.
  assert (nextTimer (run (timers_add obj id) w') = nextTimer w') as Hn by done.
  split_and!.
  - unfold is_tracked, tracked, timers_add. rewrite run_modify. simpl.
    rewrite lookup_alter, decide_True, Htimers, getTimers_lookup, decide_True
      by done.
    simpl. apply JSSetFacts.elem_of_add. by left.
  - pose proof (wf_fresh _ Hw1) as Hfresh. rewrite Forall_forall in Hfresh.
    rewrite Hp in Hfresh. apply (Hfresh _ Hin).
  - intros j Hj. rewrite Hp in Hj.
    pose proof (wf_nodup _ Hw1) as Hnd. rewrite Hp in Hnd.
    apply (find_timer_elem _ _ _ Hnd) in Hin, Hj.
    rewrite Hin in Hj. injection Hj as <-. eauto.
Qed.

Lemma tracked_timers_clear obj w :
  tracked obj (run (timers_clear obj) w) = [].
Proof.
  unfold timers_clear, tracked. rewrite run_modify. simpl.
  rewrite lookup_alter, decide_True by done.
  by destruct (registeredTimers w !! obj).
Qed.

Lemma dispose_timers obj w :
  dispose (TimersDisposable obj) w =
  (Ok tt,
   run (timers_clear obj)
     (run (forEach (tracked obj w) (λ cancelId, cancelTask (For obj cancelId)))
        w)).
Proof.
  unfold dispose. step. rewrite (bind_total (forEach _ _)).
  - apply total_unit, total_modify.
  - apply total_forEach. intros i. apply (cancelTask_total (For obj i)).
Qed.

(** C10: the identifier [throttleTask] returns is in the set tracked for
    the owner, and stays there through anything that happens afterwards
    (the throttled call, the closing of the window, any other timer firing,
    any other call of the addon) as long as neither [cancelTask(O, id)] nor
    the disposables of [O] run.  Each of these two takes it out. *)
Theorem throttle_timer_stays_tracked obj taskName throttleArgs id w w1 :
  wf w →
  throttleTask obj taskName throttleArgs w = (Ok id, w1) →
  id ∈ tracked obj w1 ∧
  (∀ acts,
     Forall (λ a, a ≠ CancelTask (For obj id) ∧ a ≠ RunDisposables obj) acts →
     id ∈ tracked obj (exec_all acts w1)) ∧
  (∀ acts, id ∉ tracked obj (exec (CancelTask (For obj id))
                               (exec_all acts w1))) ∧
  (∀ acts, tracked obj (run (dispose (getTimersDisposable obj))
                          (exec_all acts w1)) = []).
Proof.
  intros Hw Hrun.
  destruct (throttleTask_tracked _ _ _ _ _ _ Hw Hrun) as [Hw1 Hthr].
  split_and!.
  - apply Hthr.
  - intros acts Hacts.
    by apply (throttle_tracked_exec_all obj id acts w1 Hw1 Hthr Hacts).
  - intros acts. unfold exec. rewrite cancelTask_tracked, decide_True by done.
    rewrite JSSetFacts.elem_of_delete. by intros [? _].
  - intros acts. unfold run at 1, getTimersDisposable.
    rewrite dispose_timers. apply tracked_timers_clear.
Qed.

Lemma throttle_timer_stays_tracked_witness :
  wf sample ∧
  let w1 := run (throttleTask 0 (VString "doStuff") [VString "a"; int 5])
              sample in
  let acts := [ThrottleTask 0 (VString "doStuff") [VString "b"; int 5];
               Fire 0; RunTask 0 (VString "other") VUndefined; Fire 1] in
  Forall (λ a, a ≠ CancelTask (For 0 0) ∧ a ≠ RunDisposables 0) acts ∧
  0 ∈ tracked 0 w1 ∧
  0 ∈ tracked 0 (exec_all acts w1).
Proof.
  assert (wf sample) as Hw by (apply wf_with_heap, wf_init).
  destruct (throttle_timer_stays_tracked 0 (VString "doStuff")
              [VString "a"; int 5] 0 sample _ Hw eq_refl) as (H1 & H2 & _).
  split; [exact Hw|]. cbv zeta.
  assert (Forall (λ a, a ≠ CancelTask (For 0 0) ∧ a ≠ RunDisposables 0)
            [ThrottleTask 0 (VString "doStuff") [VString "b"; int 5];
             Fire 0; RunTask 0 (VString "other") VUndefined; Fire 1])
    as Hacts by (repeat constructor; discriminate).
  split_and!; [exact Hacts | exact H1 | exact (H2 _ Hacts)].
Defined.

(** ** The disposables (C2) *)

Lemma run_bind_total {B} (m : M unit) (k : unit → M B) w :
  total m → run (bind m k) w = run (k tt) (run m w).
Proof. intros Hm. unfold run at 1. by rewrite bind_total. Qed.

Lemma filter_all {A} (P : A → Prop) `{∀ x, Decision (P x)} (l : list A) :
  (∀ x, P x) → filter P l = l.
Proof.
  intros HP. induction l as [|x l IH]; [done|].
  by rewrite filter_cons_True, IH.
Qed.

Lemma forEach_cancelTask_pending obj l w :
  pending (run (forEach l (λ cancelId, cancelTask (For obj cancelId))) w) =
  filter (λ e, e.1 ∉ l) (pending w).
Proof.
  revert w. induction l as [|i l IH]; intros w.
  - unfold run. simpl. symmetry. apply filter_all. intros e. apply not_elem_of_nil.
  - cbn [forEach].
    rewrite run_bind_total by apply (cancelTask_total (For obj i)).
    rewrite IH, cancelTask_pending, list_filter_filter.
    apply list_filter_iff. intros e. simpl. rewrite not_elem_of_cons. tauto.
Qed.

(** The disposable of the timers cancels every identifier of the set and
    empties the set. *)
Lemma timers_disposable_sweeps obj w :
  let w' := run (dispose (getTimersDisposable obj)) w in
  dispose (getTimersDisposable obj) w = (Ok tt, w') ∧
  tracked obj w' = [] ∧
  ∀ id, id ∈ tracked obj w → id ∉ (pending w').*1.
Proof.
  intros w'. subst w'. unfold getTimersDisposable, run at 1 2 3.
  rewrite dispose_timers. split_and!; [done|apply tracked_timers_clear|].
  intros id Hid. cbn [snd]. unfold timers_clear. rewrite run_modify.
  cbn [pending with_timers]. rewrite forEach_cancelTask_pending.
  intros (e & -> & [He _]%list_elem_of_filter)%list_elem_of_fmap. done.
Qed.

Lemma forEach_cancel_world {A} (l : list A) (f : A → timer_id) w :
  forEach l (λ x, cancel (f x)) w =
  (Ok tt, with_pending (filter (λ e, e.1 ∉ f <$> l)) w).
Proof.
  revert w. induction l as [|x l IH]; intros w.
  - simpl. unfold ret. f_equal. symmetry. apply with_pending_same.
    apply filter_all. intros e. apply not_elem_of_nil.
  - cbn [forEach]. unfold cancel at 1. step. rewrite IH. f_equal.
    destruct w. unfold with_pending. simpl. f_equal.
    rewrite list_filter_filter.
    apply list_filter_iff. intros e. simpl. rewrite not_elem_of_cons. tauto.
Qed.

(** The disposable of the debounces cancels the timer of every entry of
    the debounce map; it does not touch the map. *)
Lemma debounces_disposable_cancels obj w :
  let w' := run (dispose (getDebouncesDisposable obj)) w in
  dispose (getDebouncesDisposable obj) w = (Ok tt, w') ∧
  registeredDebounces w' = registeredDebounces w ∧
  ∀ name p, JSMap.get name (debounces obj w) = Some p →
            cancelId p ∉ (pending w').*1.
Proof.
  intros w'. subst w'. unfold getDebouncesDisposable, run, dispose. step.
  destruct (JSMap.size (debounces obj w) =? 0) eqn:Hsize.
  - split_and!; [done..|]. intros name p Hp.
    apply Nat.eqb_eq in Hsize. unfold JSMap.size in Hsize.
    apply nil_length_inv in Hsize. by rewrite Hsize in Hp.
  - rewrite (forEach_cancel_world _ (λ p, cancelId p.2)).
    split_and!; [done..|]. intros name p Hp%JSMapFacts.get_Some_elem. simpl.
    intros (e & He & [Hne _]%list_elem_of_filter)%list_elem_of_fmap.
    apply Hne. rewrite <- He. apply list_elem_of_fmap. by exists (name, p).
Qed.

(** A timer that has left the run loop never comes back, so it never
    fires. *)
Lemma never_pending_again id acts w :
  wf w → id < nextTimer w → id ∉ (pending w).*1 →
  (id ∉ (pending (exec_all acts w)).*1) ∧
  fire id (exec_all acts w) = (Ok tt, exec_all acts w).
Proof.
  intros Hw Hlt Hid.
  assert (id ∉ (pending (exec_all acts w)).*1) as Hnot.
  { intros (e & -> & He)%list_elem_of_fmap.
    destruct (exec_all_grown acts w) as [_ Hold].
    destruct (Hold _ He) as [Hin|Hge]; [|lia].
    apply Hid, list_elem_of_fmap. eauto. }
  split; [done|]. unfold fire. step.
  apply find_timer_None in Hnot. by rewrite Hnot.
Qed.

(** C2, where the code departs from it: one debounce is pending for the
    owner when its disposables run.  The timer of the debounce is
    cancelled, and the debounce map of the owner still holds the entry: only
    the disposable of the timers clears its collection. *)
Theorem debounce_map_survives_disposal :
  let w1 := run (debounceTask 0 (VString "doStuff") [int 10]) sample in
  let w2 := run (runDisposables 0) w1 in
  runDisposables 0 w1 = (Ok tt, w2) ∧
  pending w1 = [(0, Debounced 0 (DebouncedTask 0 0 "doStuff") [] (int 10))] ∧
  pending w2 = [] ∧
  debounces 0 w2 =
    [("doStuff", {| debouncedTask := DebouncedTask 0 0 "doStuff";
                    cancelId := 0 |})] ∧
  debounces 0 w2 ≠ [].
Proof. split_and!; [vm_compute; reflexivity..|by vm_compute]. Qed.

(** ** Debounce (C7) *)

Lemma debounced_heap obj name args w :
  heap (debounced obj name args w) = heap w.
Proof.
  unfold debounced, ensure_debounces. cbv zeta.
  by destruct (registeredDebounces w !! obj), (JSMap.get name _).
Qed.

Lemma debounced_calls obj name args w :
  calls (debounced obj name args w) = calls w.
Proof.
  unfold debounced, ensure_debounces. cbv zeta.
  by destruct (registeredDebounces w !! obj), (JSMap.get name _).
Qed.

Lemma debounced_entry obj name args w :
  JSMap.get name (debounces obj (debounced obj name args w)) =
  Some {| debouncedTask := debounce_closure obj name w;
          cancelId := nextTimer w |}.
Proof.
  unfold debounces at 1. rewrite debounced_lookup, decide_True by done.
  simpl. apply JSMapFacts.get_set_eq.
Qed.

Lemma debounce_closure_debounced obj name args w :
  debounce_closure obj name (debounced obj name args w) =
  debounce_closure obj name w.
Proof. unfold debounce_closure at 1. by rewrite debounced_entry. Qed.

Lemma exec_DebounceTask obj name f args w :
  get_prop obj name w = VFunction f → destroyed obj w = false →
  isInteger (wait_of args) = true →
  exec (DebounceTask obj (VString name) args) w = debounced obj name args w.
Proof.
  intros Hf Hd Hi. unfold exec, run.
  by rewrite (debounceTask_ok w obj name args f Hf Hd Hi).
Qed.

(** In a well-formed world the run loop holds at most one entry for the
    debounce of a name on an owner, the one whose identifier the debounce
    map records. *)
Lemma one_debounce_per_name obj name w e :
  wf w → e ∈ pending w → debounce_of obj name e →
  ∃ cid args wait,
    e = (e.1, Debounced obj (DebouncedTask cid obj name) args wait) ∧
    JSMap.get name (debounces obj w) =
      Some {| debouncedTask := DebouncedTask cid obj name; cancelId := e.1 |}.
Proof.
  intros Hw Hin Hof.
  pose proof (wf_jobs w Hw) as Hjobs. rewrite Forall_forall in Hjobs.
  pose proof (wf_recorded w Hw) as Hrec. rewrite Forall_forall in Hrec.
  specialize (Hjobs _ Hin). specialize (Hrec _ Hin).
  destruct e as [id j]. unfold debounce_of in Hof. simpl in *.
  destruct j as [| | |target [| |cid obj' name'] args wait]; try done.
  destruct Hof as [-> ->]. simpl in Hjobs. subst target.
  by exists cid, args, wait.
Qed.

Lemma at_most_one_debounce obj name w e1 e2 :
  wf w → e1 ∈ pending w → e2 ∈ pending w →
  debounce_of obj name e1 → debounce_of obj name e2 → e1 = e2.
Proof.
  intros Hw Hin1 Hin2 Hof1 Hof2.
  destruct (one_debounce_per_name obj name w e1 Hw Hin1 Hof1)
    as (cid1 & args1 & wait1 & He1 & Hg1).
  destruct (one_debounce_per_name obj name w e2 Hw Hin2 Hof2)
    as (cid2 & args2 & wait2 & He2 & Hg2).
  rewrite Hg1 in Hg2. injection Hg2 as _ Hid.
  pose proof (wf_nodup w Hw) as Hnd.
  destruct e1 as [id1 j1], e2 as [id2 j2]. simpl in *. subst id2.
  apply (find_timer_elem _ _ _ Hnd) in Hin1, Hin2.
  rewrite Hin1 in Hin2. by injection Hin2 as ->.
Qed.

Lemma filter_none {A} (P : A → Prop) `{∀ x, Decision (P x)} (l : list A) :
  (∀ x, x ∈ l → ¬ P x) → filter P l = [].
Proof.
  intros HP. induction l as [|x l IH]; [done|].
  rewrite filter_cons_False by (apply HP; left).
  apply IH. intros y Hy. apply HP. by right.
Qed.

Lemma debounced_one_entry obj name args w :
  wf w →
  filter (debounce_of obj name) (pending (debounced obj name args w)) =
  [(nextTimer w, Debounced obj (debounce_closure obj name w)
                   (removelast args) (wait_of args))].
Proof.
  intros Hw. destruct (debounce_closure_shape obj name w Hw) as [cid Hc].
  rewrite debounced_pending, filter_app.
  rewrite (filter_cons_True _ (_, _)), filter_nil
    by (unfold debounce_of; simpl; by rewrite Hc).
  rewrite filter_none; [done|].
  intros e [Hns Hin]%list_elem_of_filter Hof. apply Hns.
  destruct (one_debounce_per_name obj name w e Hw Hin Hof)
    as (cid' & args' & wait' & -> & Hg).
  unfold same_debounce, debounce_closure. simpl. by rewrite Hg.
Qed.

Lemma fire_debounced w id cid obj name args wait f :
  find_timer id (pending w) =
    Some (Debounced obj (DebouncedTask cid obj name) args wait) →
  get_prop obj name w = VFunction f →
  fire id w =
  (Ok tt,
   with_calls (λ l, l ++
     [ {| callee := f; this := obj; arguments := args;
          timers_seen := registeredTimers w;
          debounces_seen :=
            alter (JSMap.delete name) obj (registeredDebounces w) |} ])
     (with_debounces (alter (JSMap.delete name) obj)
        (with_pending (filter (λ e, e.1 ≠ id)) w))).
Proof.
  intros Hj Hf. unfold fire. step. rewrite Hj. unfold cancel. step.
  cbn [invoke]. step.
  change (get_prop obj name (with_debounces _ (with_pending _ w)))
    with (get_prop obj name w).
  by rewrite Hf.
Qed.

Lemma burst_world obj name f argss args w :
  wf w → get_prop obj name w = VFunction f → destroyed obj w = false →
  Forall (λ a, isInteger (wait_of a) = true) (argss ++ [args]) →
  let ws := exec_all (burst obj name (argss ++ [args])) w in
  wf ws ∧ heap ws = heap w ∧ calls ws = calls w ∧
  burst_entries obj name (argss ++ [args]) w =
    (λ i, Some {| debouncedTask := debounce_closure obj name w;
                  cancelId := nextTimer w + i |})
      <$> seq 0 (S (length argss)) ∧
  filter (debounce_of obj name) (pending ws) =
    [(nextTimer w + length argss,
      Debounced obj (debounce_closure obj name w) (removelast args)
        (wait_of args))].
Proof.
  revert w. induction argss as [|a argss IH]; intros w Hw Hf Hd Hint.
  - apply Forall_app in Hint as [_ Hint]. apply Forall_inv in Hint.
    change (exec_all (burst obj name ([] ++ [args])) w)
      with (exec (DebounceTask obj (VString name) args) w).
    change (burst_entries obj name ([] ++ [args]) w)
      with [JSMap.get name (debounces obj
              (exec (DebounceTask obj (VString name) args) w))].
    rewrite (exec_DebounceTask obj name f args w Hf Hd Hint).
    cbv zeta. cbn [length seq fmap list_fmap].
    rewrite debounced_entry, !Nat.add_0_r.
    split_and!; [by apply wf_debounced|apply debounced_heap
                |apply debounced_calls|done|by apply debounced_one_entry].
  - rewrite <- app_comm_cons in Hint. apply Forall_cons in Hint as [Ha Hint].
    change (exec_all (burst obj name ((a :: argss) ++ [args])) w)
      with (exec_all (burst obj name (argss ++ [args]))
              (exec (DebounceTask obj (VString name) a) w)).
    change (burst_entries obj name ((a :: argss) ++ [args]) w)
      with (JSMap.get name (debounces obj
              (exec (DebounceTask obj (VString name) a) w)) ::
            burst_entries obj name (argss ++ [args])
              (exec (DebounceTask obj (VString name) a) w)).
    rewrite (exec_DebounceTask obj name f a w Hf Hd Ha).
    set (w' := debounced obj name a w).
    assert (heap w' = heap w) as Hheap by apply debounced_heap.
    destruct (IH w') as (Hws & Hh & Hc & He & Hp).
    { by apply wf_debounced. }
    { unfold get_prop. by rewrite Hheap. }
    { unfold destroyed. by rewrite Hheap. }
    { done. }
    cbv zeta. split_and!.
    + done.
    + by rewrite Hh.
    + rewrite Hc. apply debounced_calls.
    + rewrite He. unfold w'.
      rewrite debounced_entry, debounce_closure_debounced, debounced_nextTimer.
      cbn [length].
      change (seq 0 (S (S (length argss))))
        with (0 :: seq 1 (S (length argss))).
      rewrite fmap_cons, Nat.add_0_r, <- fmap_S_seq, <- list_fmap_compose.
      f_equal. apply list_fmap_ext. intros i x _. simpl. do 2 f_equal. lia.
    + rewrite Hp. unfold w'.
      rewrite debounce_closure_debounced, debounced_nextTimer.
      cbn [length]. do 2 f_equal. lia.
Qed.

Lemma get_alter_delete name obj (m : gmap obj_id (JSMap.t PendingDebounce)) :
  JSMap.get name (default [] (alter (JSMap.delete name) obj m !! obj)) = None.
Proof.
  rewrite lookup_alter, decide_True by done.
  destruct (m !! obj); simpl; [apply JSMapFacts.get_delete_eq|done].
Qed.

(** C7: the run loop never holds two entries for the debounce of one name
    on one owner.  In a burst of calls of [debounceTask] for a name, every
    call hands the run loop the same closure (the one of the entry that was
    pending when the burst began, or a new one) and records a new timer
    identifier, the next one each time; after the burst one entry is
    pending for the name, with the arguments of the last call.  When it
    fires, the method is called once, on the owner, with those arguments,
    and sees a debounce map from which its entry is already gone; nothing
    is left pending for the name. *)
Theorem debounce_burst obj name f argss args w :
  wf w → get_prop obj name w = VFunction f → destroyed obj w = false →
  Forall (λ a, isInteger (wait_of a) = true) (argss ++ [args]) →
  let c := debounce_closure obj name w in
  let last := nextTimer w + length argss in
  let ws := exec_all (burst obj name (argss ++ [args])) w in
  let fired := run (fire last) ws in
  (∀ e1 e2, e1 ∈ pending w → e2 ∈ pending w →
            debounce_of obj name e1 → debounce_of obj name e2 → e1 = e2) ∧
  burst_entries obj name (argss ++ [args]) w =
    (λ i, Some {| debouncedTask := c; cancelId := nextTimer w + i |})
      <$> seq 0 (S (length argss)) ∧
  filter (debounce_of obj name) (pending ws) =
    [(last, Debounced obj c (removelast args) (wait_of args))] ∧
  fire last ws = (Ok tt, fired) ∧
  (∃ inv, calls fired = calls w ++ [inv] ∧
          callee inv = f ∧ this inv = obj ∧
          arguments inv = removelast args ∧
          JSMap.get name (default [] (debounces_seen inv !! obj)) = None) ∧
  filter (debounce_of obj name) (pending fired) = [] ∧
  JSMap.get name (debounces obj fired) = None.
Proof.
  intros Hw Hf Hd Hint c last ws fired.
  destruct (burst_world obj name f argss args w Hw Hf Hd Hint)
    as (Hws & Hheap & Hcalls & Hentries & Hone).
  fold ws in Hws, Hheap, Hcalls, Hone. fold c in Hentries, Hone.
  fold last in Hone.
  destruct (debounce_closure_shape obj name w Hw) as [cid Hc].
  fold c in Hc.
  assert (find_timer last (pending ws) =
            Some (Debounced obj c (removelast args) (wait_of args))) as Hfind.
  { apply find_timer_elem; [apply Hws|].
    assert ((last, Debounced obj c (removelast args) (wait_of args))
              ∈ filter (debounce_of obj name) (pending ws)) as Hin
      by (rewrite Hone; left).
    by apply list_elem_of_filter in Hin as [_ ?]. }
  assert (get_prop obj name ws = VFunction f) as Hfs
    by (unfold get_prop; by rewrite Hheap).
  rewrite Hc in Hfind.
  pose proof (fire_debounced ws last cid obj name _ _ f Hfind Hfs) as Hfire.
  split_and!.
  - intros e1 e2. by apply at_most_one_debounce.
  - done.
  - done.
  - unfold fired, run. by rewrite Hfire.
  - unfold fired, run. rewrite Hfire. eexists. simpl.
    split_and!; [by rewrite Hcalls|done..|apply get_alter_delete].
  - unfold fired, run. rewrite Hfire. simpl. apply filter_none.
    intros e [Hne Hin]%list_elem_of_filter Hof. apply Hne.
    assert (e ∈ filter (debounce_of obj name) (pending ws)) as He
      by by apply list_elem_of_filter.
    rewrite Hone in He. by apply list_elem_of_singleton in He as ->.
  - unfold fired, run. rewrite Hfire. unfold debounces. simpl.
    apply get_alter_delete.
Qed.

Lemma debounce_burst_witness :
  let argss := [[VString "a1"; int 5]; [VString "a2"; int 5]] in
  let args := [VString "a3"; int 5] in
  let ws := exec_all (burst 0 "doStuff" (argss ++ [args])) sample in
  wf sample ∧ get_prop 0 "doStuff" sample = VFunction 7 ∧
  destroyed 0 sample = false ∧
  Forall (λ a, isInteger (wait_of a) = true) (argss ++ [args]) ∧
  burst_entries 0 "doStuff" (argss ++ [args]) sample =
    [Some {| debouncedTask := DebouncedTask 0 0 "doStuff"; cancelId := 0 |};
     Some {| debouncedTask := DebouncedTask 0 0 "doStuff"; cancelId := 1 |};
     Some {| debouncedTask := DebouncedTask 0 0 "doStuff"; cancelId := 2 |}] ∧
  filter (debounce_of 0 "doStuff") (pending ws) =
    [(2, Debounced 0 (DebouncedTask 0 0 "doStuff") [VString "a3"] (int 5))] ∧
  ∃ inv, calls (run (fire 2) ws) = [inv] ∧ callee inv = 7 ∧
         arguments inv = [VString "a3"].
Proof.
  intros argss args ws.
  assert (wf sample) as Hw by (apply wf_with_heap, wf_init).
  assert (Forall (λ a, isInteger (wait_of a) = true) (argss ++ [args]))
    as Hint by (repeat constructor).
  destruct (debounce_burst 0 "doStuff" 7 argss args sample Hw eq_refl eq_refl
              Hint) as (_ & H2 & H3 & _ & (inv & H5 & H6 & _ & H7 & _) & _).
  split_and!; [exact Hw | reflexivity | reflexivity | exact Hint | exact H2
              | exact H3 |].
  exists inv. split_and!; [exact H5 | exact H6 | exact H7].
Defined.

(** ** The tests of the repository, replayed

    The owner of the tests is object 0 of [sample]; its method [doStuff] is
    function 7. *)

(** "invokes async tasks", "invokes named functions as async tasks": the
    task has not run when [runTask] returns; it runs, on the owner, when
    the timer fires. *)
Example test_runTask_invokes :
  let w1 := run (runTask 0 (VString "doStuff") (int 0)) sample in
  calls w1 = [] ∧
  map (λ c, (callee c, this c, arguments c)) (calls (run (fire 0) w1)) =
    [(7, 0, [])].
Proof. by vm_compute. Qed.

(** "runTask tasks can be canceled", "scheduleTask tasks can be canceled":
    both tests cancel with the one-argument form. *)
Example test_tasks_can_be_canceled :
  let w1 := run (runTask 0 (VFunction 7) (int 5)) sample in
  let s1 := run (scheduleTask 0 (VString "actions") (VFunction 7) []) sample in
  calls (run (fire 0) (run (cancelTask (Legacy 0)) w1)) = [] ∧
  calls (run (fire 0) (run (cancelTask (Legacy 0)) s1)) = [].
Proof. by vm_compute. Qed.

(** "runTask tasks removed their cancelIds when run", "scheduleTask tasks
    removed their cancelIds when run": inside the task, the set of the
    owner has size 0. *)
Example test_cancelIds_removed_when_run :
  let w1 := run (runTask 0 (VFunction 7) (int 0)) sample in
  let s1 := run (scheduleTask 0 (VString "actions") (VFunction 7) []) sample in
  map (λ c, length <$> timers_seen c !! 0) (calls (run (fire 0) w1)) =
    [Some 0] ∧
  map (λ c, length <$> timers_seen c !! 0) (calls (run (fire 0) s1)) =
    [Some 0].
Proof. by vm_compute. Qed.

(** "scheduleTask invokes named functions as async tasks": the context is
    the owner and the argument is passed on. *)
Example test_scheduleTask_named :
  let s1 := run (scheduleTask 0 (VString "actions") (VString "doStuff")
                   [VString "foo"]) sample in
  calls s1 = [] ∧
  map (λ c, (callee c, this c, arguments c)) (calls (run (fire 0) s1)) =
    [(7, 0, [VString "foo"])].
Proof. by vm_compute. Qed.

(** "throttleTask actually throttles": three calls in a row, one call of
    the method, with the arguments of the first. *)
Example test_throttleTask_throttles :
  let w3 := exec_all
    [ThrottleTask 0 (VString "doStuff") [VString "a"; int 5];
     ThrottleTask 0 (VString "doStuff") [VString "b"; int 5];
     ThrottleTask 0 (VString "doStuff") [VString "c"; int 5]] sample in
  map (λ c, (callee c, arguments c)) (calls w3) = [(7, [VString "a"])].
Proof. by vm_compute. Qed.

(** The three tests of the assertions of [throttleTask]: a function in
    place of the name, a name that is no method of the owner, a timeout
    that is no number. *)
Example test_throttleTask_assertions :
  (throttleTask 0 (VFunction 7) [int 5] sample).1 = Throw InvalidTaskError ∧
  (throttleTask 0 (VString "missing") [int 5] sample).1 =
    Throw InvalidTaskError ∧
  (throttleTask 0 (VString "doStuff") [VString "bad"] sample).1 =
    Throw InvalidDelayError.
Proof. by vm_compute. Qed.

(** "throttleTask passes arguments to method" *)
Example test_throttleTask_arguments :
  map arguments
    (calls (run (throttleTask 0 (VString "doStuff")
                   [VString "hello"; VString "world"; int 5]) sample)) =
  [[VString "hello"; VString "world"]].
Proof. by vm_compute. Qed.

(** * Further properties of the code *)

(** ** Cancelling what [runTask] and [scheduleTask] returned *)

Lemma scheduled_track obj id w w1 :
  wf w → scheduled obj id w w1 →
  id = nextTimer w ∧ wf w1 ∧
  ∃ task args j, self_cleaning obj task args id j ∧ w1 = track obj j w.
Proof.
  intros Hw Hs.
  assert (id = nextTimer w ∧
          ∃ task args j, self_cleaning obj task args id j ∧
                         w1 = track obj j w) as (-> & task & args & j & Hj & ->).
  { destruct Hs as [(t & timeout & Hrun)|(q & t & args & Hrun)].
    - pose proof (runTask_cases obj t timeout w) as Hc.
      destruct (passes_runTask obj t w); [|destruct Hc as [e He]; congruence].
      destruct Hc as (task & _ & Hr). rewrite Hr in Hrun.
      injection Hrun as <- <-. split; [done|].
      eexists task, [], _. split; [|done]. left. eauto.
    - destruct (scheduleTask_returns obj q t args w id w1 Hrun)
        as (q' & task & -> & _ & -> & ->).
      split; [done|].
      eexists task, args, _. split; [|done]. right. eauto. }
  split_and!; [done| |by eauto 6].
  unfold track. apply wf_timers_add, wf_issue; [..|by apply wf_getTimers];
    rewrite getTimers_nextTimer;
    by destruct Hj as [(wait & -> & _)|(q & ->)].
Qed.

Lemma track_next obj j w : nextTimer (track obj j w) = S (nextTimer w).
Proof.
  unfold track, timers_add. rewrite run_modify, run_issue. simpl.
  by rewrite getTimers_nextTimer.
Qed.

Lemma exec_all_app l1 l2 w :
  exec_all (l1 ++ l2) w = exec_all l2 (exec_all l1 w).
Proof. unfold exec_all. apply foldl_app. Qed.

Lemma exec_all_nextTimer acts w : nextTimer w ≤ nextTimer (exec_all acts w).
Proof. by destruct (exec_all_grown acts w) as [? _]. Qed.

(** X1: once [cancelTask(obj, id)] has been called on a timer that
    [runTask] or [scheduleTask] returned, whatever happened in between, the
    identifier is out of the set of the owner and the task is never run by
    that timer: at any later moment the run loop has no entry for it. *)
Theorem cancelled_task_never_runs obj id w w1 before after :
  wf w → scheduled obj id w w1 →
  let w2 := exec (CancelTask (For obj id)) (exec_all before w1) in
  (id ∉ tracked obj w2) ∧
  (id ∉ (pending (exec_all after w2)).*1) ∧
  fire id (exec_all after w2) = (Ok tt, exec_all after w2).
Proof.
  intros Hw Hs w2.
  destruct (scheduled_track obj id w w1 Hw Hs)
    as (-> & Hw1 & task & args & j & _ & ->).
  assert (wf w2) as Hw2 by apply wf_exec, wf_exec_all, Hw1.
  assert (nextTimer w < nextTimer w2) as Hlt.
  { pose proof (exec_all_nextTimer (before ++ [CancelTask (For obj (nextTimer w))])
                  (track obj j w)) as Hle.
    rewrite exec_all_app, track_next in Hle.
    change (exec_all [CancelTask (For obj (nextTimer w))]
              (exec_all before (track obj j w))) with w2 in Hle.
    lia. }
  assert (nextTimer w ∉ (pending w2).*1) as Hnot.
  { unfold w2, exec. rewrite cancelTask_pending. apply cancelled_not_pending. }
  split.
  - unfold w2, exec. rewrite cancelTask_tracked, decide_True by done.
    rewrite JSSetFacts.elem_of_delete. by intros [? _].
  - by apply never_pending_again.
Qed.

Lemma cancelled_task_never_runs_witness :
  let w1 := run (runTask 0 (VString "doStuff") (int 5)) sample in
  let w2 := exec (CancelTask (For 0 0))
              (exec_all [DebounceTask 0 (VString "other") [int 1]] w1) in
  wf sample ∧ scheduled 0 0 sample w1 ∧
  (0 ∉ tracked 0 w2) ∧
  fire 0 (exec_all [Fire 1; SetProp 0 "x" VNull] w2) =
    (Ok tt, exec_all [Fire 1; SetProp 0 "x" VNull] w2).
Proof.
  intros w1 w2.
  assert (wf sample) as Hw by (apply wf_with_heap, wf_init).
  assert (scheduled 0 0 sample w1) as Hs
    by (left; exists (VString "doStuff"), (int 5); reflexivity).
  destruct (cancelled_task_never_runs 0 0 sample w1
              [DebounceTask 0 (VString "other") [int 1]]
              [Fire 1; SetProp 0 "x" VNull] Hw Hs) as (H1 & _ & H3).
  split_and!; [exact Hw | exact Hs | exact H1 | exact H3].
Defined.

(** X2: the one-argument form [cancelTask(cancelId)] cancels the timer,
    which never fires, and leaves its identifier in the set of the owner,
    where it stays until [cancelTask(obj, cancelId)] or the disposables of
    the owner run (the leak the deprecation message speaks of). *)
Theorem legacy_cancel_leaves_id_tracked obj id w w1 acts :
  wf w → scheduled obj id w w1 →
  Forall (spares obj id) acts →
  let w2 := exec (CancelTask (Legacy id)) w1 in
  fire id (exec_all acts w2) = (Ok tt, exec_all acts w2) ∧
  id ∈ tracked obj (exec_all acts w2).
Proof.
  intros Hw Hs Hacts w2.
  destruct (scheduled_track obj id w w1 Hw Hs)
    as (-> & Hw1 & task & args & j & _ & ->).
  assert (wf w2) as Hw2 by apply wf_exec, Hw1.
  assert (nextTimer w < nextTimer w2) as Hlt.
  { change (nextTimer w2) with (nextTimer (track obj j w)).
    rewrite track_next. lia. }
  assert (nextTimer w ∉ (pending w2).*1) as Hnot.
  { unfold w2, exec. rewrite cancelTask_pending. apply cancelled_not_pending. }
  split; [by apply never_pending_again|].
  apply (throttle_tracked_exec_all obj (nextTimer w) acts w2 Hw2); [|done].
  split_and!; [|done|].
  - unfold is_tracked. change (tracked obj w2) with (tracked obj (track obj j w)).
    rewrite track_tracked. apply JSSetFacts.elem_of_add. by left.
  - intros j' Hin. destruct Hnot. apply list_elem_of_fmap. by exists (nextTimer w, j').
Qed.

Lemma legacy_cancel_leaves_id_tracked_witness :
  let w1 := run (runTask 0 (VString "doStuff") (int 5)) sample in
  let acts := [Fire 0; RunTask 0 (VString "other") VUndefined; Fire 1] in
  let w2 := exec (CancelTask (Legacy 0)) w1 in
  wf sample ∧ scheduled 0 0 sample w1 ∧ Forall (spares 0 0) acts ∧
  calls (exec_all acts w2) ≠ [] ∧
  0 ∈ tracked 0 (exec_all acts w2).
Proof.
  intros w1 acts w2.
  assert (wf sample) as Hw by (apply wf_with_heap, wf_init).
  assert (scheduled 0 0 sample w1) as Hs
    by (left; exists (VString "doStuff"), (int 5); reflexivity).
  assert (Forall (spares 0 0) acts) as Hacts
    by (repeat constructor; discriminate).
  destruct (legacy_cancel_leaves_id_tracked 0 0 sample w1 acts Hw Hs Hacts)
    as [_ H2].
  split_and!; [exact Hw | exact Hs | exact Hacts | by vm_compute | exact H2].
Defined.

(** ** Who calls the user's functions *)

Ltac quiet :=
  repeat first
    [ apply preserves_ret | apply preserves_throw | apply preserves_gets
    | apply preserves_assert | apply preserves_bind
    | apply preserves_forEach; intros ? _
    | apply preserves_modify; intros ? ?; assumption
    | (intros ? ?; assumption)
    | match goal with |- ∀ _, _ => intros ? end
    | match goal with
      |- preserves _ (match ?x with _ => _ end) => destruct x
      end
    | match goal with |- preserves _ (if ?x then _ else _) => destruct x end ].

Section calls.
Context (c : list invocation).

Local Abbreviation silent := (preserves (λ w, calls w = c)).

Lemma silent_getTimers obj : silent (getTimers obj).
Proof. unfold getTimers, registerDisposable. quiet. Qed.

Lemma silent_cancelTask a : silent (cancelTask a).
Proof.
  unfold cancelTask, timers_delete, cancel.
  destruct a; quiet; apply silent_getTimers.
Qed.

Lemma silent_dispose d : silent (dispose d).
Proof.
  unfold dispose, timers_clear, cancel. quiet; apply silent_cancelTask.
Qed.

Lemma silent_exec a w : may_call a = false → calls w = c → calls (exec a w) = c.
Proof.
  destruct a; simpl; try done; intros _;
    match goal with
    | |- calls w = c → calls (run ?m w) = c =>
        revert w; change (preserves (λ w, calls w = c) m)
    end.
  - unfold runTask, getTask, later, issue, timers_add.
    quiet; apply silent_getTimers.
  - unfold scheduleTask, getTask, schedule, issue, timers_add.
    quiet; apply silent_getTimers.
  - unfold debounceTask, debounce, issue, registerDisposable, new_closure.
    cbv zeta. quiet.
  - apply silent_cancelTask.
  - unfold cancelDebounce, cancel. quiet.
  - unfold runDisposables. quiet; apply silent_dispose.
Qed.

End calls.

Lemma throttle_calls target methodName args w :
  calls (run (throttle target methodName args) w) = calls w ∨
  ∃ f, get_prop target methodName w = VFunction f ∧
       find_throttled target f (pending w) = None ∧
       ∃ inv, calls (run (throttle target methodName args) w) =
                calls w ++ [inv] ∧
              callee inv = f ∧ this inv = target ∧
              arguments inv = removelast args.
Proof.
  unfold run, throttle. step.
  destruct (get_prop target methodName w) as [| | | | |f|]; try by left.
  cbv zeta. step.
  destruct (find_throttled target f (pending w)) eqn:Hfind; [by left|].
  right. exists f. split_and!; [done..|].
  rewrite bind_issue. unfold call_user. step. by eexists.
Qed.

(** X3: [runTask], [scheduleTask], [debounceTask], [cancelTask],
    [cancelDebounce] and the disposables never call a user function: a task
    has not run when the call that registers it returns.  [throttleTask]
    and the firing of a timer call at most one. *)
Theorem user_calls a w :
  (if may_call a then True else calls (exec a w) = calls w) ∧
  ∃ l, calls (exec a w) = calls w ++ l ∧ length l ≤ 1.
Proof.
  split.
  - destruct (may_call a) eqn:Ha; [done|]. by apply silent_exec.
  - destruct (may_call a) eqn:Ha.
    + destruct a; try done.
      * pose proof (throttleTask_cases obj taskName throttleArgs w) as Hc.
        unfold exec, run.
        destruct (passes_named obj taskName throttleArgs w).
        -- destruct Hc as (name & id & -> & _ & ->).
           unfold timers_add. rewrite run_modify.
           cbn [snd calls with_timers].
           destruct (throttle_calls obj name throttleArgs
                       (run (getTimers obj) w))
             as [->|(f & _ & _ & inv & -> & _)];
             rewrite getTimers_calls.
           ++ exists []; rewrite app_nil_r; split; [done|simpl; lia].
           ++ exists [inv]; split; [done|simpl; lia].
        -- destruct Hc as [e ->]. exists []; rewrite app_nil_r; split; [done|simpl; lia].
      * unfold exec, run, fire. step.
        destruct (find_timer id (pending w)) as [j|];
          [|exists []; rewrite app_nil_r; split; [done|simpl; lia]].
        unfold cancel. step.
        destruct j as [cb ?|? ? cb ?|? ? ?|? cb ? ?];
          try (exists []; rewrite app_nil_r; split; [done|simpl; lia]);
          destruct cb as [? ? ?|? ? ?|? o n]; cbn [invoke];
          unfold timers_delete, call_user; step;
          try (eexists [_]; split; [done|simpl; lia]).
        all: match goal with
             | |- context [get_prop ?o ?n ?w'] => destruct (get_prop o n w')
             end;
          try (exists []; rewrite app_nil_r; split; [done|simpl; lia]); eexists [_]; split; [done|simpl; lia].
    + exists []. rewrite app_nil_r. split; [by apply silent_exec|simpl; lia].
Qed.

(** ** The window of a throttle *)

Lemma find_throttled_app_new target method l id wait :
  find_throttled target method l = None →
  find_throttled target method (l ++ [(id, Throttled target method wait)]) =
    Some id.
Proof.
  induction l as [|[id' j] l IH]; cbn [find_throttled app].
  - intros _. by rewrite decide_True.
  - destruct j as [| |target' method' wait'|]; try done.
    case_decide; [done|]. apply IH.
Qed.

Lemma throttle_window target methodName args f id w w' :
  get_prop target methodName w = VFunction f →
  throttle target methodName args w = (Ok id, w') →
  find_throttled target f (pending w') = Some id ∧
  heap w' = heap w ∧ registeredTimers w' = registeredTimers w.
Proof.
  intros Hf. unfold throttle. step. rewrite Hf. cbv zeta. step.
  destruct (find_throttled target f (pending w)) as [id'|] eqn:Hfind.
  - by intros [= <- <-].
  - rewrite bind_issue. unfold call_user. step. intros [= <- <-].
    split; [|done]. simpl. by apply find_throttled_app_new.
Qed.

(** X4: while the window of a throttle is open, a further
    [throttleTask] for the same method, whatever its arguments, does
    nothing at all: it returns the identifier of the first call and leaves
    the world as it is, the method is not called and the set of the owner
    does not grow. *)
Theorem throttle_suppressed obj taskName args args' id w w1 :
  throttleTask obj taskName args w = (Ok id, w1) →
  isInteger (wait_of args') = true →
  throttleTask obj taskName args' w1 = (Ok id, w1).
Proof.
  intros Hrun Hint.
  pose proof (throttleTask_cases obj taskName args w) as Hc.
  destruct (passes_named obj taskName args w) eqn:Hv;
    [|destruct Hc as [e He]; congruence].
  destruct Hc as (name & id' & -> & Hthr & Hr). rewrite Hr in Hrun.
  injection Hrun as -> <-.
  unfold passes_named, names_method in Hv.
  destruct (get_prop obj name w) as [| | | | |f|] eqn:Hf; try done.
  destruct (destroyed obj w) eqn:Hd; [by rewrite andb_false_r in Hv|].
  apply (throttle_window obj name args f) in Hthr as (Hfind & Hheap & Htimers);
    [|by rewrite getTimers_get_prop].
  set (w' := run (throttle obj name args) (run (getTimers obj) w)) in *.
  set (w1 := run (timers_add obj id) w').
  assert (heap w1 = heap w) as Hheap1
    by (change (heap w1) with (heap w'); by rewrite Hheap, getTimers_heap).
  assert (registeredTimers w1 !! obj =
            Some (JSSet.add id (tracked obj w))) as Hreg.
  { unfold w1, timers_add. rewrite run_modify. simpl.
    rewrite lookup_alter, decide_True, Htimers, getTimers_lookup, decide_True
      by done. done. }
  unfold throttleTask. step.
  rewrite typeof_function.
  assert (get_prop obj name w1 = VFunction f) as ->
    by (unfold get_prop; by rewrite Hheap1).
  assert (destroyed obj w1 = false) as ->
    by (unfold destroyed; by rewrite Hheap1).
  cbn [negb]. cbv zeta. unfold wait_of in Hint. rewrite Hint.
  rewrite (bind_total (getTimers obj)) by apply getTimers_total.
  rewrite getTimers_registered by (rewrite Hreg; by eexists).
  unfold throttle. step.
  assert (get_prop obj name w1 = VFunction f) as ->
    by (unfold get_prop; by rewrite Hheap1).
  cbv zeta. step.
  change (pending w1) with (pending w'). rewrite Hfind.
  unfold timers_add. step. f_equal.
  apply with_timers_same, alter_id_on. intros s Hs.
  rewrite Hreg in Hs. injection Hs as <-.
  unfold JSSet.add at 1.
  replace (JSSet.has id (JSSet.add id (tracked obj w))) with true; [done|].
  symmetry. apply bool_decide_eq_true, JSSetFacts.elem_of_add. by left.
Qed.

Lemma throttle_suppressed_witness :
  let w1 := run (throttleTask 0 (VString "doStuff") [VString "a"; int 5])
              sample in
  throttleTask 0 (VString "doStuff") [VString "a"; int 5] sample = (Ok 0, w1) ∧
  isInteger (wait_of [VString "b"; int 700]) = true ∧
  throttleTask 0 (VString "doStuff") [VString "b"; int 700] w1 = (Ok 0, w1) ∧
  map arguments (calls w1) = [[VString "a"]].
Proof.
  intros w1.
  split_and!; [reflexivity | reflexivity | | reflexivity].
  exact (throttle_suppressed 0 (VString "doStuff") [VString "a"; int 5]
           [VString "b"; int 700] 0 sample w1 eq_refl eq_refl).
Defined.

(** ** The identifiers the registries hold *)

Lemma issued_init : issued init.
Proof. split; simpl; intros ? ?; by rewrite lookup_empty. Qed.

Lemma issued_timers_shrink (g : JSSet.t → JSSet.t) obj w :
  (∀ s x, x ∈ g s → x ∈ s) → issued w → issued (with_timers (alter g obj) w).
Proof.
  intros Hg [Ht Hd]. split; [|done]. simpl. intros obj' s.
  rewrite lookup_alter. case_decide; [subst obj'|by apply Ht].
  destruct (registeredTimers w !! obj) as [s'|] eqn:Hs'; [|done].
  intros [= <-]. specialize (Ht _ _ Hs'). rewrite Forall_forall in *.
  intros x Hx. by apply Ht, Hg.
Qed.

Lemma issued_timers_new obj w : issued w → issued (with_timers <[obj := []]> w).
Proof.
  intros [Ht Hd]. split; [|done]. simpl. intros obj' s.
  rewrite lookup_insert. case_decide; [|by apply Ht]. by intros [= <-].
Qed.

Lemma issued_timers_add obj id w :
  id < nextTimer w → issued w → issued (run (timers_add obj id) w).
Proof.
  intros Hid [Ht Hd]. split; [|done]. unfold timers_add. rewrite run_modify.
  simpl. intros obj' s.
  rewrite lookup_alter. case_decide; [subst obj'|by apply Ht].
  destruct (registeredTimers w !! obj) as [s'|] eqn:Hs'; [|done].
  intros [= <-]. specialize (Ht _ _ Hs'). rewrite Forall_forall in *.
  intros x [->|Hx]%JSSetFacts.elem_of_add; by auto.
Qed.

Lemma issued_debounces_forget name obj w :
  issued w → issued (with_debounces (alter (JSMap.delete name) obj) w).
Proof.
  intros [Ht Hd]. split; [done|]. simpl. intros obj' m.
  rewrite lookup_alter. case_decide; [subst obj'|by apply Hd].
  destruct (registeredDebounces w !! obj) as [m'|] eqn:Hm'; [|done].
  intros [= <-]. apply JSMapFacts.Forall_delete. eauto.
Qed.

Lemma issued_debounces_new obj w :
  issued w → issued (with_debounces <[obj := []]> w).
Proof.
  intros [Ht Hd]. split; [done|]. simpl. intros obj' m.
  rewrite lookup_insert. case_decide; [|by apply Hd]. by intros [= <-].
Qed.

Lemma issued_issue mk : preserves issued (issue mk).
Proof.
  intros w [Ht Hd]. rewrite run_issue.
  split; simpl; intros obj x Hx;
    [specialize (Ht _ _ Hx)|specialize (Hd _ _ Hx)];
    (eapply Forall_impl; [done|]); simpl; intros; lia.
Qed.

Ltac issued :=
  repeat first
    [ apply preserves_ret | apply preserves_throw | apply preserves_gets
    | apply preserves_assert | apply issued_issue | apply preserves_bind
    | apply preserves_forEach; intros ? _
    | apply preserves_modify; intros ? ?; assumption
    | apply preserves_modify; intros ? ?; apply issued_timers_shrink;
        [intros ? ?; first
           [ by intros [_ ?]%JSSetFacts.elem_of_delete
           | by intros ?%elem_of_nil ]
        | assumption ]
    | apply preserves_modify; intros ? ?; by apply issued_timers_new
    | apply preserves_modify; intros ? ?; by apply issued_debounces_forget
    | apply preserves_modify; intros ? ?; by apply issued_debounces_new
    | (intros ? ?; assumption)
    | match goal with |- ∀ _, _ => intros ? end
    | match goal with
      |- preserves _ (match ?x with _ => _ end) => destruct x
      end
    | match goal with |- preserves _ (if ?x then _ else _) => destruct x end ].

Lemma issued_getTimers obj : preserves issued (getTimers obj).
Proof. unfold getTimers, registerDisposable. issued. Qed.

Lemma issued_cancelTask a : preserves issued (cancelTask a).
Proof.
  unfold cancelTask, timers_delete, cancel.
  destruct a; issued; apply issued_getTimers.
Qed.

Lemma issued_dispose d : preserves issued (dispose d).
Proof.
  unfold dispose, timers_clear, cancel. issued; apply issued_cancelTask.
Qed.

Lemma issued_throttle target methodName args :
  preserves issued (throttle target methodName args).
Proof. unfold throttle, call_user. cbv zeta. issued. Qed.

Lemma issued_track obj j w : issued w → issued (track obj j w).
Proof.
  intros Hw. unfold track. apply issued_timers_add.
  - rewrite run_issue. simpl. rewrite getTimers_nextTimer. lia.
  - by apply issued_issue, issued_getTimers.
Qed.

Lemma issued_debounced obj name args w :
  issued w → issued (debounced obj name args w).
Proof.
  intros [Ht Hd]. split.
  - rewrite debounced_timers, debounced_nextTimer. intros obj' s Hs.
    eapply Forall_impl; [by eapply Ht|]. simpl. intros; lia.
  - rewrite debounced_nextTimer. intros obj' m. rewrite debounced_lookup.
    case_decide; [subst obj'|].
    + intros [= <-]. apply JSMapFacts.Forall_set; [|simpl; lia].
      unfold debounces.
      destruct (registeredDebounces w !! obj) as [m'|] eqn:Hm'; [|done].
      eapply Forall_impl; [by eapply Hd|]. simpl. intros; lia.
    + intros Hm. eapply Forall_impl; [by eapply Hd|]. simpl. intros; lia.
Qed.

Lemma issued_exec a w : wf w → issued w → issued (exec a w).
Proof.
  intros Hw Hi. destruct a; simpl.
  - pose proof (runTask_cases obj taskOrName timeout w) as Hc. unfold run.
    destruct (passes_runTask obj taskOrName w).
    + destruct Hc as (f & _ & ->). by apply issued_track.
    + by destruct Hc as [e ->].
  - pose proof (scheduleTask_cases obj queueName taskOrName args w) as Hc.
    unfold run. destruct (passes_scheduleTask obj queueName taskOrName w).
    + destruct Hc as (q & f & _ & _ & ->).
      destruct (run_loop_takes q);
        [by apply issued_track|by apply issued_getTimers].
    + by destruct Hc as [e ->].
  - pose proof (throttleTask_cases obj taskName throttleArgs w) as Hc.
    unfold run. destruct (passes_named obj taskName throttleArgs w);
      [|by destruct Hc as [e ->]].
    destruct Hc as (name & id & _ & Hthr & ->). cbn [snd].
    pose proof (wf_throttle obj name throttleArgs _ (wf_getTimers obj w Hw))
      as Hw'.
    apply throttle_result in Hthr as (_ & method & wait & Hin);
      [|by apply wf_getTimers].
    apply issued_timers_add.
    + pose proof (wf_fresh _ Hw') as Hfresh. rewrite Forall_forall in Hfresh.
      apply (Hfresh _ Hin).
    + by apply issued_throttle, issued_getTimers.
  - pose proof (debounceTask_valid obj name debounceArgs w) as Hc. unfold run.
    destruct (passes_named obj name debounceArgs w).
    + destruct Hc as (n & _ & ->). by apply issued_debounced.
    + by destruct Hc as [e ->].
  - by apply issued_cancelTask.
  - revert Hi. generalize w.
    change (preserves issued (cancelDebounce obj name)).
    unfold cancelDebounce, cancel. issued.
  - revert Hi. generalize w.
    change (preserves issued (runDisposables obj)).
    unfold runDisposables. issued; apply issued_dispose.
  - revert Hi. generalize w.
    change (preserves issued (fire id)).
    unfold fire, invoke, cancel, timers_delete, call_user. issued.
  - done.
  - done.
Qed.

Lemma issued_exec_all acts w :
  wf w → issued w → issued (exec_all acts w).
Proof.
  revert w. induction acts as [|a acts IH]; intros w Hw Hi; [done|].
  simpl. apply IH; [by apply wf_exec|by apply issued_exec].
Qed.

(** ** The two disposables *)

Lemma grown_from_filter n0 l0 (P : timer_id * job → Prop)
    `{∀ e, Decision (P e)} n l :
  grown_from n0 l0 n l → grown_from n0 l0 n (filter P l).
Proof.
  intros [Hn Hl]. split; [done|].
  intros e [_ He]%list_elem_of_filter. auto.
Qed.

Lemma dispose_grown d w :
  on_run_loop (grown_from (nextTimer w) (pending w)) (run (dispose d) w).
Proof.
  apply (on_run_loop_dispose (grown_from (nextTimer w) (pending w))).
  - intros P ? n l. by apply grown_from_filter.
  - split; [done|]. auto.
Qed.

Lemma forEach_cancelTask_tracked obj obj' l w :
  obj' ≠ obj →
  tracked obj' (run (forEach l (λ cancelId, cancelTask (For obj cancelId))) w)
    = tracked obj' w.
Proof.
  intros Hne. revert w. induction l as [|i l IH]; intros w; [done|].
  cbn [forEach].
  rewrite run_bind_total by apply (cancelTask_total (For obj i)).
  by rewrite IH, cancelTask_tracked, decide_False.
Qed.

Lemma never_fires_after id w w' acts :
  wf w' → id < nextTimer w → nextTimer w ≤ nextTimer w' →
  id ∉ (pending w').*1 →
  (id ∉ (pending (exec_all acts w')).*1) ∧
  fire id (exec_all acts w') = (Ok tt, exec_all acts w').
Proof. intros Hw' Hlt Hle Hnot. apply never_pending_again; [done|lia|done]. Qed.

(** X5: the disposable of the timers cancels every identifier of the
    set of the owner and empties the set; it calls no user function and
    leaves the sets of the other owners alone.  None of the timers it
    swept fires afterwards, whatever happens next. *)
Theorem timers_disposal_is_final obj w acts :
  wf w → issued w →
  let w' := run (dispose (getTimersDisposable obj)) w in
  dispose (getTimersDisposable obj) w = (Ok tt, w') ∧
  tracked obj w' = [] ∧
  (∀ obj', obj' ≠ obj → tracked obj' w' = tracked obj' w) ∧
  calls w' = calls w ∧
  ∀ id, id ∈ tracked obj w →
        (id ∉ (pending (exec_all acts w')).*1) ∧
        fire id (exec_all acts w') = (Ok tt, exec_all acts w').
Proof.
  intros Hw [Ht _] w'.
  destruct (timers_disposable_sweeps obj w) as (Hrun & Hempty & Hcancel).
  fold w' in Hrun, Hempty, Hcancel.
  split_and!; [done..| | |].
  - intros obj' Hne. unfold w', getTimersDisposable, run at 1.
    rewrite dispose_timers. cbn [snd].
    unfold timers_clear, tracked at 1. rewrite run_modify. simpl.
    rewrite lookup_alter, decide_False by done.
    by apply (forEach_cancelTask_tracked obj obj').
  - by apply (silent_dispose (calls w)).
  - intros id Hid.
    apply (never_fires_after id w); [by apply wf_dispose| | |by apply Hcancel].
    + unfold tracked in Hid.
      destruct (registeredTimers w !! obj) as [s|] eqn:Hs;
        [|by apply elem_of_nil in Hid].
      specialize (Ht _ _ Hs). rewrite Forall_forall in Ht. by apply Ht.
    + by destruct (dispose_grown (getTimersDisposable obj) w) as [? _].
Qed.

Lemma timers_disposal_is_final_witness :
  let w := exec_all
    [RunTask 0 (VString "doStuff") VUndefined;
     ScheduleTask 0 (VString "actions") (VString "other") [VNull];
     RunTask 1 (VFunction 9) (int 3)] sample in
  let w' := run (dispose (getTimersDisposable 0)) w in
  let acts := [Fire 2; RunTask 0 (VString "other") VUndefined] in
  wf w ∧ issued w ∧ tracked 0 w = [0; 1] ∧ tracked 0 w' = [] ∧
  tracked 1 w' = [2] ∧
  1 ∈ tracked 0 w ∧
  fire 1 (exec_all acts w') = (Ok tt, exec_all acts w').
Proof.
  intros w w' acts.
  assert (wf sample) as Hs by (apply wf_with_heap, wf_init).
  assert (wf w) as Hw by apply wf_exec_all, Hs.
  assert (issued w) as Hi by (apply issued_exec_all; [exact Hs|apply issued_init]).
  assert (1 ∈ tracked 0 w) as H1 by (right; left).
  destruct (timers_disposal_is_final 0 w acts Hw Hi)
    as (_ & H2 & _ & _ & H5).
  split_and!; [exact Hw | exact Hi | reflexivity | exact H2 | reflexivity
              | exact H1 | exact (proj2 (H5 1 H1))].
Defined.

(** X6: the disposable of the debounces cancels the timer of every
    entry of the debounce map of the owner, so that none of the debounced
    methods is called afterwards, whatever happens next; it calls no user
    function and touches no timer set.  On an empty map it returns at once
    and the world is as it was. *)
Theorem debounces_disposable_sweep obj w acts :
  wf w → issued w →
  let w' := run (dispose (getDebouncesDisposable obj)) w in
  dispose (getDebouncesDisposable obj) w = (Ok tt, w') ∧
  registeredTimers w' = registeredTimers w ∧
  calls w' = calls w ∧
  (debounces obj w = [] → w' = w) ∧
  ∀ name p, JSMap.get name (debounces obj w) = Some p →
            (cancelId p ∉ (pending (exec_all acts w')).*1) ∧
            fire (cancelId p) (exec_all acts w') = (Ok tt, exec_all acts w').
Proof.
  intros Hw [_ Hd] w'.
  destruct (debounces_disposable_cancels obj w) as (Hrun & _ & Hcancel).
  fold w' in Hrun, Hcancel.
  split_and!; [done| | | |].
  - unfold w', getDebouncesDisposable, run, dispose. step.
    destruct (_ =? 0); [done|].
    by rewrite (forEach_cancel_world _ (λ p, cancelId p.2)).
  - by apply (silent_dispose (calls w)).
  - intros Hnil. unfold w', getDebouncesDisposable, run, dispose. step.
    by rewrite Hnil.
  - intros name p Hp.
    apply (never_fires_after _ w); [by apply wf_dispose| | |by eapply Hcancel].
    + unfold debounces in Hp.
      destruct (registeredDebounces w !! obj) as [m|] eqn:Hm; [|done].
      simpl in Hp. apply JSMapFacts.get_Some_elem in Hp.
      specialize (Hd _ _ Hm). rewrite Forall_forall in Hd.
      apply (Hd _ Hp).
    + by destruct (dispose_grown (getDebouncesDisposable obj) w) as [? _].
Qed.

Lemma debounces_disposable_sweep_witness :
  let w := exec_all
    [DebounceTask 0 (VString "doStuff") [VString "a"; int 10];
     DebounceTask 0 (VString "other") [int 10];
     RunTask 0 (VString "other") VUndefined] sample in
  let w' := run (dispose (getDebouncesDisposable 0)) w in
  wf w ∧ issued w ∧
  JSMap.get "doStuff" (debounces 0 w) =
    Some {| debouncedTask := DebouncedTask 0 0 "doStuff"; cancelId := 0 |} ∧
  (pending w').*1 = [2] ∧
  fire 0 (exec_all [Fire 2] w') = (Ok tt, exec_all [Fire 2] w').
Proof.
  intros w w'.
  assert (wf sample) as Hs by (apply wf_with_heap, wf_init).
  assert (wf w) as Hw by apply wf_exec_all, Hs.
  assert (issued w) as Hi by (apply issued_exec_all; [exact Hs|apply issued_init]).
  destruct (debounces_disposable_sweep 0 w [Fire 2] Hw Hi)
    as (_ & _ & _ & _ & H5).
  split_and!; [exact Hw | exact Hi | reflexivity | reflexivity |].
  exact (proj2 (H5 "doStuff" _ eq_refl)).
Defined.

(** ** Debounces *)

Lemma cancelDebounce_present obj name p w :
  JSMap.get name (debounces obj w) = Some p →
  cancelDebounce obj name w =
  (Ok tt, with_pending (filter (λ e, e.1 ≠ cancelId p))
            (with_debounces (alter (JSMap.delete name) obj) w)).
Proof.
  unfold debounces, cancelDebounce. step.
  destruct (registeredDebounces w !! obj) as [m|]; simpl; [|done].
  intros ->. unfold cancel. by step.
Qed.

(** X7: [cancelDebounce] of a name with a pending debounce removes the
    entry of that name and no other, on that owner and no other, touches no
    timer set, calls no user function, and cancels the timer of the entry:
    that timer never fires afterwards, whatever happens next. *)
Theorem cancelled_debounce_never_runs obj name p w acts :
  wf w → issued w → JSMap.get name (debounces obj w) = Some p →
  let w' := exec (CancelDebounce obj name) w in
  cancelDebounce obj name w = (Ok tt, w') ∧
  JSMap.get name (debounces obj w') = None ∧
  (∀ name', name' ≠ name →
            JSMap.get name' (debounces obj w') =
            JSMap.get name' (debounces obj w)) ∧
  (∀ obj', obj' ≠ obj → debounces obj' w' = debounces obj' w) ∧
  registeredTimers w' = registeredTimers w ∧
  calls w' = calls w ∧
  (cancelId p ∉ (pending (exec_all acts w')).*1) ∧
  fire (cancelId p) (exec_all acts w') = (Ok tt, exec_all acts w').
Proof.
  intros Hw [_ Hd] Hp w'.
  pose proof (wf_exec (CancelDebounce obj name) w Hw) as Hw'. fold w' in Hw'.
  pose proof (cancelDebounce_present obj name p w Hp) as Hrun.
  assert (w' = with_pending (filter (λ e, e.1 ≠ cancelId p))
            (with_debounces (alter (JSMap.delete name) obj) w)) as Heq
    by (unfold w', exec, run; by rewrite Hrun).
  rewrite <- Heq in Hrun.
  split; [done|].
  assert (∀ obj', debounces obj' w' =
            if decide (obj' = obj) then JSMap.delete name (debounces obj w)
            else debounces obj' w) as Hmaps.
  { intros obj'. rewrite Heq. unfold debounces.
    cbn [registeredDebounces with_pending with_debounces].
    rewrite lookup_alter.
    destruct (decide (obj' = obj)) as [->|Hne].
    - rewrite decide_True by done.
      by destruct (registeredDebounces w !! obj).
    - by rewrite decide_False by done. }
  assert ((cancelId p ∉ (pending (exec_all acts w')).*1) ∧
          fire (cancelId p) (exec_all acts w') = (Ok tt, exec_all acts w'))
    as [Hgone Hfire].
  { apply (never_fires_after _ w); [done| |by rewrite Heq|].
    - unfold debounces in Hp.
      destruct (registeredDebounces w !! obj) as [m|] eqn:Hm; [|done].
      simpl in Hp. apply JSMapFacts.get_Some_elem in Hp.
      specialize (Hd _ _ Hm). rewrite Forall_forall in Hd. apply (Hd _ Hp).
    - rewrite Heq. simpl.
      intros (e & He1 & [He2 _]%list_elem_of_filter)%list_elem_of_fmap.
      by apply He2. }
  split_and!.
  - rewrite Hmaps, decide_True by done. apply JSMapFacts.get_delete_eq.
  - intros name' Hne. rewrite Hmaps, decide_True by done.
    by apply JSMapFacts.get_delete_ne.
  - intros obj' Hne. by rewrite Hmaps, decide_False.
  - by rewrite Heq.
  - by rewrite Heq.
  - done.
  - done.
Qed.

Lemma cancelled_debounce_never_runs_witness :
  let w := exec_all
    [DebounceTask 0 (VString "doStuff") [VString "a"; int 10];
     DebounceTask 0 (VString "other") [int 10]] sample in
  let p := {| debouncedTask := DebouncedTask 0 0 "doStuff"; cancelId := 0 |} in
  let w' := exec (CancelDebounce 0 "doStuff") w in
  let acts := [Fire 1; DebounceTask 0 (VString "doStuff") [int 3]] in
  wf w ∧ issued w ∧ JSMap.get "doStuff" (debounces 0 w) = Some p ∧
  JSMap.get "doStuff" (debounces 0 w') = None ∧
  fire 0 (exec_all acts w') = (Ok tt, exec_all acts w') ∧
  map callee (calls (exec_all acts w')) = [8].
Proof.
  intros w p w' acts.
  assert (wf sample) as Hs by (apply wf_with_heap, wf_init).
  assert (wf w) as Hw by apply wf_exec_all, Hs.
  assert (issued w) as Hi by (apply issued_exec_all; [exact Hs|apply issued_init]).
  destruct (cancelled_debounce_never_runs 0 "doStuff" p w acts Hw Hi eq_refl)
    as (_ & H2 & _ & _ & _ & _ & _ & H8).
  split_and!; [exact Hw | exact Hi | reflexivity | exact H2 | exact H8
              | reflexivity].
Defined.

Lemma get_prop_set_prop obj name v w :
  get_prop obj name (run (set_prop obj name v) w) = v.
Proof.
  unfold set_prop, get_prop. rewrite run_modify. simpl.
  by rewrite lookup_total_insert_eq; simpl; rewrite lookup_insert_eq.
Qed.

Lemma debounced_find obj name args w :
  wf w →
  find_timer (nextTimer w) (pending (debounced obj name args w)) =
  Some (Debounced obj (debounce_closure obj name w) (removelast args)
          (wait_of args)).
Proof.
  intros Hw. apply find_timer_elem.
  - apply wf_nodup. by apply wf_debounced.
  - rewrite debounced_pending. apply elem_of_app. right. by left.
Qed.

(** X8: the closure of a debounce reads the method off the owner when the
    timer fires, not when [debounceTask] is called.  If the property is
    assigned in between, the timer calls the function assigned, on the
    owner, with the arguments of the debounce less the wait; if what was
    assigned is not a function, the closure throws a [TypeError] and calls
    nothing.  Either way the entry has left the debounce map by then. *)
Theorem debounced_method_read_at_fire obj name f args v w :
  wf w → get_prop obj name w = VFunction f → destroyed obj w = false →
  isInteger (wait_of args) = true →
  let w1 := exec (DebounceTask obj (VString name) args) w in
  let w2 := exec (SetProp obj name v) w1 in
  let w3 := exec (Fire (nextTimer w)) w2 in
  JSMap.get name (debounces obj w3) = None ∧
  match v with
  | VFunction g =>
      fire (nextTimer w) w2 = (Ok tt, w3) ∧
      ∃ c, calls w3 = calls w ++ [c] ∧
           callee c = g ∧ this c = obj ∧ arguments c = removelast args ∧
           JSMap.get name (default [] (debounces_seen c !! obj)) = None
  | _ => fire (nextTimer w) w2 = (Throw TypeError, w3) ∧ calls w3 = calls w
  end.
Proof.
  intros Hw Hf Hd Hi w1 w2 w3.
  assert (w1 = debounced obj name args w) as Hw1
    by by apply (exec_DebounceTask obj name f).
  destruct (debounce_closure_shape obj name w Hw) as [cid Hc].
  assert (find_timer (nextTimer w) (pending w2) =
          Some (Debounced obj (DebouncedTask cid obj name) (removelast args)
                  (wait_of args))) as Hfind.
  { unfold w2, exec, set_prop. rewrite run_modify.
    change (pending (with_heap _ w1)) with (pending w1).
    by rewrite Hw1, debounced_find, Hc. }
  assert (get_prop obj name w2 = v) as Hv by apply get_prop_set_prop.
  assert (calls w2 = calls w) as Hcalls.
  { unfold w2, exec, set_prop. rewrite run_modify.
    change (calls (with_heap _ w1)) with (calls w1).
    by rewrite Hw1, debounced_calls. }
  assert (∀ w', JSMap.get name
            (default [] (alter (JSMap.delete name) obj
                           (registeredDebounces w') !! obj)) = None) as Hgone.
  { intros w'. rewrite lookup_alter, decide_True by done.
    destruct (registeredDebounces w' !! obj); [|done].
    apply JSMapFacts.get_delete_eq. }
  assert (fire (nextTimer w) w2 =
          match v with
          | VFunction g =>
              (Ok tt,
               with_calls (λ l, l ++
                 [ {| callee := g; this := obj; arguments := removelast args;
                      timers_seen := registeredTimers w2;
                      debounces_seen :=
                        alter (JSMap.delete name) obj
                          (registeredDebounces w2) |} ])
                 (with_debounces (alter (JSMap.delete name) obj)
                    (with_pending (filter (λ e, e.1 ≠ nextTimer w)) w2)))
          | _ =>
              (Throw TypeError,
               with_debounces (alter (JSMap.delete name) obj)
                 (with_pending (filter (λ e, e.1 ≠ nextTimer w)) w2))
          end) as Hfire.
  { unfold fire. step. rewrite Hfind. unfold cancel. step.
    cbn [invoke]. step.
    change (get_prop obj name (with_debounces _ (with_pending _ w2)))
      with (get_prop obj name w2).
    rewrite Hv. by destruct v. }
  assert (w3 = (fire (nextTimer w) w2).2) as Hw3 by done.
  clearbody w3 w2.
  split; [rewrite Hw3, Hfire; destruct v; apply Hgone|].
  destruct v; rewrite Hfire in Hw3 |- *; cbn [snd] in Hw3;
    (split; [by rewrite Hw3|]); rewrite Hw3; simpl; rewrite Hcalls;
    try done.
  eexists. split; [reflexivity|]. split_and!; try done. apply Hgone.
Qed.

Lemma debounced_method_read_at_fire_witness :
  let w1 := exec (DebounceTask 0 (VString "doStuff") [VString "a"; int 10])
              sample in
  let w3 := exec (Fire 0) (exec (SetProp 0 "doStuff" (VFunction 9)) w1) in
  let w3' := exec (Fire 0) (exec (SetProp 0 "doStuff" VNull) w1) in
  wf sample ∧ get_prop 0 "doStuff" sample = VFunction 7 ∧
  destroyed 0 sample = false ∧
  isInteger (wait_of [VString "a"; int 10]) = true ∧
  JSMap.get "doStuff" (debounces 0 w3) = None ∧
  map callee (calls w3) = [9] ∧
  fire 0 (exec (SetProp 0 "doStuff" VNull) w1) = (Throw TypeError, w3') ∧
  calls w3' = [].
Proof.
  intros w1 w3 w3'.
  assert (wf sample) as Hs by (apply wf_with_heap, wf_init).
  split_and!; [exact Hs | reflexivity | reflexivity | reflexivity | | reflexivity | |].
  - exact (proj1 (debounced_method_read_at_fire 0 "doStuff" 7
             [VString "a"; int 10] (VFunction 9) sample Hs eq_refl eq_refl
             eq_refl)).
  - exact (proj1 (proj2 (debounced_method_read_at_fire 0 "doStuff" 7
             [VString "a"; int 10] VNull sample Hs eq_refl eq_refl eq_refl))).
  - exact (proj2 (proj2 (debounced_method_read_at_fire 0 "doStuff" 7
             [VString "a"; int 10] VNull sample Hs eq_refl eq_refl eq_refl))).
Defined.

(** ** Destruction of the owner *)

Section armed.
Context (obj : obj_id).

Local Abbreviation armed := (armed obj).

Lemma armed_timers_alter (g : JSSet.t → JSSet.t) o w :
  armed w → armed (with_timers (alter g o) w).
Proof.
  intros [Ht Hd]. split; [|done]. intros Hs. apply Ht.
  cbn [registeredTimers with_timers] in Hs. rewrite lookup_alter in Hs.
  case_decide; [subst o|done]. by apply fmap_is_Some in Hs.
Qed.

Lemma armed_debounces_alter
    (g : JSMap.t PendingDebounce → JSMap.t PendingDebounce) o w :
  armed w → armed (with_debounces (alter g o) w).
Proof.
  intros [Ht Hd]. split; [done|]. intros Hs. apply Hd.
  cbn [registeredDebounces with_debounces] in Hs. rewrite lookup_alter in Hs.
  case_decide; [subst o|done]. by apply fmap_is_Some in Hs.
Qed.

Lemma disposables_register o d w :
  disposables obj (run (registerDisposable o d) w) =
  if decide (o = obj) then disposables obj w ++ [d] else disposables obj w.
Proof.
  unfold registerDisposable, disposables. rewrite run_modify.
  cbn [registeredDisposables with_disposables].
  case_decide; [subst o; by rewrite lookup_insert_eq|].
  by rewrite lookup_insert_ne.
Qed.

Lemma armed_new_timers o :
  preserves armed
    (modify (with_timers <[o := []]>);;
     registerDisposable o (getTimersDisposable o)).
Proof.
  intros w [Ht Hd]. unfold run, bind. cbn [modify fst snd].
  change ((registerDisposable ?o ?d ?w).2)
    with (run (registerDisposable o d) w).
  split; rewrite disposables_register.
  - change (registeredTimers (run _ ?w)) with (registeredTimers w).
    cbn [registeredTimers with_timers]. destruct (decide (o = obj)) as [->|Hne].
    + intros _. apply elem_of_app. right. by left.
    + rewrite lookup_insert_ne by done. apply Ht.
  - change (registeredDebounces (run _ (with_timers _ w)))
      with (registeredDebounces w).
    intros Hs. specialize (Hd Hs). case_decide; [|done].
    apply elem_of_app. by left.
Qed.

Lemma armed_new_debounces o :
  preserves armed
    (modify (with_debounces <[o := []]>);;
     registerDisposable o (getDebouncesDisposable o)).
Proof.
  intros w [Ht Hd]. unfold run, bind. cbn [modify fst snd].
  change ((registerDisposable ?o ?d ?w).2)
    with (run (registerDisposable o d) w).
  split; rewrite disposables_register.
  - change (registeredTimers (run _ (with_debounces _ w)))
      with (registeredTimers w).
    intros Hs. specialize (Ht Hs). case_decide; [|done].
    apply elem_of_app. by left.
  - change (registeredDebounces (run _ ?w)) with (registeredDebounces w).
    cbn [registeredDebounces with_debounces].
    destruct (decide (o = obj)) as [->|Hne].
    + intros _. apply elem_of_app. right. by left.
    + rewrite lookup_insert_ne by done. apply Hd.
Qed.

Lemma armed_forget o w :
  o ≠ obj → armed w → armed (with_disposables (delete o) w).
Proof.
  intros Hne [Ht Hd].
  split; unfold disposables in *;
    cbn [registeredDisposables with_disposables registeredTimers
         registeredDebounces];
    by rewrite lookup_delete_ne.
Qed.

Ltac armed :=
  repeat first
    [ apply preserves_ret | apply preserves_throw | apply preserves_gets
    | apply preserves_assert | apply armed_new_timers
    | apply armed_new_debounces | apply preserves_bind
    | apply preserves_forEach; intros ? _
    | apply preserves_modify; intros ? ?; assumption
    | apply preserves_modify; intros ? ?; by apply armed_timers_alter
    | apply preserves_modify; intros ? ?; by apply armed_debounces_alter
    | (intros ? ?; assumption)
    | match goal with |- ∀ _, _ => intros ? end
    | match goal with
      |- preserves _ (match ?x with _ => _ end) => destruct x
      end
    | match goal with |- preserves _ (if ?x then _ else _) => destruct x end ].

Lemma armed_getTimers o : preserves armed (getTimers o).
Proof. unfold getTimers. armed. Qed.

Lemma armed_cancelTask a : preserves armed (cancelTask a).
Proof.
  unfold cancelTask, timers_delete, cancel.
  destruct a; armed; apply armed_getTimers.
Qed.

Lemma armed_dispose d : preserves armed (dispose d).
Proof.
  unfold dispose, timers_clear, cancel. armed; apply armed_cancelTask.
Qed.

Lemma armed_exec a w : a ≠ RunDisposables obj → armed w → armed (exec a w).
Proof.
  intros Ha.
  destruct a; simpl;
    match goal with
    | |- armed w → armed (run ?m w) =>
        revert w; change (preserves armed m)
    end.
  - unfold runTask, getTask, later, issue, timers_add.
    armed; apply armed_getTimers.
  - unfold scheduleTask, getTask, schedule, issue, timers_add.
    armed; apply armed_getTimers.
  - unfold throttleTask, throttle, call_user, issue, timers_add. cbv zeta.
    armed; apply armed_getTimers.
  - unfold debounceTask, debounce, issue, new_closure. cbv zeta. armed.
  - apply armed_cancelTask.
  - unfold cancelDebounce, cancel. armed.
  - unfold runDisposables. armed; try apply armed_dispose.
    intros w Hw. rewrite run_modify. apply armed_forget; [|done].
    by intros ->.
  - unfold fire, invoke, cancel, timers_delete, call_user. armed.
  - unfold set_prop. armed.
  - unfold mark_destroyed. armed.
Qed.

Lemma armed_exec_all acts w :
  Forall (λ a, a ≠ RunDisposables obj) acts → armed w →
  armed (exec_all acts w).
Proof.
  revert w. induction acts as [|a acts IH]; intros w Hacts Hw; [done|].
  apply Forall_cons in Hacts as [Ha Hacts].
  simpl. apply IH; [done|]. by apply armed_exec.
Qed.

End armed.

Lemma armed_init h obj : armed obj (with_heap (λ _, h) init).
Proof. split; simpl; rewrite lookup_empty; by intros [? ?]. Qed.

Lemma dispose_total d : total (dispose d).
Proof.
  destruct d as [obj|obj]; intros w.
  - exists tt. by rewrite dispose_timers.
  - exists tt.
    change (DebouncesDisposable obj) with (getDebouncesDisposable obj).
    by rewrite (proj1 (debounces_disposable_cancels obj w)).
Qed.

Lemma runDisposables_total obj : total (runDisposables obj).
Proof.
  unfold runDisposables. apply total_bind; [apply total_gets|].
  intros [ds|]; [|apply total_ret].
  apply total_bind; [apply total_modify|]. intros _.
  apply total_forEach, dispose_total.
Qed.

Lemma dispose_debounces d w :
  registeredDebounces (run (dispose d) w) = registeredDebounces w.
Proof.
  revert w.
  cut (∀ m, preserves (λ w, registeredDebounces w = m) (dispose d));
    [intros H w; by apply H|].
  intros m. unfold dispose, timers_clear, cancel, cancelTask, timers_delete,
    getTimers, registerDisposable. quiet.
Qed.

Lemma dispose_gone id d w :
  id ∉ (pending w).*1 → id ∉ (pending (run (dispose d) w)).*1.
Proof.
  intros Hid (e & Heq & He)%list_elem_of_fmap. apply Hid.
  apply list_elem_of_fmap. exists e. split; [done|].
  clear Hid Heq. revert e He.
  apply (on_run_loop_dispose (λ _ l, ∀ e, e ∈ l → e ∈ pending w)).
  - intros P ? n l Hl e [_ He]%list_elem_of_filter. by apply Hl.
  - by intros e He.
Qed.

Lemma dispose_tracked_other obj d w :
  d ≠ TimersDisposable obj →
  tracked obj (run (dispose d) w) = tracked obj w.
Proof.
  intros Hd. destruct d as [o|o].
  - assert (obj ≠ o) as Hne by (by intros ->).
    unfold run at 1. rewrite dispose_timers. cbn [snd].
    unfold timers_clear, tracked at 1. rewrite run_modify.
    cbn [registeredTimers with_timers].
    rewrite lookup_alter, decide_False by done.
    by apply (forEach_cancelTask_tracked o obj).
  - unfold run, dispose. step.
    destruct (_ =? 0); [done|].
    by rewrite (forEach_cancel_world _ (λ p, cancelId p.2)).
Qed.

Lemma dispose_tracked_empty obj d w :
  tracked obj w = [] → tracked obj (run (dispose d) w) = [].
Proof.
  intros Hw. destruct (decide (d = TimersDisposable obj)) as [->|Hd].
  - apply (timers_disposable_sweeps obj w).
  - by rewrite dispose_tracked_other.
Qed.

Lemma run_forEach_cons {A} (x : A) l (f : A → M unit) w :
  total (f x) → run (forEach (x :: l) f) w = run (forEach l f) (run (f x) w).
Proof. intros Hf. cbn [forEach]. by apply run_bind_total. Qed.

Lemma forEach_dispose_gone id ds w :
  id ∉ (pending w).*1 → id ∉ (pending (run (forEach ds dispose) w)).*1.
Proof.
  revert w. induction ds as [|d ds IH]; intros w Hid; [done|].
  rewrite run_forEach_cons by apply dispose_total. by apply IH, dispose_gone.
Qed.

Lemma forEach_dispose_tracked_empty obj ds w :
  tracked obj w = [] → tracked obj (run (forEach ds dispose) w) = [].
Proof.
  revert w. induction ds as [|d ds IH]; intros w Hid; [done|].
  rewrite run_forEach_cons by apply dispose_total.
  by apply IH, dispose_tracked_empty.
Qed.

(** The callbacks recorded for an owner, run in turn: once the disposable
    of the timers is among them the set ends empty and its identifiers out
    of the run loop; once the disposable of the debounces is among them
    the timers of the debounce map are out of the run loop. *)
Lemma forEach_dispose_sweeps obj ds w :
  let w' := run (forEach ds dispose) w in
  (TimersDisposable obj ∈ ds →
   tracked obj w' = [] ∧ ∀ id, id ∈ tracked obj w → id ∉ (pending w').*1) ∧
  (DebouncesDisposable obj ∈ ds →
   ∀ name p, JSMap.get name (debounces obj w) = Some p →
             cancelId p ∉ (pending w').*1).
Proof.
  revert w. induction ds as [|d ds IH]; intros w w'.
  { split; by intros ?%elem_of_nil. }
  subst w'. rewrite run_forEach_cons by apply dispose_total.
  destruct (IH (run (dispose d) w)) as [IHt IHd]. split.
  - destruct (decide (d = TimersDisposable obj)) as [->|Hne].
    + intros _.
      destruct (timers_disposable_sweeps obj w) as (_ & Hempty & Hcancel).
      split; [by apply forEach_dispose_tracked_empty|].
      intros id Hid. by apply forEach_dispose_gone, Hcancel.
    + intros [?|Hin]%elem_of_cons; [done|].
      rewrite dispose_tracked_other in IHt by done. by apply IHt.
  - unfold debounces in IHd |- *. rewrite dispose_debounces in IHd.
    destruct (decide (d = DebouncesDisposable obj)) as [->|Hne].
    + intros _ name p Hp.
      destruct (debounces_disposable_cancels obj w) as (_ & _ & Hcancel).
      by eapply forEach_dispose_gone, Hcancel.
    + intros [?|Hin]%elem_of_cons; [done|]. by apply IHd.
Qed.

Lemma runDisposables_run obj w :
  ∃ w0, run (runDisposables obj) w =
          run (forEach (disposables obj w) dispose) w0 ∧
        registeredTimers w0 = registeredTimers w ∧
        registeredDebounces w0 = registeredDebounces w.
Proof.
  unfold runDisposables, disposables, run. step.
  destruct (registeredDisposables w !! obj) as [ds|].
  - step. by eexists.
  - by exists w.
Qed.

(** X9: the first run of the disposables of an owner cancels everything
    the owner has in the run loop through the addon.  In a world reached
    from an empty one by any actions but that run, [runDisposables] returns,
    calls no user function and leaves the timer set of the owner empty;
    no identifier the set held and no timer of the debounce map of the
    owner fires afterwards, whatever happens next. *)
Theorem destruction_cancels_everything h acts obj after :
  Forall (λ a, a ≠ RunDisposables obj) acts →
  let w := exec_all acts (with_heap (λ _, h) init) in
  let w' := exec (RunDisposables obj) w in
  runDisposables obj w = (Ok tt, w') ∧
  tracked obj w' = [] ∧
  calls w' = calls w ∧
  (∀ id, id ∈ tracked obj w →
         (id ∉ (pending (exec_all after w')).*1) ∧
         fire id (exec_all after w') = (Ok tt, exec_all after w')) ∧
  (∀ name p, JSMap.get name (debounces obj w) = Some p →
             (cancelId p ∉ (pending (exec_all after w')).*1) ∧
             fire (cancelId p) (exec_all after w') =
               (Ok tt, exec_all after w')).
Proof.
  intros Hacts w w'.
  assert (wf (with_heap (λ _, h) init)) as H0 by apply wf_with_heap, wf_init.
  assert (wf w) as Hw by by apply wf_exec_all.
  assert (issued w) as [Hit Hid] by (by apply issued_exec_all).
  assert (armed obj w) as [Hat Had]
    by (by apply armed_exec_all; [|apply armed_init]).
  assert (wf w') as Hw' by by apply wf_exec.
  assert (nextTimer w ≤ nextTimer w') as Hle
    by apply (exec_all_grown [RunDisposables obj] w).
  assert (tracked obj w' = [] ∧
          (∀ id, id ∈ tracked obj w → id ∉ (pending w').*1) ∧
          (∀ name p, JSMap.get name (debounces obj w) = Some p →
                     cancelId p ∉ (pending w').*1)) as (Hempty & Ht & Hd).
  { destruct (runDisposables_run obj w) as (w0 & Hrun & Htimers & Hdebs).
    unfold w', exec. rewrite Hrun.
    destruct (forEach_dispose_sweeps obj (disposables obj w) w0)
      as [Hts Hds].
    assert (tracked obj w0 = tracked obj w) as Htr
      by (unfold tracked; by rewrite Htimers).
    assert (debounces obj w0 = debounces obj w) as Hdb
      by (unfold debounces; by rewrite Hdebs).
    rewrite Htr in Hts. rewrite Hdb in Hds.
    assert (∀ id, id ∈ tracked obj w →
                  TimersDisposable obj ∈ disposables obj w) as HatT.
    { intros id Hin. apply Hat. unfold tracked in Hin.
      destruct (registeredTimers w !! obj); [done|].
      by apply elem_of_nil in Hin. }
    split_and!.
    - destruct (tracked obj w) as [|id s] eqn:Hs.
      + apply forEach_dispose_tracked_empty. by rewrite Htr.
      + apply Hts, (HatT id). left.
    - intros id Hin. by apply (proj2 (Hts (HatT id Hin))).
    - intros name p Hp. apply (λ H, Hds (Had H) name p Hp).
      unfold debounces in Hp.
      by destruct (registeredDebounces w !! obj). }
  split_and!.
  - apply (total_unit (runDisposables obj) w), runDisposables_total.
  - done.
  - by apply (silent_exec (calls w) (RunDisposables obj)).
  - intros id Hin. apply (never_fires_after id w); [done| |done|by apply Ht].
    unfold tracked in Hin.
    destruct (registeredTimers w !! obj) as [s|] eqn:Hs;
      [|by apply elem_of_nil in Hin].
    specialize (Hit _ _ Hs). rewrite Forall_forall in Hit. by apply Hit.
  - intros name p Hp.
    apply (never_fires_after _ w); [done| |done|by eapply Hd].
    unfold debounces in Hp.
    destruct (registeredDebounces w !! obj) as [m|] eqn:Hm; [|done].
    simpl in Hp. apply JSMapFacts.get_Some_elem in Hp.
    specialize (Hid _ _ Hm). rewrite Forall_forall in Hid. apply (Hid _ Hp).
Qed.

Lemma destruction_cancels_everything_witness :
  let acts := [RunTask 0 (VString "doStuff") (int 5);
               DebounceTask 0 (VString "other") [VNull; int 5];
               ThrottleTask 0 (VString "doStuff") [int 5];
               RunTask 1 (VFunction 9) VUndefined] in
  let w := exec_all acts (with_heap (λ _, heap sample) init) in
  let w' := exec (RunDisposables 0) w in
  let after := [Fire 0; Fire 1; Fire 2; Fire 3] in
  Forall (λ a, a ≠ RunDisposables 0) acts ∧
  tracked 0 w = [0; 2] ∧
  (pending w).*1 = [0; 1; 2; 3] ∧
  tracked 0 w' = [] ∧
  (pending w').*1 = [3] ∧
  fire 2 (exec_all after w') = (Ok tt, exec_all after w') ∧
  map callee (calls (exec_all after w')) = [7; 9].
Proof.
  intros acts w w' after.
  assert (Forall (λ a, a ≠ RunDisposables 0) acts) as Hacts
    by (repeat constructor; discriminate).
  destruct (destruction_cancels_everything (heap sample) acts 0 after Hacts)
    as (_ & H2 & _ & H4 & _).
  assert (tracked 0 w = [0; 2]) as Htracked by (vm_compute; reflexivity).
  assert (2 ∈ tracked 0 w) as Hin by (rewrite Htracked; right; left).
  split_and!; [exact Hacts | exact Htracked | vm_compute; reflexivity
              | exact H2 | vm_compute; reflexivity | exact (proj2 (H4 2 Hin))
              | vm_compute; reflexivity].
Defined.

(** ** What the timer sets hold *)

Lemma tidy_init h : tidy (with_heap (λ _, h) init).
Proof.
  split.
  - intros obj id Hin. by apply elem_of_nil in Hin.
  - intros obj m. simpl. by rewrite lookup_empty.
Qed.

(** In a tidy world the sets of two owners share no identifier. *)
Lemma tidy_disjoint w o o' id :
  wf w → tidy w → id ∈ tracked o w → id ∈ tracked o' w → o = o'.
Proof.
  intros Hw [Ht _] (j & Hj & Hc)%Ht (j' & Hj' & Hc')%Ht.
  pose proof (wf_nodup w Hw) as Hnd.
  apply (find_timer_elem _ _ _ Hnd) in Hj, Hj'.
  rewrite Hj in Hj'. injection Hj' as <-. congruence.
Qed.

(** No identifier of a set is the timer of a debounce. *)
Lemma tidy_apart_elem w o id o' name p :
  tidy w → id ∈ tracked o w → (name, p) ∈ debounces o' w → id ≠ cancelId p.
Proof.
  intros [Ht Hd] (j & Hj & Hc)%Ht Hp ->. unfold debounces in Hp.
  destruct (registeredDebounces w !! o') as [m|] eqn:Hm;
    [|by apply elem_of_nil in Hp].
  specialize (Hd _ _ Hm). rewrite Forall_forall in Hd.
  specialize (Hd _ Hp j Hj). congruence.
Qed.

Lemma tidy_apart w o id o' name p :
  tidy w → id ∈ tracked o w →
  JSMap.get name (debounces o' w) = Some p → id ≠ cancelId p.
Proof.
  intros Ht Hin Hp%JSMapFacts.get_Some_elem.
  by apply (tidy_apart_elem w o id o' name p).
Qed.

(** Entries leave the run loop, identifiers leave the sets and entries
    leave the debounce maps: the world stays tidy as long as no entry that
    left was one an identifier still in a set stands for. *)
Lemma tidy_shrink w w' :
  tidy w →
  (∀ o id, id ∈ tracked o w' →
     id ∈ tracked o w ∧
     ∀ j, (id, j) ∈ pending w → cleans j = Some o → (id, j) ∈ pending w') →
  (∀ e, e ∈ pending w' → e ∈ pending w) →
  (∀ o m', registeredDebounces w' !! o = Some m' →
     ∃ m, registeredDebounces w !! o = Some m ∧ ∀ kv, kv ∈ m' → kv ∈ m) →
  tidy w'.
Proof.
  intros [Ht Hd] H1 H2 H3. split.
  - intros o id [Hin Hkept]%H1. destruct (Ht _ _ Hin) as (j & Hj & Hc).
    exists j. split; [by apply Hkept|done].
  - intros o m' (m & Hm & Hsub)%H3. specialize (Hd _ _ Hm).
    rewrite Forall_forall in Hd |- *. intros kv Hkv%Hsub j Hj%H2.
    by apply (Hd kv).
Qed.

Lemma track_tracked_of obj j w o :
  tracked o (track obj j w) =
  if decide (obj = o) then JSSet.add (nextTimer w) (tracked obj w)
  else tracked o w.
Proof.
  case_decide; [subst o; apply track_tracked|].
  unfold track, timers_add, tracked. rewrite run_modify, run_issue.
  cbn [registeredTimers with_timers with_nextTimer with_pending].
  rewrite lookup_alter, decide_False by done.
  by rewrite getTimers_lookup, decide_False.
Qed.

Lemma track_debounces obj j w :
  registeredDebounces (track obj j w) = registeredDebounces w.
Proof.
  unfold track, timers_add. rewrite run_modify, run_issue.
  cbn [registeredDebounces with_timers with_nextTimer with_pending].
  apply getTimers_debounces.
Qed.

Lemma tidy_track obj j w :
  issued w → tidy w → cleans j = Some obj → tidy (track obj j w).
Proof.
  intros [_ Hid] [Ht Hd] Hj. split.
  - intros o id. rewrite track_tracked_of, track_pending.
    destruct (decide (obj = o)) as [<-|Hne].
    + intros [->|Hin]%JSSetFacts.elem_of_add.
      * exists j. split; [|done]. apply elem_of_app. right. by left.
      * destruct (Ht _ _ Hin) as (j' & Hj' & Hc). exists j'.
        split; [|done]. apply elem_of_app. by left.
    + intros Hin. destruct (Ht _ _ Hin) as (j' & Hj' & Hc). exists j'.
      split; [|done]. apply elem_of_app. by left.
  - intros o m. rewrite track_debounces, track_pending. intros Hm.
    specialize (Hd _ _ Hm). specialize (Hid _ _ Hm).
    rewrite Forall_forall in Hd, Hid |- *. intros kv Hkv j'.
    intros [Hin|Heq%list_elem_of_singleton]%elem_of_app.
    + by apply (Hd kv).
    + injection Heq as Heq _. specialize (Hid _ Hkv). simpl in Hid. lia.
Qed.

Lemma tidy_debounced obj name args w :
  wf w → issued w → tidy w → tidy (debounced obj name args w).
Proof.
  intros Hw [Hit Hid] [Ht Hd]. split.
  - intros o id. unfold tracked. rewrite debounced_timers, debounced_pending.
    intros Hin. destruct (Ht _ _ Hin) as (j & Hj & Hc). exists j.
    split; [|done]. apply elem_of_app. left. apply list_elem_of_filter.
    split; [|done]. unfold same_debounce. simpl.
    destruct j; simpl in Hc; try done; by intros [].
  - assert (∀ o m, registeredDebounces w !! o = Some m →
              Forall (λ kv, ∀ j,
                (cancelId kv.2, j) ∈ pending (debounced obj name args w) →
                cleans j = None) m) as Hold.
    { intros o m Hm. specialize (Hd _ _ Hm). specialize (Hid _ _ Hm).
      rewrite Forall_forall in Hd, Hid |- *. intros kv Hkv j.
      rewrite debounced_pending.
      intros [[_ Hin]%list_elem_of_filter|Heq%list_elem_of_singleton]%elem_of_app.
      - by apply (Hd kv).
      - by injection Heq as _ ->. }
    intros o m. rewrite debounced_lookup.
    destruct (decide (obj = o)) as [<-|Hne]; [|apply Hold].
    intros [= <-]. apply JSMapFacts.Forall_set.
    + unfold debounces.
      destruct (registeredDebounces w !! obj) as [m|] eqn:Hm; [|done].
      by apply (Hold obj).
    + cbv beta. cbn [snd cancelId]. intros j. rewrite debounced_pending.
      intros [[_ Hin]%list_elem_of_filter|Heq%list_elem_of_singleton]%elem_of_app.
      * pose proof (wf_fresh w Hw) as Hfresh. rewrite Forall_forall in Hfresh.
        specialize (Hfresh _ Hin). simpl in Hfresh. lia.
      * by injection Heq as ->.
Qed.

Lemma cancelTask_debounces a w :
  registeredDebounces (run (cancelTask a) w) = registeredDebounces w.
Proof.
  destruct a as [id|obj id]; [done|].
  rewrite cancelTask_For. apply getTimers_debounces.
Qed.

Lemma tidy_cancelTask a w :
  wf w → tidy w → careful (CancelTask a) w = true →
  tidy (run (cancelTask a) w).
Proof.
  intros Hw Ht Hcareful. apply (tidy_shrink w); [done|..].
  - intros o' id' Hin.
    assert (id' ∈ tracked o' w ∧ id' ≠ cancelled_id a) as [Hin' Hne].
    { destruct a as [id|o id]; cbn [cancelled_id careful] in *.
      - change (run (cancelTask (Legacy id)) w)
          with (with_pending (filter (λ e, e.1 ≠ id)) w) in Hin.
        change (id' ∈ tracked o' w) in Hin.
        split; [done|]. intros ->.
        apply bool_decide_eq_true in Hcareful. apply Hcareful.
        destruct Ht as [Ht _]. destruct (Ht _ _ Hin) as (j & Hj & _).
        apply list_elem_of_fmap. by exists (id, j).
      - rewrite cancelTask_tracked in Hin.
        destruct (decide (o = o')) as [<-|Hne].
        + by apply JSSetFacts.elem_of_delete in Hin as [? ?].
        + split; [done|]. intros ->.
          apply orb_true_iff in Hcareful as [Hhas|Hnot].
          * apply bool_decide_eq_true in Hhas.
            by apply Hne, (tidy_disjoint w o o' id).
          * apply bool_decide_eq_true in Hnot. apply Hnot.
            destruct Ht as [Ht _]. destruct (Ht _ _ Hin) as (j & Hj & _).
            apply list_elem_of_fmap. by exists (id, j). }
    split; [done|]. intros j Hj _. rewrite cancelTask_pending.
    by apply list_elem_of_filter.
  - intros e. rewrite cancelTask_pending. by intros [_ ?]%list_elem_of_filter.
  - intros o m'. rewrite cancelTask_debounces. eauto.
Qed.

Lemma tidy_cancelDebounce obj name w :
  wf w → tidy w → tidy (run (cancelDebounce obj name) w).
Proof.
  intros Hw Ht.
  destruct (JSMap.get name (debounces obj w)) as [p|] eqn:Hp.
  - unfold run. rewrite (cancelDebounce_present obj name p w Hp). cbn [snd].
    apply (tidy_shrink w); [done|..].
    + intros o id Hin. split; [done|]. intros j Hj _.
      apply list_elem_of_filter. split; [|done]. simpl.
      by apply (tidy_apart w o id obj name p).
    + intros e. by intros [_ ?]%list_elem_of_filter.
    + intros o m'. cbn [registeredDebounces with_pending with_debounces].
      rewrite lookup_alter. case_decide; [subst o|by eauto].
      destruct (registeredDebounces w !! obj) as [m|]; [|done].
      intros [= <-]. exists m. split; [done|].
      by intros kv [_ ?]%list_elem_of_filter.
  - unfold run. by rewrite (cancelDebounce_absent obj name w Hp).
Qed.

Lemma dispose_pending_subset d w e :
  e ∈ pending (run (dispose d) w) → e ∈ pending w.
Proof.
  revert e.
  apply (on_run_loop_dispose (λ _ l, ∀ e, e ∈ l → e ∈ pending w)).
  - intros P ? n l Hl e [_ He]%list_elem_of_filter. by apply Hl.
  - by intros e He.
Qed.

Lemma tidy_dispose d w : wf w → tidy w → tidy (run (dispose d) w).
Proof.
  intros Hw Ht. destruct d as [obj|obj].
  - apply (tidy_shrink w); [done|..].
    + intros o id Hin.
      assert (o ≠ obj) as Hne.
      { intros ->. unfold run at 1 in Hin. rewrite dispose_timers in Hin.
        cbn [snd] in Hin. rewrite tracked_timers_clear in Hin.
        by apply elem_of_nil in Hin. }
      rewrite dispose_tracked_other in Hin by (by intros [= ->]).
      split; [done|]. intros j Hj _.
      unfold run at 1. rewrite dispose_timers. cbn [snd].
      unfold timers_clear. rewrite run_modify. cbn [pending with_timers].
      rewrite forEach_cancelTask_pending. apply list_elem_of_filter.
      split; [|done]. simpl. intros Hin'.
      by apply Hne, (tidy_disjoint w o obj id).
    + intros e. apply dispose_pending_subset.
    + intros o m'. rewrite dispose_debounces. eauto.
  - unfold run, dispose. step.
    destruct (JSMap.size (debounces obj w) =? 0); [done|].
    rewrite (forEach_cancel_world _ (λ p, cancelId p.2)). cbn [snd].
    apply (tidy_shrink w); [done|..].
    + intros o id Hin. split; [done|]. intros j Hj _.
      apply list_elem_of_filter. split; [|done]. simpl.
      intros ([n p] & Heq & Hnp)%list_elem_of_fmap. simpl in Heq.
      by apply (tidy_apart_elem w o id obj n p Ht Hin).
    + intros e. by intros [_ ?]%list_elem_of_filter.
    + intros o m'. eauto.
Qed.

Lemma tidy_runDisposables obj :
  preserves (λ w, wf w ∧ tidy w) (runDisposables obj).
Proof.
  unfold runDisposables. apply preserves_bind; [apply preserves_gets|].
  intros [ds|]; [|apply preserves_ret].
  apply preserves_bind.
  - apply preserves_modify. intros w [Hw Ht]. split; [|exact Ht].
    destruct Hw as [Hfresh Hnodup Hjobs Hrecorded Hdisp Hsets Hmaps Hclos].
    split; simpl; try done.
    intros obj' ds'. rewrite lookup_delete. case_decide; [done|by auto].
  - intros _. apply preserves_forEach. intros d _ w [Hw Ht].
    split; [by apply wf_dispose|by apply tidy_dispose].
Qed.

(** What the firing of a timer does to the run loop, the timer sets and
    the debounce maps. *)
Lemma fire_fields id w :
  wf w →
  match find_timer id (pending w) with
  | None => run (fire id) w = w
  | Some j =>
      pending (run (fire id) w) = filter (λ e, e.1 ≠ id) (pending w) ∧
      registeredTimers (run (fire id) w) =
        match cleans j with
        | Some o => alter (JSSet.delete id) o (registeredTimers w)
        | None => registeredTimers w
        end ∧
      ∀ o m', registeredDebounces (run (fire id) w) !! o = Some m' →
              ∃ m, registeredDebounces w !! o = Some m ∧
                   ∀ kv, kv ∈ m' → kv ∈ m
  end.
Proof.
  intros Hw. unfold run, fire. step.
  destruct (find_timer id (pending w)) as [j|] eqn:Hj; [|done].
  apply find_timer_Some in Hj.
  pose proof (wf_jobs w Hw) as Hjobs. rewrite Forall_forall in Hjobs.
  specialize (Hjobs _ Hj). simpl in Hjobs.
  unfold cancel. step.
  destruct j as [cb wait|q target cb args|target f wait|target cb args wait];
    [destruct cb as [obj c task|obj c task|cid obj name];
       simpl in Hjobs; try done..|
    |destruct cb as [obj c task|obj c task|cid obj name];
       simpl in Hjobs; try done].
  - subst c. cbn [invoke cleans]. unfold timers_delete, call_user.
    step. cbn [snd]. split_and!; [done..|]. eauto.
  - destruct Hjobs as [-> ->]. cbn [invoke cleans].
    unfold timers_delete, call_user. step. cbn [snd].
    split_and!; [done..|]. eauto.
  - cbn [snd cleans]. split_and!; [done..|]. eauto.
  - cbn [invoke cleans]. step.
    assert (∀ o m',
      alter (JSMap.delete name) obj (registeredDebounces w) !! o = Some m' →
      ∃ m, registeredDebounces w !! o = Some m ∧ ∀ kv, kv ∈ m' → kv ∈ m)
      as Hsub.
    { intros o m'. rewrite lookup_alter. case_decide; [subst o|by eauto].
      destruct (registeredDebounces w !! obj) as [m|]; [|done].
      intros [= <-]. exists m. split; [done|].
      by intros kv [_ ?]%list_elem_of_filter. }
    destruct (get_prop obj name _); cbn [snd]; (split_and!; [done..|]);
      apply Hsub.
Qed.

Lemma tidy_fire id w : wf w → tidy w → tidy (run (fire id) w).
Proof.
  intros Hw Ht. pose proof (fire_fields id w Hw) as Hfire.
  destruct (find_timer id (pending w)) as [j|] eqn:Hj; [|by rewrite Hfire].
  destruct Hfire as (Hpending & Htimers & Hdebounces).
  pose proof (wf_nodup w Hw) as Hnd.
  apply (tidy_shrink w); [done|..].
  - intros o id'. unfold tracked at 1. rewrite Htimers, Hpending.
    intros Hin.
    assert (id' ∈ tracked o w ∧ id' ≠ id) as [Hin' Hne].
    { assert (id' ∈ tracked o w ∧ (cleans j = Some o → id' ≠ id))
        as [Hin' Hne].
      { destruct (cleans j) as [o0|]; [|done].
        rewrite lookup_alter in Hin.
        destruct (decide (o = o0)) as [<-|Hne].
        - rewrite decide_True in Hin by done. unfold tracked.
          destruct (registeredTimers w !! o) as [s|];
            [|by apply elem_of_nil in Hin].
          by apply JSSetFacts.elem_of_delete in Hin as [? ?].
        - rewrite decide_False in Hin by done. split; [done|].
          by intros [= ->]. }
      split; [done|]. intros ->. apply Hne; [|done].
      destruct Ht as [Ht _]. destruct (Ht _ _ Hin') as (j' & Hj' & Hc).
      apply (find_timer_elem _ _ _ Hnd) in Hj'. congruence. }
    split; [done|]. intros j' Hj' _. by apply list_elem_of_filter.
  - intros e. rewrite Hpending. by intros [_ ?]%list_elem_of_filter.
  - done.
Qed.

Lemma tidy_getTimers obj w : tidy w → tidy (run (getTimers obj) w).
Proof.
  intros Ht. apply (tidy_shrink w); [done|..].
  - intros o id. rewrite getTimers_tracked, getTimers_pending. by intros Hin.
  - intros e. by rewrite getTimers_pending.
  - intros o m'. rewrite getTimers_debounces. eauto.
Qed.

(** A careful use of the addon keeps a world tidy. *)
Lemma tidy_exec a w :
  wf w → issued w → tidy w → careful a w = true → tidy (exec a w).
Proof.
  intros Hw Hi Ht Hcareful. destruct a; cbn [exec]; try done.
  - pose proof (runTask_cases obj taskOrName timeout w) as Hc. unfold run.
    destruct (passes_runTask obj taskOrName w).
    + destruct Hc as (f & _ & ->). by apply tidy_track.
    + by destruct Hc as [e ->].
  - pose proof (scheduleTask_cases obj queueName taskOrName args w) as Hc.
    unfold run. destruct (passes_scheduleTask obj queueName taskOrName w).
    + destruct Hc as (q & f & _ & _ & ->).
      destruct (run_loop_takes q); [by apply tidy_track|].
      by apply tidy_getTimers.
    + by destruct Hc as [e ->].
  - pose proof (debounceTask_valid obj name debounceArgs w) as Hc. unfold run.
    destruct (passes_named obj name debounceArgs w).
    + destruct Hc as (n & _ & ->). by apply tidy_debounced.
    + by destruct Hc as [e ->].
  - by apply tidy_cancelTask.
  - by apply tidy_cancelDebounce.
  - by apply (tidy_runDisposables obj w).
  - by apply tidy_fire.
Qed.

Lemma tidy_exec_all acts w :
  wf w → issued w → tidy w → careful_all acts w = true →
  tidy (exec_all acts w).
Proof.
  revert w. induction acts as [|a acts IH]; intros w Hw Hi Ht Hc; [done|].
  cbn [careful_all] in Hc. apply andb_true_iff in Hc as [Ha Hacts].
  simpl. apply IH; [by apply wf_exec|by apply issued_exec| |done].
  by apply tidy_exec.
Qed.

(** X10: used without [throttleTask], and with [cancelTask] called only
    for an identifier its owner holds (or one that is not pending), the
    addon keeps its timer sets exact: in every world reached from an empty
    one, each identifier in the set of an owner stands for a pending entry
    of the run loop, made by [runTask] or [scheduleTask] for that owner,
    which will take the identifier out of that set when it fires. *)
Theorem timer_sets_hold_pending_timers h acts obj id :
  careful_all acts (with_heap (λ _, h) init) = true →
  id ∈ tracked obj (exec_all acts (with_heap (λ _, h) init)) →
  ∃ j, find_timer id (pending (exec_all acts (with_heap (λ _, h) init)))
         = Some j ∧
       cleans j = Some obj.
Proof.
  intros Hcareful Hin.
  assert (wf (with_heap (λ _, h) init)) as H0 by apply wf_with_heap, wf_init.
  pose proof (wf_exec_all acts _ H0) as Hw.
  pose proof (tidy_exec_all acts _ H0 issued_init (tidy_init h) Hcareful)
    as [Ht _].
  destruct (Ht _ _ Hin) as (j & Hj & Hc). exists j. split; [|done].
  apply find_timer_elem; [by apply wf_nodup|done].
Qed.

Lemma timer_sets_hold_pending_timers_witness :
  let acts := [RunTask 0 (VString "doStuff") (int 5);
               ScheduleTask 0 (VString "actions") (VString "other") [VNull];
               DebounceTask 0 (VString "other") [int 5];
               RunTask 1 (VFunction 9) VUndefined;
               Fire 0;
               CancelTask (For 1 3);
               CancelDebounce 0 "other";
               RunTask 0 (VFunction 9) VUndefined] in
  let w := exec_all acts (with_heap (λ _, heap sample) init) in
  careful_all acts (with_heap (λ _, heap sample) init) = true ∧
  tracked 0 w = [1; 4] ∧
  4 ∈ tracked 0 w ∧
  (pending w).*1 = [1; 4] ∧
  ∃ j, find_timer 4 (pending w) = Some j ∧ cleans j = Some 0.
Proof.
  intros acts w.
  assert (careful_all acts (with_heap (λ _, heap sample) init) = true)
    as Hcareful by (vm_compute; reflexivity).
  assert (tracked 0 w = [1; 4]) as Htracked by (vm_compute; reflexivity).
  assert (4 ∈ tracked 0 w) as Hin by (rewrite Htracked; right; left).
  split_and!; [exact Hcareful | exact Htracked | exact Hin
              | vm_compute; reflexivity |].
  exact (timer_sets_hold_pending_timers (heap sample) acts 0 4 Hcareful Hin).
Defined.

(** ** [cancelTask] with another owner *)

(** X11: [cancelTask(other, cancelId)] with an owner that does not hold
    the identifier cancels the timer all the same, so that it never fires,
    but deletes from the set of [other]: the identifier stays in the set of
    its owner until [cancelTask] is called with that owner or the
    disposables of that owner run. *)
Theorem cancel_with_other_owner obj other id w w1 acts :
  wf w → scheduled obj id w w1 → other ≠ obj →
  Forall (spares obj id) acts →
  let w2 := exec (CancelTask (For other id)) w1 in
  fire id (exec_all acts w2) = (Ok tt, exec_all acts w2) ∧
  id ∈ tracked obj (exec_all acts w2).
Proof.
  intros Hw Hs Hother Hacts w2.
  destruct (scheduled_track obj id w w1 Hw Hs)
    as (-> & Hw1 & task & args & j & _ & ->).
  assert (wf w2) as Hw2 by apply wf_exec, Hw1.
  assert (nextTimer w < nextTimer w2) as Hlt.
  { unfold w2, exec. rewrite cancelTask_For.
    cbn [nextTimer with_pending with_timers].
    rewrite getTimers_nextTimer, track_next. lia. }
  assert (nextTimer w ∉ (pending w2).*1) as Hnot.
  { unfold w2, exec. rewrite cancelTask_pending. apply cancelled_not_pending. }
  split; [by apply never_pending_again|].
  apply (throttle_tracked_exec_all obj (nextTimer w) acts w2 Hw2); [|done].
  split_and!; [|done|].
  - unfold is_tracked, w2, exec.
    rewrite cancelTask_tracked, decide_False, track_tracked by done.
    apply JSSetFacts.elem_of_add. by left.
  - intros j' Hin. destruct Hnot. apply list_elem_of_fmap.
    by exists (nextTimer w, j').
Qed.

Lemma cancel_with_other_owner_witness :
  let w1 := run (runTask 0 (VString "doStuff") (int 5)) sample in
  let acts := [Fire 0; RunTask 0 (VString "other") VUndefined; Fire 1] in
  let w2 := exec (CancelTask (For 1 0)) w1 in
  wf sample ∧ scheduled 0 0 sample w1 ∧ 1 ≠ 0 ∧ Forall (spares 0 0) acts ∧
  map callee (calls (exec_all acts w2)) = [8] ∧
  0 ∈ tracked 0 (exec_all acts w2).
Proof.
  intros w1 acts w2.
  assert (wf sample) as Hw by (apply wf_with_heap, wf_init).
  assert (scheduled 0 0 sample w1) as Hs
    by (left; exists (VString "doStuff"), (int 5); reflexivity).
  assert (Forall (spares 0 0) acts) as Hacts
    by (repeat constructor; discriminate).
  assert (1 ≠ 0) as Hne by lia.
  destruct (cancel_with_other_owner 0 1 0 sample w1 acts Hw Hs Hne Hacts)
    as [_ H2].
  split_and!; [exact Hw | exact Hs | exact Hne | exact Hacts | by vm_compute
              | exact H2].
Defined.

(** ** One owner at a time *)

Section isolation.
Context (obj o : obj_id) (Hne' : o ≠ obj).
Context (k : option JSSet.t * option (JSMap.t PendingDebounce) *
             option (list disposable) * option object).

Local Abbreviation framed := (λ w, kept_for obj w = k).

Ltac framed_step :=
  first
    [ apply preserves_ret | apply preserves_throw | apply preserves_gets
    | apply preserves_assert | apply preserves_bind
    | apply preserves_forEach; intros ? _
    | (intros ? ?; assumption)
    | apply preserves_modify; intros ? <-; unfold kept_for;
      cbn [registeredTimers registeredDebounces registeredDisposables heap
           with_timers with_debounces with_disposables with_heap];
      rewrite ?lookup_alter, ?lookup_insert, ?lookup_delete,
        ?decide_False by done;
      reflexivity
    | match goal with |- ∀ _, _ => intros ? end
    | match goal with
      |- preserves _ (match ?x with _ => _ end) => destruct x
      end
    | match goal with |- preserves _ (if ?x then _ else _) => destruct x end ].

Lemma framed_getTimers : preserves framed (getTimers o).
Proof. unfold getTimers, registerDisposable. repeat framed_step. Qed.

Ltac framed := repeat first [apply framed_getTimers | framed_step].

Lemma framed_cancelTask id : preserves framed (cancelTask (For o id)).
Proof. unfold cancelTask, timers_delete, cancel. framed. Qed.

Lemma framed_dispose d :
  disposable_owner d = o → preserves framed (dispose d).
Proof.
  destruct d as [o'|o']; simpl; intros ->.
  - unfold timers_clear.
    repeat first [apply framed_cancelTask | framed_step].
  - unfold cancel. framed.
Qed.

Lemma framed_runDisposables w :
  wf w → framed w → framed (run (runDisposables o) w).
Proof.
  intros Hw Hk. unfold run, runDisposables. step.
  destruct (registeredDisposables w !! o) as [ds|] eqn:Hds; [|done]. step.
  pose proof (wf_disposables w Hw o ds Hds) as Hown.
  rewrite Forall_forall in Hown.
  apply (preserves_forEach framed ds dispose).
  - intros d Hd. by apply framed_dispose, Hown.
  - rewrite <- Hk. unfold kept_for.
    cbn [registeredTimers registeredDebounces registeredDisposables heap
         with_disposables].
    by rewrite lookup_delete, decide_False.
Qed.

Lemma framed_exec a w :
  wf w → acts_on a = Some o → framed w → framed (exec a w).
Proof.
  intros Hw Ha.
  destruct a as [o' ? ?|o' ? ? ?|o' ? ?|o' ? ?|[?|o' ?]|o' ?|o'| |o' ? ?|o'];
    simplify_eq/=; try (by apply framed_runDisposables); clear Hw; revert w;
    match goal with
    | |- ∀ w, kept_for obj w = k → kept_for obj (run ?m w) = k =>
        change (preserves framed m)
    end.
  - unfold runTask, getTask, later, issue, timers_add. framed.
  - unfold scheduleTask, getTask, schedule, issue, timers_add. framed.
  - unfold throttleTask, throttle, call_user, issue, timers_add. cbv zeta.
    framed.
  - unfold debounceTask, debounce, issue, registerDisposable, new_closure.
    cbv zeta. framed.
  - apply framed_cancelTask.
  - unfold cancelDebounce, cancel. framed.
  - unfold set_prop. framed.
  - unfold mark_destroyed. framed.
Qed.

End isolation.

(** X12: a call made for one owner ([runTask], [scheduleTask],
    [throttleTask], [debounceTask], the two-argument [cancelTask],
    [cancelDebounce], the run of its disposables, an assignment to one of
    its properties, its destruction) leaves every other owner its timer
    set, its debounce map, its disposables and its properties, whether the
    call returns or throws. *)
Theorem other_owners_untouched a o obj w :
  wf w → acts_on a = Some o → obj ≠ o →
  kept_for obj (exec a w) = kept_for obj w.
Proof.
  intros Hw Ha Hne.
  by apply (framed_exec obj o (not_eq_sym Hne) (kept_for obj w) a w).
Qed.

Lemma other_owners_untouched_witness :
  let w := exec_all [RunTask 1 (VFunction 9) (int 3);
                     DebounceTask 0 (VString "other") [int 5]] sample in
  wf w ∧ acts_on (RunDisposables 0) = Some 0 ∧ 1 ≠ 0 ∧
  kept_for 1 (exec (RunDisposables 0) w) = kept_for 1 w ∧
  tracked 1 w = [0].
Proof.
  intros w.
  assert (wf w) as Hw by apply wf_exec_all, wf_with_heap, wf_init.
  assert (1 ≠ 0) as Hne by lia.
  split_and!; [exact Hw | reflexivity | exact Hne | | by vm_compute].
  exact (other_owners_untouched (RunDisposables 0) 0 1 w Hw eq_refl Hne).
Defined.

(** ** The disposables are registered once *)

Lemma once_init h : registered_once (with_heap (λ _, h) init).
Proof.
  intros obj. unfold disposables. simpl. rewrite lookup_empty. simpl.
  split_and!; [apply NoDup_nil_2|by intros ?%elem_of_nil..].
Qed.

Lemma once_timers_alter (g : JSSet.t → JSSet.t) o w :
  registered_once w → registered_once (with_timers (alter g o) w).
Proof.
  intros Hw obj. destruct (Hw obj) as (Hnd & Ht & Hd).
  split_and!; [done| |done]. intros Hin%Ht.
  cbn [registeredTimers with_timers]. rewrite lookup_alter.
  case_decide; [subst o|done]. by apply fmap_is_Some.
Qed.

Lemma once_debounces_alter
    (g : JSMap.t PendingDebounce → JSMap.t PendingDebounce) o w :
  registered_once w → registered_once (with_debounces (alter g o) w).
Proof.
  intros Hw obj. destruct (Hw obj) as (Hnd & Ht & Hd).
  split_and!; [done..|]. intros Hin%Hd.
  cbn [registeredDebounces with_debounces]. rewrite lookup_alter.
  case_decide; [subst o|done]. by apply fmap_is_Some.
Qed.

Lemma once_forget o w :
  registered_once w → registered_once (with_disposables (delete o) w).
Proof.
  intros Hw obj. destruct (Hw obj) as (Hnd & Ht & Hd).
  unfold disposables in *.
  cbn [registeredDisposables registeredTimers registeredDebounces
       with_disposables].
  rewrite lookup_delete. case_decide; [|done]. simpl.
  split_and!; [apply NoDup_nil_2|by intros ?%elem_of_nil..].
Qed.

Lemma once_getTimers o : preserves registered_once (getTimers o).
Proof.
  intros w Hw. unfold run, getTimers. step.
  destruct (registeredTimers w !! o) as [s|] eqn:Hs; [done|]. step.
  change ((registerDisposable ?o ?d ?w).2)
    with (run (registerDisposable o d) w).
  intros obj. destruct (Hw obj) as (Hnd & Ht & Hd).
  rewrite disposables_register.
  change (registeredTimers (run _ ?w)) with (registeredTimers w).
  change (registeredDebounces (run _ (with_timers _ w)))
    with (registeredDebounces w).
  cbn [registeredTimers with_timers].
  change (disposables obj (with_timers _ w)) with (disposables obj w).
  destruct (decide (o = obj)) as [->|Hne].
  - rewrite lookup_insert_eq. split_and!.
    + apply NoDup_app. split_and!; [done| |apply NoDup_singleton].
      intros d Hin ->%list_elem_of_singleton.
      apply Ht in Hin as [? ?]. congruence.
    + by eexists.
    + intros [Hin|Hin%list_elem_of_singleton]%elem_of_app; [auto|done].
  - by rewrite lookup_insert_ne.
Qed.

Lemma once_ensure_debounces o w :
  registered_once w → registered_once (ensure_debounces o w).
Proof.
  intros Hw. unfold ensure_debounces.
  destruct (registeredDebounces w !! o) as [m|] eqn:Hm; [done|].
  intros obj. destruct (Hw obj) as (Hnd & Ht & Hd).
  rewrite disposables_register.
  change (registeredDebounces (run _ ?w)) with (registeredDebounces w).
  change (registeredTimers (run _ (with_debounces _ w)))
    with (registeredTimers w).
  cbn [registeredDebounces with_debounces].
  change (disposables obj (with_debounces _ w)) with (disposables obj w).
  destruct (decide (o = obj)) as [->|Hne].
  - rewrite lookup_insert_eq. split_and!.
    + apply NoDup_app. split_and!; [done| |apply NoDup_singleton].
      intros d Hin ->%list_elem_of_singleton.
      apply Hd in Hin as [? ?]. congruence.
    + intros [Hin|Hin%list_elem_of_singleton]%elem_of_app; [auto|done].
    + by eexists.
  - by rewrite lookup_insert_ne.
Qed.

Lemma once_debounced obj name args w :
  registered_once w → registered_once (debounced obj name args w).
Proof.
  intros Hw%(once_ensure_debounces obj) o.
  destruct (Hw o) as (Hnd & Ht & Hd). unfold disposables in *.
  rewrite debounced_disposables, debounced_timers, debounced_lookup.
  split_and!; [done| |].
  - intros Hin%Ht. revert Hin. unfold ensure_debounces.
    by destruct (registeredDebounces w !! obj).
  - case_decide; [by eexists|]. intros Hin%Hd. revert Hin.
    unfold ensure_debounces.
    destruct (registeredDebounces w !! obj); [done|].
    change (registeredDebounces (run _ ?w)) with (registeredDebounces w).
    cbn [registeredDebounces with_debounces]. by rewrite lookup_insert_ne.
Qed.

Ltac single :=
  repeat first
    [ apply preserves_ret | apply preserves_throw | apply preserves_gets
    | apply preserves_assert | apply once_getTimers | apply preserves_bind
    | apply preserves_forEach; intros ? _
    | apply preserves_modify; intros ? ?; assumption
    | apply preserves_modify; intros ? ?; by apply once_timers_alter
    | apply preserves_modify; intros ? ?; by apply once_debounces_alter
    | apply preserves_modify; intros ? ?; by apply once_forget
    | (intros ? ?; assumption)
    | match goal with |- ∀ _, _ => intros ? end
    | match goal with
      |- preserves _ (match ?x with _ => _ end) => destruct x
      end
    | match goal with |- preserves _ (if ?x then _ else _) => destruct x end ].

Lemma once_cancelTask a : preserves registered_once (cancelTask a).
Proof. unfold cancelTask, timers_delete, cancel. destruct a; single. Qed.

Lemma once_dispose d : preserves registered_once (dispose d).
Proof.
  unfold dispose, timers_clear, cancel.
  repeat first [apply once_cancelTask | single].
Qed.

Lemma once_exec a w : registered_once w → registered_once (exec a w).
Proof.
  destruct a; cbn [exec];
    try match goal with
    | |- _ → registered_once (run (debounceTask _ _ _) w) => idtac
    | |- _ → registered_once (run ?m w) =>
        revert w; change (preserves registered_once m)
    end.
  - unfold runTask, getTask, later, issue, timers_add. single.
  - unfold scheduleTask, getTask, schedule, issue, timers_add. single.
  - unfold throttleTask, throttle, call_user, issue, timers_add. cbv zeta.
    single.
  - intros Hw.
    pose proof (debounceTask_valid obj name debounceArgs w) as Hc. unfold run.
    destruct (passes_named obj name debounceArgs w).
    + destruct Hc as (n & _ & ->). by apply once_debounced.
    + by destruct Hc as [e ->].
  - apply once_cancelTask.
  - unfold cancelDebounce, cancel. single.
  - unfold runDisposables. repeat first [apply once_dispose | single].
  - unfold fire, invoke, cancel, timers_delete, call_user. single.
  - unfold set_prop. single.
  - unfold mark_destroyed. single.
Qed.

Lemma once_exec_all acts w :
  registered_once w → registered_once (exec_all acts w).
Proof.
  revert w. induction acts as [|a acts IH]; intros w Hw; [done|].
  simpl. by apply IH, once_exec.
Qed.

(** X13: [getTimers] and [debounceTask] register their disposable only
    when they create the set or the map of the owner.  So, in every world
    reached from an empty one, the callbacks recorded for an owner are at
    most its disposable of timers and its disposable of debounces, each at
    most once. *)
Theorem disposables_registered_once h acts obj :
  let w := exec_all acts (with_heap (λ _, h) init) in
  NoDup (disposables obj w) ∧
  ∀ d, d ∈ disposables obj w →
       d = TimersDisposable obj ∨ d = DebouncesDisposable obj.
Proof.
  intros w.
  assert (wf w) as Hw by apply wf_exec_all, wf_with_heap, wf_init.
  assert (registered_once w) as Honce by apply once_exec_all, once_init.
  split; [apply Honce|].
  intros d Hd. unfold disposables in Hd.
  destruct (registeredDisposables w !! obj) as [ds|] eqn:Hds;
    [|by apply elem_of_nil in Hd].
  pose proof (wf_disposables w Hw obj ds Hds) as Hown.
  rewrite Forall_forall in Hown. specialize (Hown _ Hd).
  destruct d; simpl in Hown; subst; auto.
Qed.
